(** * evm-ipfs-example: the batch enrichment pipeline of [src/main.ts]

    A shallow embedding of the batch handler, [getTransfer],
    [processTransfers], [initTokens], [fetchTokenMetadata], [sleep] and
    [splitIntoBatches], with the entity heap, the insertion-ordered [Map]s
    and [Set]s of the resolver, a virtual millisecond clock for the
    staggered fetches, the properties the specification states about them,
    and further properties of the code: of the rows a run writes, of a batch
    run twice, of the rate of the fetches, of store calls that are not
    fulfilled, of the errors a run can throw and of the URL that the HTTP
    client reads in the string it is given. *)

From Stdlib Require Import ZArith Lia Ascii String.
From stdpp Require Import base tactics option list strings pretty.

Local Open Scope Z_scope.
#[local] Set Warnings "-register-all,-clear-no-such-hyp".

(** ** JavaScript array helpers *)

Module JS.

(** [Array.prototype.slice]'s treatment of a relative index: a negative
    index counts from the end, and everything is clamped to [0, len]. *)
Definition rel_index (len i : Z) : Z :=
  if i <? 0 then Z.max (len + i) 0 else Z.min i len.

(** [list.slice(start, end)] *)
Definition slice {T} (l : list T) (start stop : Z) : list T :=
  let len := Z.of_nat (length l) in
  let k := rel_index len start in
  let f := rel_index len stop in
  take (Z.to_nat (f - k)) (drop (Z.to_nat k) l).

(** [list.slice(start)] *)
Definition slice_from {T} (l : list T) (start : Z) : list T :=
  slice l start (Z.of_nat (length l)).

End JS.

(** ** Utility functions *)

(** The generator [splitIntoBatches] as what comes out of it: the chunks it
    yields, in order, and whether it has returned.  Its [while] loop has no
    bound of its own (with [maxBatchSize <= 0] it never leaves), so the
    embedding runs it for at most [fuel] rounds; a result with [false] is
    the beginning of a sequence that goes on. *)
Fixpoint splitIntoBatches_loop {T} (fuel : nat) (xs : list T)
    (maxBatchSize offset : Z) : list (list T) * bool :=
  match fuel with
  | O => ([], false)
  | S fuel' =>
      if Z.of_nat (length xs) - offset >? maxBatchSize then
        let '(chunks, returned) :=
          splitIntoBatches_loop fuel' xs maxBatchSize (offset + maxBatchSize) in
        (JS.slice xs offset (offset + maxBatchSize) :: chunks, returned)
      else ([JS.slice_from xs offset], true)
  end.

Definition splitIntoBatches {T} (fuel : nat) (xs : list T)
    (maxBatchSize : Z) : list (list T) * bool :=
  if Z.of_nat (length xs) <=? maxBatchSize then ([xs], true)
  else splitIntoBatches_loop fuel xs maxBatchSize 0.

(** ** JavaScript containers and strings *)

(** A JavaScript [Map] with string keys: an association list in insertion
    order.  [set] on a key that is present replaces its value in place, on a
    new key it appends. *)
Module JSMap.

Definition t (V : Type) : Type := list (string * V).

Fixpoint get {V} (k : string) (m : t V) : option V :=
  match m with
  | [] => None
  | (k', v) :: m' => if decide (k = k') then Some v else get k m'
  end.

Fixpoint set {V} (k : string) (v : V) (m : t V) : t V :=
  match m with
  | [] => [(k, v)]
  | (k', v') :: m' =>
      if decide (k = k') then (k, v) :: m' else (k', v') :: set k v m'
  end.

(** [new Map(entries)] *)
Definition of_entries {V} (entries : list (string * V)) : t V :=
  fold_left (fun m kv => set kv.1 kv.2 m) entries [].

Definition keys {V} (m : t V) : list string := m.*1.
Definition values {V} (m : t V) : list V := m.*2.

End JSMap.

(** A JavaScript [Set] of strings, in insertion order. *)
Module JSSet.

Definition t : Type := list string.

Definition add (x : string) (s : t) : t :=
  if decide (x ∈ s) then s else s ++ [x].

End JSSet.

(** [s.startsWith(p)] *)
Definition startsWith (s p : string) : bool := String.prefix p s.

(** The part of a URI before its first colon. *)
Fixpoint scheme (uri : string) : string :=
  match uri with
  | EmptyString => EmptyString
  | String c rest => if Ascii.eqb c ":"%char then EmptyString else String c (scheme rest)
  end.

(** [msg] has [part] as a substring. *)
Definition contains (msg part : string) : Prop :=
  exists pre post, msg = pre +:+ part +:+ post.

(** Thrown values: an error object with its [name] and [message]. *)
Record exn := Exn { exn_name : string; exn_message : string }.

Definition Error (msg : string) : exn := Exn "Error" msg.
Definition TypeError (msg : string) : exn := Exn "TypeError" msg.

(** [`${e}`], that is [Error.prototype.toString]. *)
Definition exn_to_string (e : exn) : string :=
  if decide (exn_name e = "") then exn_message e
  else if decide (exn_message e = "") then exn_name e
  else exn_name e +:+ ": " +:+ exn_message e.

(** How a call ends: with a value, with a thrown error, or not at all. *)
Inductive outcome (A : Type) : Type :=
  | Returned (a : A)
  | Raised (e : exn)
  | Diverged.
Arguments Returned {A} a.
Arguments Raised {A} e.
Arguments Diverged {A}.

(** ** [path.posix.join] of Node.js

    [join] glues its non-empty arguments with a slash and normalizes the
    result; normalization works on the slash-separated segments: empty and
    [.] segments are dropped, [..] removes the segment before it. *)
Module Path.

Fixpoint split_go (cur : string) (s : string) : list string :=
  match s with
  | EmptyString => [String.rev cur]
  | String c rest =>
      if Ascii.eqb c "/"%char then String.rev cur :: split_go EmptyString rest
      else split_go (String c cur) rest
  end.

(** [s.split('/')] *)
Definition split (s : string) : list string := split_go EmptyString s.

(** [segments.join('/')] *)
Fixpoint unsplit (segs : list string) : string :=
  match segs with
  | [] => ""
  | [x] => x
  | x :: rest => x +:+ "/" +:+ unsplit rest
  end.

(** One segment of [normalizeString]; [acc] holds the kept segments, the
    last one first. *)
Definition normalize_segment (allowAboveRoot : bool) (acc : list string)
    (seg : string) : list string :=
  if decide (seg = "" \/ seg = ".") then acc
  else if decide (seg = "..") then
    match acc with
    | top :: below =>
        if decide (top = "..") then (if allowAboveRoot then ".." :: acc else acc)
        else below
    | [] => if allowAboveRoot then [".."] else []
    end
  else seg :: acc.

Definition normalizeString (path : string) (allowAboveRoot : bool) : string :=
  unsplit (rev (fold_left (normalize_segment allowAboveRoot) (split path) [])).

Definition ends_with_slash (path : string) : bool :=
  match String.rev path with
  | String c _ => Ascii.eqb c "/"%char
  | EmptyString => false
  end.

Definition normalize (path : string) : string :=
  if decide (path = "") then "." else
  let isAbsolute := startsWith path "/" in
  let trailingSeparator := ends_with_slash path in
  let p := normalizeString path (negb isAbsolute) in
  if decide (p = "") then
    (if isAbsolute then "/" else if trailingSeparator then "./" else ".")
  else
    let p := if trailingSeparator then p +:+ "/" else p in
    if isAbsolute then "/" +:+ p else p.

Definition join (args : list string) : string :=
  match filter (fun a => a <> "") args with
  | [] => "."
  | parts => normalize (unsplit parts)
  end.

End Path.

(** ** The URL that the HTTP client requests

    [client.get(url)] of [@subsquid/http-client], which is not among the
    sources, hands its string to [fetch] (the client of [main.ts] has no
    base URL), and [fetch] parses it as the URL Standard says.  [href] is
    that parser, with the serializer after it, on the strings that need no
    escaping and no host conversion: the scheme [http] or [https] in lower
    case, any number of slashes, a host of labels of lower-case letters, and
    a path of letters, digits, [-], [.], [_], [~] and slashes.  [None] stands
    for a string outside of these, not for a string that fails to parse. *)
Module URL.

Definition between (lo hi : N) (c : ascii) : bool :=
  let n := N_of_ascii c in ((lo <=? n) && (n <=? hi))%N.

Definition lower_alpha (c : ascii) : bool := between 97 122 c.

(** The characters that the path state leaves as they are, among others:
    letters, digits and [-], [.], [_], [~]. *)
Definition unreserved (c : ascii) : bool :=
  between 65 90 c || between 97 122 c || between 48 57 c
  || Ascii.eqb c "-" || Ascii.eqb c "." || Ascii.eqb c "_" || Ascii.eqb c "~".

(** A host that the host parser leaves as it is: labels of lower-case
    letters with single dots between them. *)
Fixpoint host_labels (label_start : bool) (s : string) : bool :=
  match s with
  | EmptyString => negb label_start
  | String c rest =>
      if lower_alpha c then host_labels false rest
      else Ascii.eqb c "." && negb label_start && host_labels true rest
  end.

Definition plain_host (host : string) : bool := host_labels true host.

Definition plain_path (path : string) : bool :=
  forallb (fun c => unreserved c || Ascii.eqb c "/") (list_ascii_of_string path).

(** The scheme state, for the two schemes of a [fetch]: the scheme and what
    follows its colon. *)
Definition special_scheme (s : string) : option (string * string) :=
  match s with
  | String "h" (String "t" (String "t" (String "p" (String ":" rest)))) =>
      Some ("http", rest)
  | String "h" (String "t" (String "t" (String "p" (String "s" (String ":" rest))))) =>
      Some ("https", rest)
  | _ => None
  end.

(** After the colon of [http] or [https] the slashes are skipped, however
    many there are. *)
Fixpoint skip_slashes (s : string) : string :=
  match s with
  | EmptyString => EmptyString
  | String c rest => if Ascii.eqb c "/" then skip_slashes rest else s
  end.

(** The authority goes up to the first slash: the host, and the rest. *)
Fixpoint authority (s : string) : string * string :=
  match s with
  | EmptyString => (EmptyString, EmptyString)
  | String c rest =>
      if Ascii.eqb c "/" then (EmptyString, s)
      else let '(host, path) := authority rest in (String c host, path)
  end.

(** The path state at the end of one segment; [path] holds the segments so
    far, the last one first, and [at_end] says that the segment ends with
    the input rather than with a slash.  A [..] removes the last segment, if
    there is one; a [..] or a [.] at the end leaves an empty segment. *)
Definition path_segment (at_end : bool) (path : list string) (seg : string)
    : list string :=
  if decide (seg = "..") then
    (if at_end then "" :: tail path else tail path)
  else if decide (seg = ".") then
    (if at_end then "" :: path else path)
  else seg :: path.

Fixpoint path_state (path : list string) (segs : list string) : list string :=
  match segs with
  | [] => path
  | [seg] => path_segment true path seg
  | seg :: rest => path_state (path_segment false path seg) rest
  end.

(** [new URL(s).href] *)
Definition href (s : string) : option string :=
  match special_scheme s with
  | None => None
  | Some (sch, rest) =>
      let '(host, path) := authority (skip_slashes rest) in
      if plain_host host && plain_path path then
        let segs := Path.split (match path with
                                | String _ p => p
                                | EmptyString => EmptyString
                                end) in
        Some (sch +:+ "://" +:+ host +:+ "/"
                +:+ Path.unsplit (rev (path_state [] segs)))
      else None
  end.

End URL.

(** ** Data model *)

(** Parsed JSON, as the HTTP client hands it over.  A number keeps its
    lexeme. *)
Inductive json : Type :=
  | JNull
  | JBool (b : bool)
  | JNum (lexeme : string)
  | JStr (s : string)
  | JArr (items : list json)
  | JObj (fields : list (string * json)).

(** A JavaScript value that may be [undefined] ([None]). *)
Abbreviation jsval := (option json).

(** The own property [k] of an object read from JSON; a repeated key keeps
    its last value. *)
Fixpoint own_property (k : string) (fields : list (string * json)) : jsval :=
  match fields with
  | [] => None
  | (k', v) :: rest =>
      match own_property k rest with
      | Some v' => Some v'
      | None => if decide (k = k') then Some v else None
      end
  end.

(** [v.k] for the keys used here ([image], [attributes], [trait_type],
    [value]), none of which a primitive or an array carries: a thrown
    [TypeError] on [null], the own property on an object, [undefined]
    otherwise. *)
Definition get_prop (v : json) (k : string) : exn + jsval :=
  match v with
  | JNull => inl (TypeError ("Cannot read properties of null (reading '" +:+ k +:+ "')"))
  | JObj fields => inr (own_property k fields)
  | _ => inr None
  end.

(** Locations of the entity heap. *)
Abbreviation loc := nat.

(** Modelled from the spec: the entity classes of [./model], which are not
    among the sources.  An [Owner] has its address as id and nothing else. *)
Record Owner := { owner_id : string }.

(** Modelled from the spec: an [Attribute] is a value owned by a token, a
    trait type and a value, each holding whatever [main.ts] has read from
    the document. *)
Record Attribute := { traitType : jsval; value : jsval }.

(** Modelled from the spec: a [Token] is keyed by the string form of its
    index; its owner is a reference to an [Owner], and URI, image and
    attributes are optional. *)
Record Token := {
  tok_id : string;
  tok_index : Z;
  tok_owner : option loc;
  tok_uri : option string;
  tok_image : jsval;
  tok_attributes : option (list Attribute);
}.

(** Modelled from the spec: a [Transfer] refers to its two [Owner]s and its
    [Token]. *)
Record Transfer := {
  tr_id : string;
  tr_blockNumber : Z;
  tr_timestamp : Z;
  tr_txHash : string;
  tr_from : loc;
  tr_to : loc;
  tr_token : loc;
}.

Record BlockHeader := { height : Z; timestamp : Z }.
Record Transaction := { hash : string }.

Record TransferEvent := {
  ev_id : string;
  ev_block : BlockHeader;
  ev_transaction : Transaction;
  ev_from : string;
  ev_to : string;
  ev_tokenIndex : Z;
}.

(** [tokenIndex.toString()] *)
Definition tokenId (transferData : TransferEvent) : string :=
  pretty (ev_tokenIndex transferData).

(** The entity objects of one batch: [Owner]s and [Token]s live in a heap
    and are referred to by location, so that a [Transfer], a map entry and
    [newTokens] can hold the same object. *)
Record Heap := { owners_h : list Owner; tokens_h : list Token }.

Definition alloc_owner (h : Heap) (o : Owner) : Heap * loc :=
  ({| owners_h := owners_h h ++ [o]; tokens_h := tokens_h h |},
   length (owners_h h)).

Definition alloc_token (h : Heap) (t : Token) : Heap * loc :=
  ({| owners_h := owners_h h; tokens_h := tokens_h h ++ [t] |},
   length (tokens_h h)).

Definition update_token (h : Heap) (l : loc) (f : Token -> Token) : Heap :=
  {| owners_h := owners_h h; tokens_h := alter f l (tokens_h h) |}.

(** ** The storage collaborator

    Tables of rows keyed by [id]; a row refers to other entities by id.
    [findBy(E, {id: In(ids)})] answers the rows whose id is listed (their
    relations are not loaded), [upsert] replaces the row of the same id or
    adds one. *)
Record TokenRow := {
  row_id : string;
  row_index : Z;
  row_owner : option string;
  row_uri : option string;
  row_image : jsval;
  row_attributes : option (list Attribute);
}.

Record TransferRow := {
  trow_id : string;
  trow_blockNumber : Z;
  trow_timestamp : Z;
  trow_txHash : string;
  trow_from : option string;
  trow_to : option string;
  trow_token : option string;
}.

Record Store := {
  owner_table : list Owner;
  token_table : list TokenRow;
  transfer_table : list TransferRow;
}.

Definition findBy_In {R} (key : R -> string) (table : list R)
    (ids : list string) : list R :=
  filter (fun r => key r ∈ ids) table.

Fixpoint upsert_row {R} (key : R -> string) (r : R) (table : list R) : list R :=
  match table with
  | [] => [r]
  | r' :: table' =>
      if decide (key r = key r') then r :: table'
      else r' :: upsert_row key r table'
  end.

Definition upsert {R} (key : R -> string) (rows : list R) (table : list R) : list R :=
  fold_left (fun tbl r => upsert_row key r tbl) rows table.

Definition token_of_row (r : TokenRow) : Token :=
  {| tok_id := row_id r; tok_index := row_index r; tok_owner := None;
     tok_uri := row_uri r; tok_image := row_image r;
     tok_attributes := row_attributes r |}.

Definition row_of_token (h : Heap) (t : Token) : TokenRow :=
  {| row_id := tok_id t; row_index := tok_index t;
     row_owner := o ← tok_owner t; owner_id <$> owners_h h !! o;
     row_uri := tok_uri t; row_image := tok_image t;
     row_attributes := tok_attributes t |}.

Definition row_of_transfer (h : Heap) (t : Transfer) : TransferRow :=
  {| trow_id := tr_id t; trow_blockNumber := tr_blockNumber t;
     trow_timestamp := tr_timestamp t; trow_txHash := tr_txHash t;
     trow_from := owner_id <$> owners_h h !! tr_from t;
     trow_to := owner_id <$> owners_h h !! tr_to t;
     trow_token := tok_id <$> tokens_h h !! tr_token t |}.

(** ** Configuration and collaborators *)

(** The constants at the head of [main.ts]. *)
Record Config := {
  MUTLTICALL_BATCH_SIZE : Z;
  MAX_IPFS_REQ_SEC : Z;
  IPFS_GATEWAY : string;
}.

Definition main_config : Config :=
  {| MUTLTICALL_BATCH_SIZE := 50;
     MAX_IPFS_REQ_SEC := 25;
     IPFS_GATEWAY := "https://ipfs.io" |}.

(** What the handler reads of its [ctx]: the headers of the batch's
    blocks. *)
Record Context := { blocks : list BlockHeader }.

Record RpcReply := { rpc_latency : N; rpc_error : option exn }.
Record HttpReply := { latency : N; reply : exn + jsval }.

(** The world outside the process, on a clock that counts milliseconds:
    what [tokenURI(index)] decodes to at a block, how one aggregated
    [eth_call] issued at time [t] goes, and how a [GET] issued at time [t]
    goes. *)
Record Env := {
  tokenURI : BlockHeader -> Z -> string;
  eth_call : Z -> BlockHeader -> list Z -> RpcReply;
  http_get : Z -> string -> HttpReply;
}.

(** What the pipeline does to the outside, with the time of each action. *)
Inductive Event : Type :=
  | EthCall (t : Z) (calls : list Z)
  | HttpGet (t : Z) (url : string)
  | LogInfo (t : Z) (msg : string)
  | LogWarn (t : Z) (msg : string).

Definition event_time (e : Event) : Z :=
  match e with
  | EthCall t _ | HttpGet t _ | LogInfo t _ | LogWarn t _ => t
  end.

Definition http_url (e : Event) : option string :=
  match e with HttpGet _ url => Some url | _ => None end.

Definition eth_calls (e : Event) : option (list Z) :=
  match e with EthCall _ calls => Some calls | _ => None end.

(** The URLs fetched and the aggregated calls made, in order. *)
Definition fetched (events : list Event) : list string := omap http_url events.
Definition called (events : list Event) : list (list Z) := omap eth_calls events.

(** An asynchronous call, seen from its start: what it does, when it
    settles, and with what. *)
Record Promise (A : Type) := {
  p_events : list Event;
  settled_at : Z;
  settled : exn + A;
}.
Arguments p_events {A} _.
Arguments settled_at {A} _.
Arguments settled {A} _.

(** ** Entity resolution: the first part of [processTransfers] *)

Definition collect_ids (transfersData : list TransferEvent) : JSSet.t * JSSet.t :=
  fold_left
    (fun ids transferData =>
       (JSSet.add (tokenId transferData) ids.1,
        JSSet.add (ev_to transferData) (JSSet.add (ev_from transferData) ids.2)))
    transfersData ([], []).

Record Resolver := {
  r_heap : Heap;
  r_owners : JSMap.t loc;
  r_tokens : JSMap.t loc;
  r_newTokens : list loc;
  r_transfers : list Transfer;
}.

(** The two [findBy] queries and the [Map]s built from their answers; the
    entities found become the first objects of the heap. *)
Definition load (store : Store) (transfersData : list TransferEvent) : Resolver :=
  let ids := collect_ids transfersData in
  let found_tokens := token_of_row <$> findBy_In row_id (token_table store) ids.1 in
  let found_owners := findBy_In owner_id (owner_table store) ids.2 in
  {| r_heap := {| owners_h := found_owners; tokens_h := found_tokens |};
     r_owners := JSMap.of_entries (imap (fun l o => (owner_id o, l)) found_owners);
     r_tokens := JSMap.of_entries (imap (fun l t => (tok_id t, l)) found_tokens);
     r_newTokens := [];
     r_transfers := [] |}.

(** [owners.get(id)], or a new [Owner] put into the map. *)
Definition owner_for (h : Heap) (owners : JSMap.t loc) (id : string)
    : Heap * JSMap.t loc * loc :=
  match JSMap.get id owners with
  | Some o => (h, owners, o)
  | None =>
      let '(h', o) := alloc_owner h {| owner_id := id |} in
      (h', JSMap.set id o owners, o)
  end.

Definition set_owner (o : loc) (t : Token) : Token :=
  {| tok_id := tok_id t; tok_index := tok_index t; tok_owner := Some o;
     tok_uri := tok_uri t; tok_image := tok_image t;
     tok_attributes := tok_attributes t |}.

(** [tokens.get(tokenId)], or a new [Token] put into the map and pushed
    onto [newTokens]. *)
Definition token_for (h : Heap) (tokens : JSMap.t loc) (newTokens : list loc)
    (tokenId : string) (index : Z) : Heap * JSMap.t loc * list loc * loc :=
  match JSMap.get tokenId tokens with
  | Some token => (h, tokens, newTokens, token)
  | None =>
      let '(h', token) :=
        alloc_token h
          {| tok_id := tokenId; tok_index := index; tok_owner := None;
             tok_uri := None; tok_image := None; tok_attributes := None |} in
      (h', JSMap.set tokenId token tokens, newTokens ++ [token], token)
  end.

(** The body of the loop over [transfersData]. *)
Definition resolve_transfer (st : Resolver) (transferData : TransferEvent) : Resolver :=
  let '(h1, owners1, from) := owner_for (r_heap st) (r_owners st) (ev_from transferData) in
  let '(h2, owners2, to) := owner_for h1 owners1 (ev_to transferData) in
  let '(h3, tokens3, newTokens3, token) :=
    token_for h2 (r_tokens st) (r_newTokens st) (tokenId transferData)
      (ev_tokenIndex transferData) in
  let h4 := update_token h3 token (set_owner to) in
  let transfer :=
    {| tr_id := ev_id transferData;
       tr_blockNumber := height (ev_block transferData);
       tr_timestamp := timestamp (ev_block transferData);
       tr_txHash := hash (ev_transaction transferData);
       tr_from := from; tr_to := to; tr_token := token |} in
  {| r_heap := h4; r_owners := owners2; r_tokens := tokens3;
     r_newTokens := newTokens3; r_transfers := r_transfers st ++ [transfer] |}.

Definition resolve (store : Store) (transfersData : list TransferEvent) : Resolver :=
  fold_left resolve_transfer transfersData (load store transfersData).

(** ** Call aggregation *)

(** Modelled from the spec: the chunking of [Multicall.aggregate],
    consecutive pages of [page] elements, the last one possibly shorter. *)
Fixpoint pages {A} (fuel : nat) (page : nat) (l : list A) : list (list A) :=
  match fuel, l with
  | _, [] => []
  | O, _ :: _ => []
  | S fuel', _ :: _ => take page l :: pages fuel' page (drop page l)
  end.

(** Modelled from the spec: one aggregated call per chunk, one after the
    other, the decoded results in input order; the first chunk that fails
    fails the operation. *)
Fixpoint aggregate_pages (env : Env) (t : Z) (block : BlockHeader)
    (chunks : list (list Z)) : Promise (list string) :=
  match chunks with
  | [] => {| p_events := []; settled_at := t; settled := inr [] |}
  | chunk :: rest =>
      let r := eth_call env t block chunk in
      let t' := t + Z.of_N (rpc_latency r) in
      match rpc_error r with
      | Some e => {| p_events := [EthCall t chunk]; settled_at := t'; settled := inl e |}
      | None =>
          let p := aggregate_pages env t' block rest in
          {| p_events := EthCall t chunk :: p_events p;
             settled_at := settled_at p;
             settled :=
               match settled p with
               | inl e => inl e
               | inr results => inr ((tokenURI env block <$> chunk) ++ results)
               end |}
      end
  end.

(** Modelled from the spec: [Multicall.aggregate] of [abi/multicall.ts],
    which is not among the sources.  The argument tuples are cut into
    consecutive chunks of at most [maxBatchSize], one aggregated call is
    issued per chunk, and the decoded results are concatenated in input
    order; a chunk that fails fails the whole operation.  The spec asks for
    [maxBatchSize >= 1] and leaves smaller sizes open; they are taken as
    1. *)
Definition aggregate (env : Env) (t : Z) (block : BlockHeader) (calls : list Z)
    (maxBatchSize : Z) : Promise (list string) :=
  aggregate_pages env t block
    (pages (length calls) (Z.to_nat (Z.max 1 maxBatchSize)) calls).

(** ** Metadata fetching *)

Definition string_drop (n : nat) (s : string) : string :=
  String.substring n (String.length s - n) s.

Definition line_terminator (c : ascii) : bool :=
  Ascii.eqb c "010"%char || Ascii.eqb c "013"%char.

(** [ipfsRegExp.exec(uri)], the first group of [/^ipfs:\/\/(.+)$/] or
    [null]: the dot matches no line terminator and, without the [m] flag,
    the dollar matches at the end of the input only. *)
Definition ipfsRegExp_exec (uri : string) : option string :=
  if startsWith uri "ipfs://" then
    let m := string_drop 7 uri in
    if negb (String.eqb m "")
       && forallb (fun c => negb (line_terminator c)) (list_ascii_of_string m)
    then Some m else None
  else None.

(** The error thrown from the [catch] of [fetchTokenMetadata]. *)
Definition fetch_failure (uri : string) (e : exn) : exn :=
  Error ("failed to fetch metadata at " +:+ uri +:+ ". Error: " +:+ exn_to_string e).

(** [client.get(url)] issued at [t], within the [try] of
    [fetchTokenMetadata ctx uri]. *)
Definition get_and_log (env : Env) (t : Z) (uri url : string) : Promise jsval :=
  let r := http_get env t url in
  let t' := t + Z.of_N (latency r) in
  match reply r with
  | inr res =>
      {| p_events := [HttpGet t url;
                      LogInfo t' ("Successfully fetched metadata from " +:+ url)];
         settled_at := t'; settled := inr res |}
  | inl e =>
      {| p_events := [HttpGet t url]; settled_at := t';
         settled := inl (fetch_failure uri e) |}
  end.

(** [fetchTokenMetadata(ctx, uri)] called at time [t]. *)
Definition fetchTokenMetadata (env : Env) (cfg : Config) (t : Z) (uri : string)
    : Promise jsval :=
  if startsWith uri "ipfs://" then
    match ipfsRegExp_exec uri with
    | Some m =>
        let gatewayURL := Path.join [IPFS_GATEWAY cfg; m] in
        get_and_log env t uri gatewayURL
    | None =>
        {| p_events := []; settled_at := t;
           settled := inl (fetch_failure uri
             (TypeError "Cannot read properties of null (reading '1')")) |}
    end
  else if startsWith uri "http://" || startsWith uri "https://" then
    get_and_log env t uri uri
  else
    {| p_events := [LogWarn t ("Unexpected metadata URL protocol: " +:+ uri)];
       settled_at := t; settled := inr None |}.

(** [Math.ceil(a / b)] for integers [a] and [b <> 0] below [2^53], where the
    floating-point quotient has the ceiling of the exact one.  For [b = 0]
    JavaScript has an infinity, for which the timer waits 1 ms as it does
    for the 0 that comes out here. *)
Definition ceil_div (a b : Z) : Z := - ((- a) / b).

(** The argument of [sleep] for the item at [index] of a group. *)
Definition stagger (cfg : Config) (index : nat) : Z :=
  ceil_div (1000 * (Z.of_nat index + 1)) (MAX_IPFS_REQ_SEC cfg).

(** The delay [setTimeout] really waits: one millisecond when asked for less
    than 1 or for more than [2^31 - 1]. *)
Definition setTimeout_delay (ms : Z) : Z :=
  if (ms <? 1) || (2147483647 <? ms) then 1 else ms.

(** One element of [batch.map(...)]: a sleep, then the fetch. *)
Record Item := {
  it_uri : string;
  it_start : Z;
  it_promise : Promise jsval;
}.

Definition make_item (env : Env) (cfg : Config) (t0 : Z) (index : nat)
    (uri : string) : Item :=
  let start := t0 + setTimeout_delay (stagger cfg index) in
  {| it_uri := uri; it_start := start;
     it_promise := fetchTokenMetadata env cfg start uri |}.

(** The earliest rejection among promises, the first of them in the list
    when several settle in the same millisecond. *)
Fixpoint first_rejection {A} (ps : list (Promise A)) : option (Z * exn) :=
  match ps with
  | [] => None
  | p :: rest =>
      match settled p, first_rejection rest with
      | inl e, Some (t', e') =>
          if settled_at p <=? t' then Some (settled_at p, e) else Some (t', e')
      | inl e, None => Some (settled_at p, e)
      | inr _, r => r
      end
  end.

Definition fulfilled_values {A} (ps : list (Promise A)) : list A :=
  omap (fun p => match settled p with inr v => Some v | inl _ => None end) ps.

(** [Promise.all(ps)] awaited from time [t0]: the values in order once the
    last promise is fulfilled, or the earliest rejection as soon as it
    happens.  The events are those up to the moment the join settles: what
    the promises still pending at a rejection do later is not part of the
    run that the rejection ends. *)
Definition promise_all {A} (t0 : Z) (ps : list (Promise A)) : Promise (list A) :=
  match first_rejection ps with
  | Some (t, e) =>
      {| p_events := filter (fun ev => event_time ev <= t) (ps ≫= p_events);
         settled_at := t; settled := inl e |}
  | None =>
      {| p_events := ps ≫= p_events;
         settled_at := foldr (fun p t => Z.max (settled_at p) t) t0 ps;
         settled := inr (fulfilled_values ps) |}
  end.

(** One rate-limit group: the items made from a batch at [g_start] and
    their join. *)
Record Group := {
  g_start : Z;
  g_items : list Item;
  g_join : Promise (list jsval);
}.

Definition run_group (env : Env) (cfg : Config) (t0 : Z) (batch : list string) : Group :=
  let items := imap (make_item env cfg t0) batch in
  {| g_start := t0; g_items := items;
     g_join := promise_all t0 (it_promise <$> items) |}.

(** The loop over the batches, each group awaited before the next one is
    made; a rejected join leaves the loop. *)
Fixpoint fetch_groups (env : Env) (cfg : Config) (t : Z)
    (batches : list (list string)) : list Group * Promise (list jsval) :=
  match batches with
  | [] => ([], {| p_events := []; settled_at := t; settled := inr [] |})
  | batch :: rest =>
      let g := run_group env cfg t batch in
      match settled (g_join g) with
      | inl e => ([g], g_join g)
      | inr m =>
          let '(gs, p) := fetch_groups env cfg (settled_at (g_join g)) rest in
          (g :: gs,
           {| p_events := p_events (g_join g) ++ p_events p;
              settled_at := settled_at p;
              settled := match settled p with
                         | inl e => inl e
                         | inr ms => inr (m ++ ms)
                         end |})
      end
  end.

(** The loop that fills [metadatas]: the batches that [splitIntoBatches]
    yields, one group after the other, and whether the generator has
    returned.  Running it for [length tokenURIs] rounds shows every batch
    that has an item: with a batch size below 1 the generator never returns
    and only its first batch can be non-empty. *)
Definition fetch_all (env : Env) (cfg : Config) (t : Z) (tokenURIs : list string)
    : list Group * Promise (list jsval) * bool :=
  let '(batches, returned) :=
    splitIntoBatches (length tokenURIs) tokenURIs (MAX_IPFS_REQ_SEC cfg) in
  (fetch_groups env cfg t batches, returned).

(** [metadatas[i]?.image] *)
Definition optional_image (metadata : jsval) : exn + jsval :=
  match metadata with
  | None | Some JNull => inr None
  | Some v => get_prop v "image"
  end.

(** [new Attribute({traitType: a.trait_type, value: a.value})] *)
Definition to_attribute (a : json) : exn + Attribute :=
  match get_prop a "trait_type" with
  | inl e => inl e
  | inr ty =>
      match get_prop a "value" with
      | inl e => inl e
      | inr v => inr {| traitType := ty; value := v |}
      end
  end.

Fixpoint map_attributes (items : list json) : exn + list Attribute :=
  match items with
  | [] => inr []
  | a :: rest =>
      match to_attribute a with
      | inl e => inl e
      | inr x =>
          match map_attributes rest with
          | inl e => inl e
          | inr xs => inr (x :: xs)
          end
      end
  end.

(** [metadatas[i]?.attributes.map(...)]: the optional chain stops at an
    absent document only; [.map] is then called on whatever [attributes]
    is. *)
Definition optional_attributes (metadata : jsval) : exn + option (list Attribute) :=
  match metadata with
  | None | Some JNull => inr None
  | Some v =>
      match get_prop v "attributes" with
      | inl e => inl e
      | inr (Some (JArr items)) =>
          match map_attributes items with
          | inl e => inl e
          | inr attrs => inr (Some attrs)
          end
      | inr None =>
          inl (TypeError "Cannot read properties of undefined (reading 'map')")
      | inr (Some JNull) =>
          inl (TypeError "Cannot read properties of null (reading 'map')")
      | inr (Some _) => inl (TypeError "metadatas[i]?.attributes.map is not a function")
      end
  end.

Definition set_uri (u : option string) (t : Token) : Token :=
  {| tok_id := tok_id t; tok_index := tok_index t; tok_owner := tok_owner t;
     tok_uri := u; tok_image := tok_image t; tok_attributes := tok_attributes t |}.

Definition set_image (img : jsval) (t : Token) : Token :=
  {| tok_id := tok_id t; tok_index := tok_index t; tok_owner := tok_owner t;
     tok_uri := tok_uri t; tok_image := img; tok_attributes := tok_attributes t |}.

Definition set_attributes (a : option (list Attribute)) (t : Token) : Token :=
  {| tok_id := tok_id t; tok_index := tok_index t; tok_owner := tok_owner t;
     tok_uri := tok_uri t; tok_image := tok_image t; tok_attributes := a |}.

(** The body of the last loop of [initTokens], for [tokens[i]] at [token]:
    the three assignments in order, the heap as the first thrown error
    leaves it. *)
Definition merge_token (tokenURIs : list string) (metadatas : list jsval)
    (h : Heap) (i : nat) (token : loc) : Heap * option exn :=
  let metadata := mjoin (metadatas !! i) in
  let h1 := update_token h token (set_uri (tokenURIs !! i)) in
  match optional_image metadata with
  | inl e => (h1, Some e)
  | inr img =>
      let h2 := update_token h1 token (set_image img) in
      match optional_attributes metadata with
      | inl e => (h2, Some e)
      | inr attrs => (update_token h2 token (set_attributes attrs), None)
      end
  end.

Fixpoint merge_from (tokenURIs : list string) (metadatas : list jsval)
    (h : Heap) (i : nat) (tokens : list loc) : Heap * option exn :=
  match tokens with
  | [] => (h, None)
  | token :: rest =>
      match merge_token tokenURIs metadatas h i token with
      | (h', Some e) => (h', Some e)
      | (h', None) => merge_from tokenURIs metadatas h' (S i) rest
      end
  end.

(** [t.index] of the token object at [l]. *)
Definition index_at (h : Heap) (l : loc) : Z :=
  from_option tok_index 0 (tokens_h h !! l).

(** What a run of [initTokens] leaves behind. *)
Record InitRun := {
  ir_heap : Heap;
  ir_events : list Event;
  ir_end : Z;
  ir_tokenURIs : list string;
  ir_groups : list Group;
  ir_outcome : outcome unit;
}.

(** [initTokens(ctx, tokens)] called at time [now] on the heap [h]. *)
Definition initTokens (env : Env) (cfg : Config) (ctx : Context) (now : Z)
    (h : Heap) (tokens : list loc) : InitRun :=
  match last (blocks ctx) with
  | None =>
      {| ir_heap := h; ir_events := []; ir_end := now; ir_tokenURIs := [];
         ir_groups := [];
         ir_outcome := Raised
           (TypeError "Cannot read properties of undefined (reading 'header')") |}
  | Some block =>
      let agg := aggregate env now block (index_at h <$> tokens)
                   (MUTLTICALL_BATCH_SIZE cfg) in
      match settled agg with
      | inl e =>
          {| ir_heap := h; ir_events := p_events agg; ir_end := settled_at agg;
             ir_tokenURIs := []; ir_groups := []; ir_outcome := Raised e |}
      | inr tokenURIs =>
          let '(groups, p, returned) := fetch_all env cfg (settled_at agg) tokenURIs in
          match settled p with
          | inl e =>
              {| ir_heap := h; ir_events := p_events agg ++ p_events p;
                 ir_end := settled_at p; ir_tokenURIs := tokenURIs;
                 ir_groups := groups; ir_outcome := Raised e |}
          | inr metadatas =>
              if returned then
                let '(h', err) := merge_from tokenURIs metadatas h 0 tokens in
                {| ir_heap := h'; ir_events := p_events agg ++ p_events p;
                   ir_end := settled_at p; ir_tokenURIs := tokenURIs;
                   ir_groups := groups;
                   ir_outcome := match err with
                                 | Some e => Raised e
                                 | None => Returned tt
                                 end |}
              else
                {| ir_heap := h; ir_events := p_events agg ++ p_events p;
                   ir_end := settled_at p; ir_tokenURIs := tokenURIs;
                   ir_groups := groups; ir_outcome := Diverged |}
          end
      end
  end.

(** ** [processTransfers] *)

Definition deref {A} (heap : list A) (ls : list loc) : list A :=
  omap (fun l => heap !! l) ls.

(** The three [upsert]s at the end. *)
Definition flush (st : Resolver) (h : Heap) (store : Store) : Store :=
  {| owner_table :=
       upsert owner_id (deref (owners_h h) (JSMap.values (r_owners st)))
         (owner_table store);
     token_table :=
       upsert row_id
         (row_of_token h <$> deref (tokens_h h) (JSMap.values (r_tokens st)))
         (token_table store);
     transfer_table :=
       upsert trow_id (row_of_transfer h <$> r_transfers st) (transfer_table store) |}.

Record Run := {
  run_resolved : Resolver;
  run_init : InitRun;
  run_store : Store;
  run_outcome : outcome unit;
}.

(** [processTransfers(ctx, transfersData)] called at time [now]; the store
    is written only when [initTokens] has returned. *)
Definition processTransfers (env : Env) (cfg : Config) (ctx : Context) (now : Z)
    (store : Store) (transfersData : list TransferEvent) : Run :=
  let st := resolve store transfersData in
  let ir := initTokens env cfg ctx now (r_heap st) (r_newTokens st) in
  {| run_resolved := st; run_init := ir;
     run_store := match ir_outcome ir with
                  | Returned _ => flush st (ir_heap ir) store
                  | _ => store
                  end;
     run_outcome := ir_outcome ir |}.

(** ** The batch handler and [getTransfer]

    Strings stand for JavaScript strings of code units below 256. *)

(** One code unit of [s.toLowerCase()]: the letters A to Z and the capital
    letters of Latin-1 (from À to Þ, the sign × excepted) move up by 32. *)
Definition lower_unit (c : ascii) : ascii :=
  let n := N_of_ascii c in
  if ((65 <=? n) && (n <=? 90)
      || (192 <=? n) && (n <=? 222) && negb (n =? 215))%N
  then ascii_of_N (n + 32) else c.

(** [s.toLowerCase()] *)
Fixpoint toLowerCase (s : string) : string :=
  match s with
  | EmptyString => EmptyString
  | String c rest => String (lower_unit c) (toLowerCase rest)
  end.

(** A log as the processor hands it over: [transaction] is there when the
    processor was asked for it and has found it. *)
Record Log := {
  log_id : string;
  log_topics : list string;
  log_data : string;
  log_block : BlockHeader;
  log_transaction : option Transaction;
}.

(** An item of [ctx.blocks]. *)
Record BlockData := { header : BlockHeader; logs : list Log }.

(** The [ctx] of the batch handler, with the logs of its blocks. *)
Record DataHandlerContext := { ctx_blocks : list BlockData }.

(** What [initTokens] reads of it. *)
Definition to_Context (ctx : DataHandlerContext) : Context :=
  {| blocks := header <$> ctx_blocks ctx |}.

(** The decoded arguments of a [Transfer] event. *)
Record TransferArgs := { arg_from : string; arg_to : string; arg_tokenId : Z }.

(** What [main.ts] uses of the generated [./abi/erc721], which is not among
    the sources: the topic of the [Transfer] event and its decoder, which
    may throw. *)
Record Erc721 := {
  Transfer_topic : string;
  Transfer_decode : Log -> exn + TransferArgs;
}.

(** [assertNotNull(val, msg)] of the processor library: the value, unless
    it is [null] or [undefined], which fails an assertion with [msg]. *)
Definition assertNotNull {A} (val : option A) (msg : string) : exn + A :=
  match val with
  | Some v => inr v
  | None => inl (Exn "AssertionError" msg)
  end.

(** A line of [ctx.log.debug], with its attached fields. *)
Record DebugLine := {
  dbg_block : BlockHeader;
  dbg_txHash : string;
  dbg_msg : string;
}.

(** [getTransfer(ctx, log)]: the event it returns and the line it logs on
    the way, or what it throws. *)
Definition getTransfer (abi : Erc721) (log : Log) : exn + DebugLine * TransferEvent :=
  match assertNotNull (log_transaction log) "Missing transaction" with
  | inl e => inl e
  | inr transaction =>
      match Transfer_decode abi log with
      | inl e => inl e
      | inr event =>
          let from := toLowerCase (arg_from event) in
          let to := toLowerCase (arg_to event) in
          let tokenIndex := arg_tokenId event in
          inr ({| dbg_block := log_block log; dbg_txHash := hash transaction;
                  dbg_msg := "Transfer from " +:+ from +:+ " to " +:+ to
                               +:+ " token " +:+ pretty tokenIndex |},
               {| ev_id := log_id log; ev_block := log_block log;
                  ev_transaction := transaction;
                  ev_from := from; ev_to := to; ev_tokenIndex := tokenIndex |})
      end
  end.

(** [log.topics[0] === erc721.events.Transfer.topic] *)
Definition is_Transfer (abi : Erc721) (log : Log) : bool :=
  bool_decide (head (log_topics log) = Some (Transfer_topic abi)).

(** What the two loops of the handler have gathered so far. *)
Record Collected := {
  c_debug : list DebugLine;
  c_transfersData : list TransferEvent;
}.

(** The body of the inner loop; a thrown error leaves the loops. *)
Definition collect_log (abi : Erc721) (c : Collected) (log : Log)
    : Collected * option exn :=
  if is_Transfer abi log then
    match getTransfer abi log with
    | inl e => (c, Some e)
    | inr (line, transfer) =>
        ({| c_debug := c_debug c ++ [line];
            c_transfersData := c_transfersData c ++ [transfer] |}, None)
    end
  else (c, None).

(** [for (let log of block.logs)] *)
Fixpoint collect_logs (abi : Erc721) (c : Collected) (logs : list Log)
    : Collected * option exn :=
  match logs with
  | [] => (c, None)
  | log :: rest =>
      match collect_log abi c log with
      | (c', Some e) => (c', Some e)
      | (c', None) => collect_logs abi c' rest
      end
  end.

(** [for (let block of ctx.blocks)] *)
Fixpoint collect_blocks (abi : Erc721) (c : Collected) (blocks : list BlockData)
    : Collected * option exn :=
  match blocks with
  | [] => (c, None)
  | block :: rest =>
      match collect_logs abi c (logs block) with
      | (c', Some e) => (c', Some e)
      | (c', None) => collect_blocks abi c' rest
      end
  end.

(** What a call of the handler leaves behind; [hr_run] is the call of
    [processTransfers], if it came to that. *)
Record HandlerRun := {
  hr_collected : Collected;
  hr_run : option Run;
  hr_store : Store;
  hr_outcome : outcome unit;
}.

(** The handler given to [processor.run], called at time [now]. *)
Definition batch_handler (abi : Erc721) (env : Env) (cfg : Config)
    (ctx : DataHandlerContext) (now : Z) (store : Store) : HandlerRun :=
  match collect_blocks abi {| c_debug := []; c_transfersData := [] |} (ctx_blocks ctx) with
  | (c, Some e) =>
      {| hr_collected := c; hr_run := None; hr_store := store;
         hr_outcome := Raised e |}
  | (c, None) =>
      let run := processTransfers env cfg (to_Context ctx) now store
                   (c_transfersData c) in
      {| hr_collected := c; hr_run := Some run; hr_store := run_store run;
         hr_outcome := run_outcome run |}
  end.

(** [sleep(ms)] called at time [t]: a promise that a timer fulfils. *)
Definition sleep (t ms : Z) : Promise unit :=
  {| p_events := []; settled_at := t + setTimeout_delay ms; settled := inr tt |}.

(** ** Store calls that are not fulfilled

    [ctx.store.findBy] and [ctx.store.upsert] are requests to a database:
    each of the five that [processTransfers] awaits may be fulfilled, be
    rejected, or never be answered. *)
Inductive Failure : Type :=
  | Rejects (e : exn)
  | NeverSettles.

Definition failure_outcome (f : Failure) : outcome unit :=
  match f with
  | Rejects e => Raised e
  | NeverSettles => Diverged
  end.

(** How the five store calls of a run go, in the order of the source:
    [None] for a call that is fulfilled.  An [upsert] that is not fulfilled
    may have written the first of its rows: their number comes with the
    failure. *)
Record StoreCalls := {
  findBy_Token : option Failure;
  findBy_Owner : option Failure;
  upsert_Owner : option (Failure * nat);
  upsert_Token : option (Failure * nat);
  upsert_Transfer : option (Failure * nat);
}.

(** A database that fulfils every call. *)
Definition fulfilled : StoreCalls :=
  {| findBy_Token := None; findBy_Owner := None; upsert_Owner := None;
     upsert_Token := None; upsert_Transfer := None |}.

(** The table after a call of [upsert]. *)
Definition upsert_call {R} (key : R -> string) (call : option (Failure * nat))
    (rows table : list R) : list R :=
  match call with
  | None => upsert key rows table
  | Some (_, written) => upsert key (take written rows) table
  end.

(** What a run of [processTransfers] leaves behind; [sr_init] is the call
    of [initTokens], if it came to that. *)
Record StoreRun := {
  sr_init : option InitRun;
  sr_store : Store;
  sr_outcome : outcome unit;
}.

(** [processTransfers(ctx, transfersData)] against a database whose calls
    go as [db] says: a call that is not fulfilled ends the run where it
    is awaited. *)
Definition processTransfers_on (db : StoreCalls) (env : Env) (cfg : Config)
    (ctx : Context) (now : Z) (store : Store)
    (transfersData : list TransferEvent) : StoreRun :=
  match findBy_Token db with
  | Some f => {| sr_init := None; sr_store := store; sr_outcome := failure_outcome f |}
  | None =>
  match findBy_Owner db with
  | Some f => {| sr_init := None; sr_store := store; sr_outcome := failure_outcome f |}
  | None =>
      let st := resolve store transfersData in
      let ir := initTokens env cfg ctx now (r_heap st) (r_newTokens st) in
      match ir_outcome ir with
      | Returned _ =>
          let h := ir_heap ir in
          let s1 :=
            {| owner_table :=
                 upsert_call owner_id (upsert_Owner db)
                   (deref (owners_h h) (JSMap.values (r_owners st)))
                   (owner_table store);
               token_table := token_table store;
               transfer_table := transfer_table store |} in
          match upsert_Owner db with
          | Some (f, _) =>
              {| sr_init := Some ir; sr_store := s1; sr_outcome := failure_outcome f |}
          | None =>
              let s2 :=
                {| owner_table := owner_table s1;
                   token_table :=
                     upsert_call row_id (upsert_Token db)
                       (row_of_token h <$> deref (tokens_h h) (JSMap.values (r_tokens st)))
                       (token_table store);
                   transfer_table := transfer_table store |} in
              match upsert_Token db with
              | Some (f, _) =>
                  {| sr_init := Some ir; sr_store := s2;
                     sr_outcome := failure_outcome f |}
              | None =>
                  {| sr_init := Some ir;
                     sr_store :=
                       {| owner_table := owner_table s2;
                          token_table := token_table s2;
                          transfer_table :=
                            upsert_call trow_id (upsert_Transfer db)
                              (row_of_transfer h <$> r_transfers st)
                              (transfer_table store) |};
                     sr_outcome := match upsert_Transfer db with
                                   | Some (f, _) => failure_outcome f
                                   | None => Returned tt
                                   end |}
              end
          end
      | o => {| sr_init := Some ir; sr_store := store; sr_outcome := o |}
      end
  end
  end.

(** What a call of the handler leaves behind, against such a database. *)
Record HandlerCall := {
  hc_collected : Collected;
  hc_run : option StoreRun;
  hc_store : Store;
  hc_outcome : outcome unit;
}.

Definition batch_handler_on (db : StoreCalls) (abi : Erc721) (env : Env)
    (cfg : Config) (ctx : DataHandlerContext) (now : Z) (store : Store)
    : HandlerCall :=
  match collect_blocks abi {| c_debug := []; c_transfersData := [] |} (ctx_blocks ctx) with
  | (c, Some e) =>
      {| hc_collected := c; hc_run := None; hc_store := store;
         hc_outcome := Raised e |}
  | (c, None) =>
      let run := processTransfers_on db env cfg (to_Context ctx) now store
                   (c_transfersData c) in
      {| hc_collected := c; hc_run := Some run; hc_store := sr_store run;
         hc_outcome := sr_outcome run |}
  end.

(** ** Scenarios

    The batch of the specification's scenario, with a third transfer: token
    7 goes from A to B and then from B to C, token 1 from A to C.  B is
    known to the store, the tokens are not.  On chain token 7 has an IPFS
    URI and token 1 an FTP one. *)
Module Scenario.

Definition block : BlockHeader := {| height := 12287507; timestamp := 1619060596000 |}.

Definition ctx : Context := {| blocks := [block] |}.

Definition transfer (id from to : string) (index : Z) : TransferEvent :=
  {| ev_id := id; ev_block := block; ev_transaction := {| hash := "0x5e" |};
     ev_from := from; ev_to := to; ev_tokenIndex := index |}.

Definition a_to_b : TransferEvent := transfer "0012287507-000001" "0xa" "0xb" 7.
Definition b_to_c : TransferEvent := transfer "0012287507-000002" "0xb" "0xc" 7.
Definition a_to_c : TransferEvent := transfer "0012287507-000003" "0xa" "0xc" 1.

Definition batch : list TransferEvent := [a_to_b; b_to_c; a_to_c].

Definition store : Store :=
  {| owner_table := [{| owner_id := "0xb" |}]; token_table := [];
     transfer_table := [] |}.

Definition uri_of (index : Z) : string :=
  if index =? 1 then "ftp://x" else "ipfs://Qm" +:+ pretty index.

Definition document : json :=
  JObj [("image", JStr "ipfs://QmImage");
        ("attributes",
         JArr [JObj [("trait_type", JStr "Fur"); ("value", JStr "Tan")]])].

Definition document_without_attributes : json :=
  JObj [("image", JStr "ipfs://QmImage")].

Definition document_without_image : json :=
  JObj [("attributes",
         JArr [JObj [("trait_type", JStr "Fur"); ("value", JStr "Tan")]])].

(** A world whose gateway answers every request with [r] after 30 ms. *)
Definition world (r : exn + jsval) : Env :=
  {| tokenURI := fun _ index => uri_of index;
     eth_call := fun _ _ _ => {| rpc_latency := 7; rpc_error := None |};
     http_get := fun _ _ => {| latency := 30; reply := r |} |}.

Definition gateway_up : Env := world (inr (Some document)).
Definition gateway_down : Env := world (inl (Exn "HttpError" "Got 503"))%string.
Definition gateway_partial : Env := world (inr (Some document_without_attributes)).

(** The gateway base of the specification's scenario. *)
Definition example_config : Config :=
  {| MUTLTICALL_BATCH_SIZE := 50; MAX_IPFS_REQ_SEC := 25;
     IPFS_GATEWAY := "https://gw.example/ipfs/" |}.

End Scenario.

(** ** Further scenarios *)
Module Cases.

(** A configuration whose rate ceiling is zero. *)
Definition no_rate : Config :=
  {| MUTLTICALL_BATCH_SIZE := 50; MAX_IPFS_REQ_SEC := 0;
     IPFS_GATEWAY := "https://ipfs.io" |}.

(** A contract whose tokens all have the URI [ipfs://], with no content
    path. *)
Definition bare_ipfs : Env :=
  {| tokenURI := fun _ _ => "ipfs://";
     eth_call := fun _ _ _ => {| rpc_latency := 7; rpc_error := None |};
     http_get := fun _ _ => {| latency := 30; reply := inr (Some Scenario.document) |} |}.

(** A node that fails every call. *)
Definition node_down : Env :=
  {| tokenURI := fun _ index => Scenario.uri_of index;
     eth_call := fun _ _ _ =>
       {| rpc_latency := 7;
          rpc_error := Some (Exn "RpcError" "execution reverted") |};
     http_get := fun _ _ => {| latency := 30; reply := inr (Some Scenario.document) |} |}.

(** A store that knows token 7 already, with its metadata, in the hands of
    A. *)
Definition store_with_7 : Store :=
  {| owner_table := [{| owner_id := "0xa" |}];
     token_table :=
       [{| row_id := "7"; row_index := 7; row_owner := Some "0xa";
           row_uri := Some "ipfs://Qm7"; row_image := Some (JStr "ipfs://QmImage");
           row_attributes := Some [] |}];
     transfer_table := [] |}.

(** The topic of [Transfer(address,address,uint256)]. *)
Definition transfer_topic : string :=
  "0xddf252ad1be2c89b69c2b068fc378daa952ba7f163c4a11628f55a4df523b3ef".

(** A decoder for logs that carry the two addresses and the token in their
    topics, as written. *)
Definition abi : Erc721 :=
  {| Transfer_topic := transfer_topic;
     Transfer_decode := fun log =>
       match log_topics log with
       | [_; from; to; index] =>
           inr {| arg_from := from; arg_to := to;
                  arg_tokenId := if String.eqb index "0x07" then 7 else 1 |}
       | _ => inl (Error "unexpected number of topics")
       end |}.

Definition log (id : string) (topics : list string) (tx : option Transaction) : Log :=
  {| log_id := id; log_topics := topics; log_data := "0x";
     log_block := Scenario.block; log_transaction := tx |}.

Definition tx : option Transaction := Some {| hash := "0x5e" |}.

Definition approval : Log :=
  log "0012287507-000000" ["0x8c5be1e5"; "0xA"; "0xB"; "0x07"] tx.
Definition a_to_b : Log :=
  log "0012287507-000001" [transfer_topic; "0xA"; "0xB"; "0x07"] tx.
Definition b_to_c : Log :=
  log "0012287507-000002" [transfer_topic; "0xb"; "0xC"; "0x07"] tx.
Definition a_to_c : Log :=
  log "0012287507-000003" [transfer_topic; "0xa"; "0xc"; "0x01"] tx.
Definition orphan : Log :=
  log "0012287507-000004" [transfer_topic; "0xa"; "0xc"; "0x01"] None.

Definition block_of (logs : list Log) : BlockData :=
  {| header := Scenario.block; logs := logs |}.

(** The batch of [Scenario.batch] as logs in two blocks, with addresses in
    mixed case and an approval among them. *)
Definition ctx : DataHandlerContext :=
  {| ctx_blocks := [block_of [approval; a_to_b]; block_of [b_to_c; a_to_c]] |}.

(** The same with a transfer that has come without its transaction. *)
Definition ctx_orphan : DataHandlerContext :=
  {| ctx_blocks := [block_of [approval; a_to_b]; block_of [orphan; a_to_c]] |}.

(** A batch with no transfer in it. *)
Definition ctx_quiet : DataHandlerContext :=
  {| ctx_blocks := [block_of [approval]; block_of []] |}.

(** Tokens 7 and 8 change hands in one batch; both have an IPFS URI on
    chain. *)
Definition two_tokens : list TransferEvent :=
  [Scenario.a_to_b; Scenario.transfer "0012287507-000005" "0xa" "0xc" 8].

(** A database that fulfils the two queries and rejects the first
    [upsert]. *)
Definition read_only : StoreCalls :=
  {| findBy_Token := None; findBy_Owner := None;
     upsert_Owner := Some (Rejects (Exn "QueryFailedError" "read-only transaction"), 0%nat);
     upsert_Token := None; upsert_Transfer := None |}.

End Cases.

(** ** Specification predicates *)

(** [chunks] cuts [rest] into consecutive pieces of at most [m] elements,
    all of them full but possibly the last, which is empty only when [rest]
    is. *)
Definition chunks_ok {T} (m : Z) (rest : list T) (chunks : list (list T)) : Prop :=
  concat chunks = rest
  /\ Forall (fun c => Z.of_nat (length c) <= m) chunks
  /\ (forall i c, chunks !! i = Some c -> (S i < length chunks)%nat ->
        Z.of_nat (length c) = m)
  /\ (forall c, last chunks = Some c -> rest <> [] -> c <> []).

(** The last transfer of the list that is about the token [tid]. *)
Definition last_transfer_of (tid : string) (transfersData : list TransferEvent)
    : option TransferEvent :=
  last (filter (fun transferData => tokenId transferData = tid) transfersData).

(** Every entry of the owner map leads to an [Owner] object of that id. *)
Definition owners_ok (h : Heap) (owners : JSMap.t loc) : Prop :=
  forall k o, JSMap.get k owners = Some o ->
    owners_h h !! o = Some {| owner_id := k |}.

(** Every entry of the token map leads to a [Token] object of that id. *)
Definition tokens_ok (h : Heap) (tokens : JSMap.t loc) : Prop :=
  forall k l, JSMap.get k tokens = Some l ->
    exists tok, tokens_h h !! l = Some tok /\ tok_id tok = k.

(** A token object as [new Token({id, index})] leaves it, up to its owner. *)
Definition unenriched (tok : Token) : Prop :=
  tok_id tok = pretty (tok_index tok)
  /\ tok_uri tok = None /\ tok_image tok = None /\ tok_attributes tok = None.

(** The state of the resolver loop is well formed; [n0] is the number of
    token objects that came from the store, so that the locations from [n0]
    on are the tokens constructed during the batch. *)
Record resolver_wf (n0 : nat) (st : Resolver) : Prop := {
  wf_owners : owners_ok (r_heap st) (r_owners st);
  wf_tokens : tokens_ok (r_heap st) (r_tokens st);
  wf_owner_keys : NoDup (JSMap.keys (r_owners st));
  wf_token_keys : NoDup (JSMap.keys (r_tokens st));
  wf_new_NoDup : NoDup (r_newTokens st);
  wf_new_range : forall l,
    l ∈ r_newTokens st <-> (n0 <= l < length (tokens_h (r_heap st)))%nat;
  wf_new_obj : forall l tok,
    (n0 <= l)%nat -> tokens_h (r_heap st) !! l = Some tok ->
    JSMap.get (tok_id tok) (r_tokens st) = Some l /\ unenriched tok;
  wf_n0 : (n0 <= length (tokens_h (r_heap st)))%nat;
}.

(** In [st] the token [tid] is owned by the [Owner] object that the owner
    map holds for the recipient of [transferData]. *)
Definition owner_resolved (st : Resolver) (tid : string)
    (transferData : TransferEvent) : Prop :=
  exists token tok o,
    JSMap.get tid (r_tokens st) = Some token
    /\ tokens_h (r_heap st) !! token = Some tok
    /\ tok_id tok = tid
    /\ tok_owner tok = Some o
    /\ JSMap.get (ev_to transferData) (r_owners st) = Some o
    /\ owners_h (r_heap st) !! o = Some {| owner_id := ev_to transferData |}.

(** The [Transfer] made for [transferData] refers to the very objects the
    maps of [st] hold for its two addresses and its token. *)
Definition transfer_resolved (st : Resolver) (transferData : TransferEvent)
    (transfer : Transfer) : Prop :=
  JSMap.get (ev_from transferData) (r_owners st) = Some (tr_from transfer)
  /\ JSMap.get (ev_to transferData) (r_owners st) = Some (tr_to transfer)
  /\ JSMap.get (tokenId transferData) (r_tokens st) = Some (tr_token transfer).

(** What the last loop of [initTokens] makes of the token object at
    position [i], and the error it stops with there, if any. *)
Definition merge_fields (tokenURIs : list string) (metadatas : list jsval)
    (i : nat) (tok : Token) : Token :=
  let metadata := mjoin (metadatas !! i) in
  let t1 := set_uri (tokenURIs !! i) tok in
  match optional_image metadata with
  | inl _ => t1
  | inr img =>
      let t2 := set_image img t1 in
      match optional_attributes metadata with
      | inl _ => t2
      | inr attrs => set_attributes attrs t2
      end
  end.

Definition merge_error (metadatas : list jsval) (i : nat) : option exn :=
  let metadata := mjoin (metadatas !! i) in
  match optional_image metadata with
  | inl e => Some e
  | inr _ =>
      match optional_attributes metadata with
      | inl e => Some e
      | inr _ => None
      end
  end.

(** [v] is what some call of [fetchTokenMetadata] on [uri] is fulfilled
    with. *)
Definition fetched_as (env : Env) (cfg : Config) (uri : string) (v : jsval) : Prop :=
  exists t, settled (fetchTokenMetadata env cfg t uri) = inr v.

(** The URL that [fetchTokenMetadata] hands to the HTTP client for [uri], if
    it gets as far as a request. *)
Definition request_url (cfg : Config) (uri : string) : option string :=
  if startsWith uri "ipfs://" then
    (fun m => Path.join [IPFS_GATEWAY cfg; m]) <$> ipfsRegExp_exec uri
  else if startsWith uri "http://" || startsWith uri "https://" then Some uri
  else None.

(** The resolver's state with the heap as [initTokens] has left it: what
    the three [upsert]s read. *)
Definition enriched (run : Run) : Resolver :=
  {| r_heap := ir_heap (run_init run);
     r_owners := r_owners (run_resolved run);
     r_tokens := r_tokens (run_resolved run);
     r_newTokens := r_newTokens (run_resolved run);
     r_transfers := r_transfers (run_resolved run) |}.

(** The logs of a batch that the handler takes for transfers, in order. *)
Definition transfer_logs (abi : Erc721) (ctx : DataHandlerContext) : list Log :=
  filter (fun log => is_Transfer abi log) (ctx_blocks ctx ≫= logs).

(** [transferData] is made of [log] and of what the decoder reads in it. *)
Definition transfer_of_log (abi : Erc721) (log : Log)
    (transferData : TransferEvent) : Prop :=
  ev_id transferData = log_id log
  /\ ev_block transferData = log_block log
  /\ log_transaction log = Some (ev_transaction transferData)
  /\ exists event,
       Transfer_decode abi log = inr event
       /\ ev_from transferData = toLowerCase (arg_from event)
       /\ ev_to transferData = toLowerCase (arg_to event)
       /\ ev_tokenIndex transferData = arg_tokenId event.

(** The row that a transfer event is stored as. *)
Definition transfer_row (transferData : TransferEvent) : TransferRow :=
  {| trow_id := ev_id transferData;
     trow_blockNumber := height (ev_block transferData);
     trow_timestamp := timestamp (ev_block transferData);
     trow_txHash := hash (ev_transaction transferData);
     trow_from := Some (ev_from transferData);
     trow_to := Some (ev_to transferData);
     trow_token := Some (tokenId transferData) |}.

(** The [Transfer] carries the id, block and transaction of its event. *)
Definition transfer_copies (transferData : TransferEvent) (transfer : Transfer) : Prop :=
  tr_id transfer = ev_id transferData
  /\ tr_blockNumber transfer = height (ev_block transferData)
  /\ tr_timestamp transfer = timestamp (ev_block transferData)
  /\ tr_txHash transfer = hash (ev_transaction transferData).

(** Two token objects that differ in their owner at most. *)
Definition same_metadata (tok tok' : Token) : Prop :=
  tok_id tok' = tok_id tok
  /\ tok_index tok' = tok_index tok
  /\ tok_uri tok' = tok_uri tok
  /\ tok_image tok' = tok_image tok
  /\ tok_attributes tok' = tok_attributes tok.

(** Two token rows that differ in their owner at most. *)
Definition same_row_metadata (r r' : TokenRow) : Prop :=
  row_id r' = row_id r
  /\ row_index r' = row_index r
  /\ row_uri r' = row_uri r
  /\ row_image r' = row_image r
  /\ row_attributes r' = row_attributes r.

(** Every reference of a row leads to a row: the owner of a token row, and
    the two owners and the token of a transfer row. *)
Definition references_ok (store : Store) : Prop :=
  (forall row a, row ∈ token_table store -> row_owner row = Some a ->
     a ∈ owner_id <$> owner_table store)
  /\ (forall r, r ∈ transfer_table store ->
        (forall a, trow_from r = Some a -> a ∈ owner_id <$> owner_table store)
        /\ (forall a, trow_to r = Some a -> a ∈ owner_id <$> owner_table store)
        /\ (forall k, trow_token r = Some k -> k ∈ row_id <$> token_table store)).

(** Slashes in a string: whether it has none, whether it begins or ends
    with one, and whether it has two in a row. *)
Definition is_slash (c : ascii) : bool := Ascii.eqb c "/"%char.

Fixpoint no_slash (s : string) : bool :=
  match s with
  | EmptyString => true
  | String c rest => negb (is_slash c) && no_slash rest
  end.

Definition head_slash (s : string) : bool :=
  match s with
  | EmptyString => false
  | String c _ => is_slash c
  end.

Fixpoint ends_slash (s : string) : bool :=
  match s with
  | EmptyString => false
  | String c rest =>
      match rest with
      | EmptyString => is_slash c
      | String _ _ => ends_slash rest
      end
  end.

Fixpoint double_slash (s : string) : bool :=
  match s with
  | EmptyString => false
  | String c rest => is_slash c && head_slash rest || double_slash rest
  end.

(** A path segment that normalization keeps: not empty, and without a
    slash. *)
Definition kept_segment (seg : string) : Prop := seg <> "" /\ no_slash seg = true.

(** The first of the calls that is not fulfilled. *)
Fixpoint first_failure (calls : list (option Failure)) : option Failure :=
  match calls with
  | [] => None
  | Some f :: _ => Some f
  | None :: rest => first_failure rest
  end.

(** A path segment that neither [path.posix.join] nor the URL parser
    changes: not empty, not [.] or [..], and made of letters, digits, [-],
    [.], [_] and [~]. *)
Definition plain_segment (seg : string) : Prop :=
  seg <> "" /\ seg <> "." /\ seg <> ".."
  /\ forallb URL.unreserved (list_ascii_of_string seg) = true.

(** A gateway base [scheme://host/dir/.../dir], with or without a slash at
    its end. *)
Definition gateway_base (sch host : string) (dirs : list string) (slash : bool)
    : string :=
  sch +:+ "://" +:+ host
    +:+ foldr (fun dir rest => "/" +:+ dir +:+ rest) (if slash then "/" else "") dirs.

(** Projections of a run of [initTokens], and nothing else, are computed. *)
Ltac ir_simpl :=
  cbn [ir_heap ir_events ir_end ir_tokenURIs ir_groups ir_outcome].

(** * Properties *)

(** ** [splitIntoBatches] *)

Section split_into_batches.
Context {T : Type}.
Implicit Types (l : list T) (m off : Z).

Lemma slice_drop_take l off m :
  0 <= off -> 0 <= m ->
  JS.slice l off (off + m) = take (Z.to_nat m) (drop (Z.to_nat off) l).
Proof.
  intros Hoff Hm. unfold JS.slice, JS.rel_index. cbv zeta.
  destruct (Z.ltb_spec off 0); [lia|].
  destruct (Z.ltb_spec (off + m) 0); [lia|].
  set (len := Z.of_nat (length l)).
  destruct (Z.le_gt_cases len off) as [Hge|Hlt].
  - rewrite (Z.min_r off len) by lia.
    rewrite (drop_ge l (Z.to_nat len)) by (subst len; lia).
    rewrite (drop_ge l (Z.to_nat off)) by (subst len; lia).
    by rewrite !take_nil.
  - rewrite (Z.min_l off len) by lia.
    destruct (Z.le_gt_cases (off + m) len).
    + rewrite Z.min_l by lia. f_equal. lia.
    + rewrite Z.min_r by lia.
      rewrite !take_ge; first done.
      all: rewrite length_drop; subst len; lia.
Qed.

Lemma slice_from_drop l off :
  0 <= off -> JS.slice_from l off = drop (Z.to_nat off) l.
Proof.
  intros Hoff. unfold JS.slice_from, JS.slice, JS.rel_index. cbv zeta.
  destruct (Z.ltb_spec off 0); [lia|].
  destruct (Z.ltb_spec (Z.of_nat (length l)) 0); [lia|].
  rewrite Z.min_id.
  destruct (Z.le_gt_cases (Z.of_nat (length l)) off).
  - rewrite Z.min_r by lia. rewrite !drop_ge by lia. by rewrite take_nil.
  - rewrite Z.min_l by lia. apply take_ge. rewrite length_drop. lia.
Qed.

Lemma splitIntoBatches_loop_step (fuel : nat) l m off :
  splitIntoBatches_loop (S fuel) l m off =
    if Z.of_nat (length l) - off >? m then
      let '(chunks, returned) := splitIntoBatches_loop fuel l m (off + m) in
      (JS.slice l off (off + m) :: chunks, returned)
    else ([JS.slice_from l off], true).
Proof. reflexivity. Qed.

(** With [m >= 1] the loop started at [off] ends within
    [ceil ((length l - off) / m)] rounds. *)
Lemma splitIntoBatches_loop_ok (fuel : nat) l m off :
  1 <= m -> 0 <= off -> off <= Z.of_nat (length l) ->
  Z.of_nat (length l) - off <= (Z.of_nat fuel + 1) * m ->
  exists chunks,
    splitIntoBatches_loop (S fuel) l m off = (chunks, true)
    /\ chunks_ok m (drop (Z.to_nat off) l) chunks.
Proof.
  intros Hm. revert off.
  induction fuel as [|fuel IH]; intros off Hoff Hlen Hfuel;
    rewrite splitIntoBatches_loop_step;
    destruct (Z.gtb_spec (Z.of_nat (length l) - off) m) as [Hgt|Hle];
    try lia.
  - eexists; split; [done|].
    rewrite slice_from_drop by lia.
    repeat split; cbn.
    + by rewrite app_nil_r.
    + repeat constructor. rewrite length_drop. lia.
    + intros [|i] c; cbn; intros; lia.
    + by intros c [= <-] Hne.
  - destruct (IH (off + m)) as (chunks & -> & Hcat & Hall & Hfull & Hlast);
      [lia..|].
    eexists; split; [done|].
    rewrite slice_drop_take by lia.
    assert (Hsplit : drop (Z.to_nat off) l
              = take (Z.to_nat m) (drop (Z.to_nat off) l)
                ++ drop (Z.to_nat (off + m)) l).
    { rewrite Z2Nat.inj_add by lia.
      rewrite <- drop_drop.
      by rewrite take_drop. }
    assert (Hlen1 : Z.of_nat (length (take (Z.to_nat m) (drop (Z.to_nat off) l))) = m).
    { rewrite length_take, length_drop. lia. }
    repeat split.
    + cbn. rewrite Hcat. by rewrite <- Hsplit.
    + constructor; [lia|done].
    + intros [|i] c; cbn.
      * by intros [= <-] _.
      * intros Hc Hi. apply (Hfull i c Hc). lia.
    + intros c Hc _.
      destruct chunks as [|c0 chunks'].
      { cbn in Hc. injection Hc as <-. intros Hnil.
        rewrite Hnil in Hlen1. cbn in Hlen1. lia. }
      apply (Hlast c); [done|].
      intros Hnil. apply (f_equal length) in Hnil.
      rewrite length_drop in Hnil. cbn in Hnil. lia.
  - eexists; split; [done|].
    rewrite slice_from_drop by lia.
    repeat split; cbn.
    + by rewrite app_nil_r.
    + repeat constructor. rewrite length_drop. lia.
    + intros [|i] c; cbn; intros; lia.
    + by intros c [= <-] Hne.
Qed.

(** More fuel does not change what a generator that has returned has
    yielded. *)
Lemma splitIntoBatches_loop_fuel (fuel fuel' : nat) l m off chunks :
  (fuel <= fuel')%nat ->
  splitIntoBatches_loop fuel l m off = (chunks, true) ->
  splitIntoBatches_loop fuel' l m off = (chunks, true).
Proof.
  revert fuel' off chunks.
  induction fuel as [|fuel IH]; intros fuel' off chunks Hle; [done|].
  destruct fuel' as [|fuel']; [lia|].
  rewrite !splitIntoBatches_loop_step.
  destruct (Z.of_nat (length l) - off >? m); [|done].
  destruct (splitIntoBatches_loop fuel l m (off + m)) as [cs r] eqn:Hrun.
  intros [= <- ->]. by rewrite (IH fuel' _ cs ltac:(lia) Hrun).
Qed.

(** Whatever fuel covers the list, the generator returns, and with the same
    chunks. *)
Lemma splitIntoBatches_ok l m :
  1 <= m ->
  exists chunks,
    (forall fuel, (length l <= fuel)%nat -> splitIntoBatches fuel l m = (chunks, true))
    /\ chunks_ok m l chunks.
Proof.
  intros Hm. unfold splitIntoBatches.
  destruct (Z.leb_spec (Z.of_nat (length l)) m) as [Hle|Hgt].
  - exists [l]. split; [done|].
    repeat split; cbn.
    + by rewrite app_nil_r.
    + by repeat constructor.
    + intros [|i] c; cbn; intros; lia.
    + by intros c [= <-] Hne.
  - destruct (splitIntoBatches_loop_ok (length l - 1) l m 0) as (chunks & Hrun & Hok);
      [nia..|].
    exists chunks. split; [|done].
    intros fuel Hfuel.
    apply (splitIntoBatches_loop_fuel (S (length l - 1))); [lia|done].
Qed.

End split_into_batches.

(** C4: for every list and every [maxBatchSize >= 1], [splitIntoBatches]
    finishes and yields consecutive chunks of at most [maxBatchSize]
    elements, each but the last of exactly [maxBatchSize], whose
    concatenation in order is the list; a list of 12 elements with
    [maxBatchSize = 5] yields three chunks, of sizes 5, 5 and 2. *)
Theorem splitIntoBatches_partition {T} (xs : list T) (maxBatchSize : Z) :
  1 <= maxBatchSize ->
  exists chunks,
    (forall fuel, (length xs <= fuel)%nat ->
       splitIntoBatches fuel xs maxBatchSize = (chunks, true))
    /\ concat chunks = xs
    /\ Forall (fun c => Z.of_nat (length c) <= maxBatchSize) chunks
    /\ (forall i c, chunks !! i = Some c -> (S i < length chunks)%nat ->
          Z.of_nat (length c) = maxBatchSize)
    /\ (length xs = 12%nat -> maxBatchSize = 5 ->
          length <$> chunks = [5; 5; 2]%nat).
Proof.
  intros Hm.
  destruct (splitIntoBatches_ok xs maxBatchSize Hm)
    as (chunks & Hrun & Hcat & Hall & Hfull & _).
  exists chunks. repeat split; try done.
  intros Hlen ->.
  specialize (Hrun 12%nat ltac:(lia)).
  do 13 (destruct xs as [|? xs]; try discriminate Hlen).
  by injection Hrun as <-.
Qed.

Lemma splitIntoBatches_partition_witness :
  exists chunks,
    (forall fuel, (length (seq 0 12) <= fuel)%nat ->
       splitIntoBatches fuel (seq 0 12) 5 = (chunks, true))
    /\ concat chunks = seq 0 12
    /\ Forall (fun c => Z.of_nat (length c) <= 5) chunks
    /\ (forall i c, chunks !! i = Some c -> (S i < length chunks)%nat ->
          Z.of_nat (length c) = 5)
    /\ (length (seq 0 12) = 12%nat -> 5 = 5 ->
          length <$> chunks = [5; 5; 2]%nat).
Proof. apply (splitIntoBatches_partition (seq 0 12) 5). lia. Defined.

(** ** The insertion-ordered [Map] and [Set] *)

Section js_map.
Context {V : Type}.
Implicit Types (m : JSMap.t V) (k : string) (v : V).

Lemma JSMap_get_set_eq k v m : JSMap.get k (JSMap.set k v m) = Some v.
Proof.
  induction m as [|[k' v'] m IH]; cbn.
  - by rewrite decide_True.
  - destruct (decide (k = k')) as [->|Hne]; cbn.
    + by rewrite decide_True.
    + by rewrite decide_False.
Qed.

Lemma JSMap_get_set_ne k k' v m :
  k <> k' -> JSMap.get k' (JSMap.set k v m) = JSMap.get k' m.
Proof.
  intros Hne. induction m as [|[k0 v0] m IH]; cbn.
  - by rewrite decide_False.
  - destruct (decide (k = k0)) as [->|Hne0]; cbn.
    + by rewrite !decide_False.
    + by rewrite IH.
Qed.

Lemma JSMap_get_None k m : JSMap.get k m = None <-> k ∉ JSMap.keys m.
Proof.
  unfold JSMap.keys. induction m as [|[k' v'] m IH]; cbn.
  - split; [intros _; apply not_elem_of_nil | done].
  - rewrite not_elem_of_cons. destruct (decide (k = k')); naive_solver.
Qed.

Lemma JSMap_get_Some k v m : JSMap.get k m = Some v -> (k, v) ∈ m.
Proof.
  induction m as [|[k' v'] m IH]; cbn; [done|].
  destruct (decide (k = k')) as [->|Hne].
  - intros [= ->]. left.
  - intros H. right. by apply IH.
Qed.

Lemma JSMap_get_is_Some k m : is_Some (JSMap.get k m) <-> k ∈ JSMap.keys m.
Proof.
  rewrite <- not_eq_None_Some, JSMap_get_None.
  split; [apply dec_stable | by intros ? ?].
Qed.

Lemma JSMap_keys_set k v m :
  JSMap.keys (JSMap.set k v m) =
    if decide (k ∈ JSMap.keys m) then JSMap.keys m else JSMap.keys m ++ [k].
Proof.
  unfold JSMap.keys. induction m as [|[k' v'] m IH]; cbn.
  - rewrite decide_False; [done | apply not_elem_of_nil].
  - destruct (decide (k = k')) as [->|Hne]; cbn.
    + rewrite decide_True; [done | left].
    + rewrite IH. destruct (decide (k ∈ m.*1)) as [Hin|Hnin].
      * rewrite decide_True; [done | by right].
      * rewrite decide_False; [done|].
        rewrite not_elem_of_cons. done.
Qed.

Lemma JSMap_elem_of_keys_set k k' v m :
  k' ∈ JSMap.keys (JSMap.set k v m) <-> k' = k \/ k' ∈ JSMap.keys m.
Proof.
  rewrite JSMap_keys_set. case_decide.
  - naive_solver.
  - rewrite elem_of_app, list_elem_of_singleton. naive_solver.
Qed.

Lemma JSMap_NoDup_keys_set k v m :
  NoDup (JSMap.keys m) -> NoDup (JSMap.keys (JSMap.set k v m)).
Proof.
  intros Hnd. rewrite JSMap_keys_set. case_decide; [done|].
  apply NoDup_app. repeat split; [done| |apply NoDup_singleton].
  intros x Hx ->%list_elem_of_singleton. done.
Qed.

Lemma JSMap_values_get l m :
  l ∈ JSMap.values m -> NoDup (JSMap.keys m) ->
  exists k, JSMap.get k m = Some l.
Proof.
  unfold JSMap.values, JSMap.keys.
  induction m as [|[k' v'] m IH]; cbn; [by intros ?%elem_of_nil|].
  intros [->|Hin]%elem_of_cons [Hk' Hnd]%NoDup_cons.
  - exists k'. by rewrite decide_True.
  - destruct (IH Hin Hnd) as [k Hk]. exists k.
    rewrite decide_False; [done|].
    intros ->. apply Hk'. apply JSMap_get_is_Some. by rewrite Hk.
Qed.

(** The loop behind [new Map(entries)], from any map built so far. *)
Lemma JSMap_fold_set_keys (entries : list (string * V)) m k :
  k ∈ JSMap.keys (fold_left (fun m kv => JSMap.set kv.1 kv.2 m) entries m)
  <-> k ∈ JSMap.keys m \/ k ∈ entries.*1.
Proof.
  revert m. induction entries as [|[k0 v0] entries IH]; intros m;
    cbn [fold_left].
  - rewrite fmap_nil, elem_of_nil. naive_solver.
  - rewrite IH, JSMap_elem_of_keys_set, fmap_cons, elem_of_cons. naive_solver.
Qed.

Lemma JSMap_fold_set_NoDup (entries : list (string * V)) m :
  NoDup (JSMap.keys m) ->
  NoDup (JSMap.keys (fold_left (fun m kv => JSMap.set kv.1 kv.2 m) entries m)).
Proof.
  revert m. induction entries as [|[k0 v0] entries IH]; intros m Hnd;
    cbn [fold_left].
  - done.
  - apply IH. by apply JSMap_NoDup_keys_set.
Qed.

Lemma JSMap_fold_set_get (entries : list (string * V)) m k v :
  JSMap.get k (fold_left (fun m kv => JSMap.set kv.1 kv.2 m) entries m) = Some v ->
  JSMap.get k m = Some v \/ (k, v) ∈ entries.
Proof.
  revert m. induction entries as [|[k0 v0] entries IH]; intros m;
    cbn [fold_left].
  - by left.
  - intros [Hget|Hin]%IH.
    + cbn in Hget. destruct (decide (k0 = k)) as [->|Hne].
      * rewrite JSMap_get_set_eq in Hget. injection Hget as ->.
        right. left.
      * rewrite JSMap_get_set_ne in Hget by done. by left.
    + right. by right.
Qed.

Lemma JSMap_of_entries_keys (entries : list (string * V)) k :
  k ∈ JSMap.keys (JSMap.of_entries entries) <-> k ∈ entries.*1.
Proof.
  unfold JSMap.of_entries. rewrite JSMap_fold_set_keys.
  cbn. rewrite elem_of_nil. naive_solver.
Qed.

Lemma JSMap_of_entries_NoDup (entries : list (string * V)) :
  NoDup (JSMap.keys (JSMap.of_entries entries)).
Proof. apply JSMap_fold_set_NoDup. constructor. Qed.

Lemma JSMap_of_entries_get (entries : list (string * V)) k v :
  JSMap.get k (JSMap.of_entries entries) = Some v -> (k, v) ∈ entries.
Proof. intros [Hget|Hin]%JSMap_fold_set_get; [done|done]. Qed.

End js_map.

Lemma JSSet_elem_of_add x y s : x ∈ JSSet.add y s <-> x = y \/ x ∈ s.
Proof.
  unfold JSSet.add. case_decide.
  - naive_solver.
  - rewrite elem_of_app, list_elem_of_singleton. naive_solver.
Qed.

Lemma JSSet_NoDup_add y s : NoDup s -> NoDup (JSSet.add y s).
Proof.
  intros Hnd. unfold JSSet.add. case_decide; [done|].
  apply NoDup_app. repeat split; [done| |apply NoDup_singleton].
  by intros x Hx ->%list_elem_of_singleton.
Qed.

(** ** Entity resolution *)

Lemma elem_of_collect_ids_fold (transfersData : list TransferEvent) (ids : JSSet.t * JSSet.t) :
  let ids' := fold_left
    (fun ids transferData =>
       (JSSet.add (tokenId transferData) ids.1,
        JSSet.add (ev_to transferData) (JSSet.add (ev_from transferData) ids.2)))
    transfersData ids in
  (forall k, k ∈ ids'.1 <-> k ∈ ids.1 \/ exists td, td ∈ transfersData /\ k = tokenId td)
  /\ (forall a, a ∈ ids'.2 <->
        a ∈ ids.2 \/ exists td, td ∈ transfersData /\ (a = ev_from td \/ a = ev_to td))
  /\ (NoDup ids.1 -> NoDup ids'.1) /\ (NoDup ids.2 -> NoDup ids'.2).
Proof.
  revert ids. induction transfersData as [|td tds IH]; intros ids; cbn [fold_left].
  - cbn. repeat split; try done; try (by left).
    + intros [?|(td & []%elem_of_nil & _)]; done.
    + intros [?|(td & []%elem_of_nil & _)]; done.
  - destruct (IH (JSSet.add (tokenId td) ids.1,
                  JSSet.add (ev_to td) (JSSet.add (ev_from td) ids.2)))
      as (Htok & Hown & Hnd1 & Hnd2). cbn [fst snd] in *.
    repeat split.
    + intros Hk. apply Htok in Hk as [Hk|(td' & Hin & ->)].
      * apply JSSet_elem_of_add in Hk as [->|Hk]; [|by left].
        right. exists td. split; [left|done].
      * right. exists td'. split; [by right|done].
    + intros [Hk|(td' & Hin & ->)]; apply Htok.
      * left. apply JSSet_elem_of_add. by right.
      * apply elem_of_cons in Hin as [->|Hin].
        -- left. apply JSSet_elem_of_add. by left.
        -- right. by exists td'.
    + intros Ha. apply Hown in Ha as [Ha|(td' & Hin & Ha)].
      * apply JSSet_elem_of_add in Ha as [->|Ha].
        { right. exists td. split; [left|by right]. }
        apply JSSet_elem_of_add in Ha as [->|Ha]; [|by left].
        right. exists td. split; [left|by left].
      * right. exists td'. split; [by right|done].
    + intros [Ha|(td' & Hin & Ha)]; apply Hown.
      * left. apply JSSet_elem_of_add. right. apply JSSet_elem_of_add. by right.
      * apply elem_of_cons in Hin as [->|Hin].
        -- left. apply JSSet_elem_of_add. destruct Ha as [->| ->]; [|by left].
           right. apply JSSet_elem_of_add. by left.
        -- right. by exists td'.
    + intros Hnd. by apply Hnd1, JSSet_NoDup_add.
    + intros Hnd. by apply Hnd2, JSSet_NoDup_add, JSSet_NoDup_add.
Qed.

(** [tokensIds] and [ownersIds] hold the ids the batch refers to, each
    once. *)
Lemma collect_ids_spec (transfersData : list TransferEvent) :
  (forall k, k ∈ (collect_ids transfersData).1 <->
     exists td, td ∈ transfersData /\ k = tokenId td)
  /\ (forall a, a ∈ (collect_ids transfersData).2 <->
        exists td, td ∈ transfersData /\ (a = ev_from td \/ a = ev_to td))
  /\ NoDup (collect_ids transfersData).1 /\ NoDup (collect_ids transfersData).2.
Proof.
  destruct (elem_of_collect_ids_fold transfersData ([], []))
    as (Htok & Hown & Hnd1 & Hnd2).
  unfold collect_ids. cbn [fst snd] in *. repeat split.
  - intros [[]%elem_of_nil|?]%Htok. done.
  - intros ?. apply Htok. by right.
  - intros [[]%elem_of_nil|?]%Hown. done.
  - intros ?. apply Hown. by right.
  - apply Hnd1. constructor.
  - apply Hnd2. constructor.
Qed.

Lemma owner_for_spec h owners id h' owners' o :
  owner_for h owners id = (h', owners', o) ->
  owners_ok h owners -> NoDup (JSMap.keys owners) ->
  tokens_h h' = tokens_h h
  /\ owners_h h `prefix_of` owners_h h'
  /\ owners_ok h' owners'
  /\ NoDup (JSMap.keys owners')
  /\ JSMap.get id owners' = Some o
  /\ (forall k v, JSMap.get k owners = Some v -> JSMap.get k owners' = Some v)
  /\ (forall k, k ∈ JSMap.keys owners' <-> k = id \/ k ∈ JSMap.keys owners).
Proof.
  unfold owner_for. intros Hrun Hok Hnd.
  destruct (JSMap.get id owners) as [o0|] eqn:Hget.
  - injection Hrun as <- <- <-. repeat split; try done.
    + by right.
    + intros [->|?]; [|done]. apply JSMap_get_is_Some. by rewrite Hget.
  - cbn in Hrun. injection Hrun as <- <- <-. cbn. repeat split.
    + by apply prefix_app_r.
    + intros k o Hk. cbn.
      destruct (decide (id = k)) as [->|Hne].
      * rewrite JSMap_get_set_eq in Hk. injection Hk as <-.
        by rewrite lookup_app_r, Nat.sub_diag by lia.
      * rewrite JSMap_get_set_ne in Hk by done.
        apply lookup_app_l_Some. by apply Hok.
    + by apply JSMap_NoDup_keys_set.
    + apply JSMap_get_set_eq.
    + intros k v Hk. rewrite JSMap_get_set_ne; [done|].
      intros ->. congruence.
    + by intros ?%JSMap_elem_of_keys_set.
    + intros ?. by apply JSMap_elem_of_keys_set.
Qed.

Lemma set_owner_unenriched o tok : unenriched tok -> unenriched (set_owner o tok).
Proof. by intros (? & ? & ? & ?). Qed.

Lemma lookup_update_token h l f l' :
  tokens_h (update_token h l f) !! l' =
    if decide (l = l') then f <$> tokens_h h !! l' else tokens_h h !! l'.
Proof.
  cbn. case_decide as Heq.
  - subst. apply list_lookup_alter_eq.
  - by apply list_lookup_alter_ne.
Qed.

(** What the [if (token == null)] block leaves: the map entry and the
    object of the token, found or made. *)
Lemma token_for_spec n0 st (h2 : Heap) (tid : string) (index : Z) :
  resolver_wf n0 st -> tokens_h h2 = tokens_h (r_heap st) ->
  tid = pretty index ->
  forall h3 tokens3 newTokens3 token,
  token_for h2 (r_tokens st) (r_newTokens st) tid index
    = (h3, tokens3, newTokens3, token) ->
  owners_h h3 = owners_h h2
  /\ tokens_h (r_heap st) `prefix_of` tokens_h h3
  /\ tokens_ok h3 tokens3
  /\ NoDup (JSMap.keys tokens3)
  /\ JSMap.get tid tokens3 = Some token
  /\ (forall k v, JSMap.get k (r_tokens st) = Some v -> JSMap.get k tokens3 = Some v)
  /\ (forall k, k ∈ JSMap.keys tokens3 <-> k = tid \/ k ∈ JSMap.keys (r_tokens st))
  /\ NoDup newTokens3
  /\ r_newTokens st `prefix_of` newTokens3
  /\ (forall l, l ∈ newTokens3 <-> (n0 <= l < length (tokens_h h3))%nat)
  /\ (forall l tok, (n0 <= l)%nat -> tokens_h h3 !! l = Some tok ->
        JSMap.get (tok_id tok) tokens3 = Some l /\ unenriched tok)
  /\ (is_Some (JSMap.get tid (r_tokens st)) ->
        newTokens3 = r_newTokens st /\ tokens3 = r_tokens st /\ h3 = h2).
Proof.
  intros [Hown Htok Hok Htk Hnd Hrange Hobj Hn0] Hh2 Htid h3 tokens3 newTokens3 token.
  unfold token_for.
  destruct (JSMap.get tid (r_tokens st)) as [l|] eqn:Hget.
  - intros [= <- <- <- <-]. rewrite Hh2. split_and!; try done.
    + intros k l' Hk. rewrite Hh2. by apply Htok.
    + intros k. split; [by right|].
      intros [->|?]; [|done]. apply JSMap_get_is_Some. by rewrite Hget.
  - cbn. intros [= <- <- <- <-]. cbn. rewrite Hh2.
    set (fresh := length (tokens_h (r_heap st))).
    split_and!.
    + done.
    + by apply prefix_app_r.
    + intros k l' Hk.
      destruct (decide (tid = k)) as [->|Hne].
      * rewrite JSMap_get_set_eq in Hk. injection Hk as <-.
        eexists. split.
        { cbn. by rewrite lookup_app_r, Nat.sub_diag by (subst fresh; lia). }
        done.
      * rewrite JSMap_get_set_ne in Hk by done.
        destruct (Htok k l' Hk) as (tok & Hl & Hid).
        exists tok. split; [|done]. by apply lookup_app_l_Some.
    + by apply JSMap_NoDup_keys_set.
    + apply JSMap_get_set_eq.
    + intros k v Hk. rewrite JSMap_get_set_ne; [done|]. intros ->. congruence.
    + intros k. apply JSMap_elem_of_keys_set.
    + apply NoDup_app. split_and!; [done| |apply NoDup_singleton].
      intros l Hl%Hrange ->%list_elem_of_singleton. subst fresh. lia.
    + by apply prefix_app_r.
    + intros l. rewrite length_app. cbn. split.
      * intros [Hl%Hrange| ->%list_elem_of_singleton]%elem_of_app; subst fresh; lia.
      * intros Hl. apply elem_of_app.
        destruct (decide (l = fresh)) as [->|Hne].
        -- right. left.
        -- left. apply Hrange. subst fresh. lia.
    + intros l tok Hl Hlook.
      apply lookup_snoc_Some in Hlook as [[Hlt Hlook]|[-> <-]].
      * destruct (Hobj l tok Hl Hlook) as [Hk Hun]. split; [|done].
        rewrite JSMap_get_set_ne; [done|]. intros Heq. congruence.
      * cbn. split; [apply JSMap_get_set_eq|]. by split_and!.
    + by intros [? [=]].
Qed.

(** What one round of the loop does to a well-formed state. *)
Lemma resolve_transfer_spec n0 st td :
  resolver_wf n0 st ->
  let st' := resolve_transfer st td in
  resolver_wf n0 st'
  /\ (forall k v, JSMap.get k (r_owners st) = Some v -> JSMap.get k (r_owners st') = Some v)
  /\ (forall k v, JSMap.get k (r_tokens st) = Some v -> JSMap.get k (r_tokens st') = Some v)
  /\ (forall k, k ∈ JSMap.keys (r_owners st') <->
        (k = ev_from td \/ k = ev_to td) \/ k ∈ JSMap.keys (r_owners st))
  /\ (forall k, k ∈ JSMap.keys (r_tokens st') <->
        k = tokenId td \/ k ∈ JSMap.keys (r_tokens st))
  /\ owners_h (r_heap st) `prefix_of` owners_h (r_heap st')
  /\ (forall l tok, tokens_h (r_heap st) !! l = Some tok ->
        JSMap.get (tokenId td) (r_tokens st') <> Some l ->
        tokens_h (r_heap st') !! l = Some tok)
  /\ (exists tr, r_transfers st' = r_transfers st ++ [tr] /\ transfer_resolved st' td tr)
  /\ owner_resolved st' (tokenId td) td
  /\ r_newTokens st `prefix_of` r_newTokens st'
  /\ (is_Some (JSMap.get (tokenId td) (r_tokens st)) ->
        r_newTokens st' = r_newTokens st /\ r_tokens st' = r_tokens st).
Proof.
  intros Hwf. pose proof Hwf as [Hown Htok Hok Htk Hnd Hrange Hobj Hn0].
  unfold resolve_transfer.
  destruct (owner_for (r_heap st) (r_owners st) (ev_from td))
    as [[h1 owners1] from] eqn:Hfrom.
  destruct (owner_for h1 owners1 (ev_to td)) as [[h2 owners2] to] eqn:Hto.
  destruct (owner_for_spec _ _ _ _ _ _ Hfrom Hown Hok)
    as (Ht1 & Hpre1 & Hown1 & Hok1 & Hgfrom & Hmono1 & Hkeys1).
  destruct (owner_for_spec _ _ _ _ _ _ Hto Hown1 Hok1)
    as (Ht2 & Hpre2 & Hown2 & Hok2 & Hgto & Hmono2 & Hkeys2).
  assert (Hh2 : tokens_h h2 = tokens_h (r_heap st)) by congruence.
  destruct (token_for h2 (r_tokens st) (r_newTokens st) (tokenId td) (ev_tokenIndex td))
    as [[[h3 tokens3] newTokens3] token] eqn:Hslot.
  destruct (token_for_spec n0 st h2 (tokenId td) (ev_tokenIndex td) Hwf Hh2 eq_refl
              _ _ _ _ Hslot)
    as (Ho3 & Hpre3 & Htok3 & Htk3 & Hgtok & Hmono3 & Hkeys3 & Hnd3 & Hnpre
        & Hrange3 & Hobj3 & Hfound).
  cbn zeta. cbn [r_heap r_owners r_tokens r_newTokens r_transfers].
  destruct (Htok3 _ _ Hgtok) as (tok0 & Hl0 & Hid0).
  assert (Hinj : forall k l tok, tokens_h h3 !! l = Some tok ->
            JSMap.get k tokens3 = Some l -> tok_id tok = k).
  { intros k l tok Hl Hk. destruct (Htok3 _ _ Hk) as (tok' & Hl' & <-). congruence. }
  split_and!.
  - constructor; cbn [r_heap r_owners r_tokens r_newTokens r_transfers].
    + intros k o Hk. cbn. rewrite Ho3. by apply Hown2.
    + intros k l Hk. rewrite lookup_update_token.
      destruct (Htok3 _ _ Hk) as (tok & Hl & Hid).
      case_decide; rewrite Hl; cbn; eauto.
    + done.
    + done.
    + done.
    + intros l. cbn. rewrite length_alter. apply Hrange3.
    + intros l tok Hl. rewrite lookup_update_token. case_decide as Heq.
      * intros (tok1 & Hl1 & ->)%fmap_Some.
        destruct (Hobj3 l tok1 Hl Hl1) as [Hg Hun].
        split; [done|]. by apply set_owner_unenriched.
      * by apply Hobj3.
    + cbn. rewrite length_alter.
      apply prefix_length in Hpre3. lia.
  - intros k v Hk. by apply Hmono2, Hmono1.
  - done.
  - intros k. rewrite Hkeys2, Hkeys1. naive_solver.
  - done.
  - cbn. rewrite Ho3. by etrans.
  - intros l tok Hl Hne. rewrite lookup_update_token.
    assert (Hl3 : tokens_h h3 !! l = Some tok) by by eapply prefix_lookup_Some.
    rewrite decide_False; [done|]. intros ->. by apply Hne.
  - eexists. split; [done|]. unfold transfer_resolved. cbn.
    split_and!; [by apply Hmono2|done|done].
  - exists token, (set_owner to tok0), to.
    cbn [r_heap r_owners r_tokens]. split_and!; try done.
    + rewrite lookup_update_token, decide_True, Hl0 by done. done.
    + cbn. rewrite Ho3. by apply Hown2.
  - done.
  - intros Hsome. by destruct (Hfound Hsome) as (-> & -> & _).
Qed.

Lemma owner_resolved_step n0 st td tid td0 :
  resolver_wf n0 st -> tid <> tokenId td ->
  owner_resolved st tid td0 -> owner_resolved (resolve_transfer st td) tid td0.
Proof.
  intros Hwf Hne (token & tok & o & Hgt & Hl & Hid & Hown & Hgo & Ho).
  destruct (resolve_transfer_spec n0 st td Hwf)
    as (Hwf' & Hmo & Hmt & _ & _ & Hpre & Hkeep & _).
  exists token, tok, o. split_and!; try done.
  - by apply Hmt.
  - apply Hkeep; [done|]. intros Hg.
    destruct (wf_tokens _ _ Hwf' _ _ Hg) as (tok1 & Hl1 & Hid1).
    destruct (wf_tokens _ _ Hwf' _ _ (Hmt _ _ Hgt)) as (tok2 & Hl2 & Hid2).
    congruence.
  - by apply Hmo.
  - by eapply prefix_lookup_Some.
Qed.

Lemma transfer_resolved_step n0 st td td0 tr :
  resolver_wf n0 st ->
  transfer_resolved st td0 tr -> transfer_resolved (resolve_transfer st td) td0 tr.
Proof.
  intros Hwf (Hf & Ht & Hk).
  destruct (resolve_transfer_spec n0 st td Hwf) as (_ & Hmo & Hmt & _).
  split_and!; auto.
Qed.

Lemma last_transfer_of_snoc tid processed td :
  last_transfer_of tid (processed ++ [td]) =
    if decide (tokenId td = tid) then Some td else last_transfer_of tid processed.
Proof.
  unfold last_transfer_of. rewrite filter_app.
  cbn. unfold filter at 2. cbn.
  case_decide.
  - by rewrite last_snoc.
  - by rewrite app_nil_r.
Qed.

(** The whole loop, from any well-formed state [st] that is right about the
    transfers [processed] so far. *)
Lemma resolve_fold_spec n0 (transfersData : list TransferEvent) :
  forall st processed,
  resolver_wf n0 st ->
  (forall tid td, last_transfer_of tid processed = Some td -> owner_resolved st tid td) ->
  Forall2 (transfer_resolved st) processed (r_transfers st) ->
  let st' := fold_left resolve_transfer transfersData st in
  resolver_wf n0 st'
  /\ (forall tid td, last_transfer_of tid (processed ++ transfersData) = Some td ->
        owner_resolved st' tid td)
  /\ Forall2 (transfer_resolved st') (processed ++ transfersData) (r_transfers st')
  /\ (forall k, k ∈ JSMap.keys (r_owners st') <->
        k ∈ JSMap.keys (r_owners st)
        \/ exists td, td ∈ transfersData /\ (k = ev_from td \/ k = ev_to td))
  /\ (forall k, k ∈ JSMap.keys (r_tokens st') <->
        k ∈ JSMap.keys (r_tokens st)
        \/ exists td, td ∈ transfersData /\ k = tokenId td)
  /\ ((forall td, td ∈ transfersData -> is_Some (JSMap.get (tokenId td) (r_tokens st))) ->
        r_newTokens st' = r_newTokens st)
  /\ (forall k v, JSMap.get k (r_tokens st) = Some v -> JSMap.get k (r_tokens st') = Some v).
Proof.
  induction transfersData as [|td tds IH]; intros st processed Hwf Hlast Htr;
    cbn [fold_left].
  - rewrite app_nil_r. split_and!; try done.
    + intros k. split; [by left|]. by intros [?|(td & []%elem_of_nil & _)].
    + intros k. split; [by left|]. by intros [?|(td & []%elem_of_nil & _)].
  - destruct (resolve_transfer_spec n0 st td Hwf)
      as (Hwf1 & Hmo & Hmt & Hko & Hkt & Hpre & Hkeep & (tr & Htrs & Htr1) & Hres
          & Hnpre & Hfound).
    assert (Hlast1 : forall tid td0,
              last_transfer_of tid (processed ++ [td]) = Some td0 ->
              owner_resolved (resolve_transfer st td) tid td0).
    { intros tid td0. rewrite last_transfer_of_snoc. case_decide as Heq.
      - intros [= <-]. by subst tid.
      - intros Hl. eapply owner_resolved_step; eauto. }
    assert (Htrs1 : Forall2 (transfer_resolved (resolve_transfer st td))
              (processed ++ [td]) (r_transfers (resolve_transfer st td))).
    { rewrite Htrs. apply Forall2_app; [|by apply Forall2_cons].
      eapply Forall2_impl; [done|]. intros td0 tr0.
      by eapply transfer_resolved_step. }
    destruct (IH (resolve_transfer st td) (processed ++ [td]) Hwf1 Hlast1 Htrs1)
      as (Hwf' & Hlast' & Htr' & Hko' & Hkt' & Hnew' & Hmono').
    + rewrite <- app_assoc in Hlast', Htr'. cbn in Hlast', Htr'.
      split_and!; try done.
      * intros k. rewrite Hko', Hko. split.
        -- intros [[Hk|Hk]|(td0 & Hin & Hk)].
           ++ right. exists td. split; [left|done].
           ++ by left.
           ++ right. exists td0. split; [by right|done].
        -- intros [Hk|(td0 & [->|Hin]%elem_of_cons & Hk)].
           ++ left. by right.
           ++ left. by left.
           ++ right. by exists td0.
      * intros k. rewrite Hkt', Hkt. split.
        -- intros [[Hk|Hk]|(td0 & Hin & Hk)].
           ++ right. exists td. split; [left|done].
           ++ by left.
           ++ right. exists td0. split; [by right|done].
        -- intros [Hk|(td0 & [->|Hin]%elem_of_cons & Hk)].
           ++ left. by right.
           ++ left. by left.
           ++ right. by exists td0.
      * intros Hall.
        destruct (Hfound (Hall td ltac:(left))) as [Hn Ht].
        rewrite Hnew', Hn; [done|].
        intros td0 Hin. rewrite Ht. apply Hall. by right.
      * intros k v Hk. by apply Hmono', Hmt.
Qed.

Lemma load_wf store transfersData :
  resolver_wf (length (tokens_h (r_heap (load store transfersData))))
    (load store transfersData).
Proof.
  constructor; cbn.
  - intros k o (i & x & [= -> ->] & Hx)%JSMap_of_entries_get%elem_of_lookup_imap.
    by destruct x.
  - intros k l (i & x & [= -> ->] & Hx)%JSMap_of_entries_get%elem_of_lookup_imap.
    eauto.
  - apply JSMap_of_entries_NoDup.
  - apply JSMap_of_entries_NoDup.
  - constructor.
  - intros l. split; [by intros ?%elem_of_nil | lia].
  - intros l tok Hl Hlook%lookup_lt_Some. lia.
  - done.
Qed.

Lemma load_owner_keys store transfersData k :
  k ∈ JSMap.keys (r_owners (load store transfersData)) ->
  exists td, td ∈ transfersData /\ (k = ev_from td \/ k = ev_to td).
Proof.
  unfold load. cbn [r_owners]. rewrite JSMap_of_entries_keys.
  intros ([k' l] & -> & (i & x & [= -> ->] & Hx)%elem_of_lookup_imap)%list_elem_of_fmap.
  apply list_elem_of_lookup_2 in Hx.
  apply list_elem_of_filter in Hx as [Hin _].
  by apply collect_ids_spec in Hin.
Qed.

Lemma load_token_keys store transfersData k :
  k ∈ JSMap.keys (r_tokens (load store transfersData)) <->
  (exists td, td ∈ transfersData /\ k = tokenId td)
  /\ k ∈ (row_id <$> token_table store).
Proof.
  unfold load. cbn [r_tokens]. rewrite JSMap_of_entries_keys. split.
  - intros ([k' l] & -> & (i & x & [= -> ->] & Hx)%elem_of_lookup_imap)%list_elem_of_fmap.
    apply list_lookup_fmap_Some in Hx as (r & -> & Hr).
    apply list_elem_of_lookup_2 in Hr.
    apply list_elem_of_filter in Hr as [Hin Hr]. cbn. split.
    + by apply collect_ids_spec in Hin.
    + apply list_elem_of_fmap. eauto.
  - intros [Hin (r & -> & Hr)%list_elem_of_fmap].
    apply collect_ids_spec in Hin.
    assert (Hf : token_of_row r ∈ token_of_row <$>
              findBy_In row_id (token_table store) (collect_ids transfersData).1).
    { apply list_elem_of_fmap. exists r. split; [done|].
      by apply list_elem_of_filter. }
    apply list_elem_of_lookup in Hf as [i Hi].
    apply list_elem_of_fmap. exists (row_id r, i). split; [done|].
    apply elem_of_lookup_imap. exists i, (token_of_row r). done.
Qed.

(** The resolver pass as a whole. *)
Lemma resolve_spec store transfersData :
  let st := resolve store transfersData in
  resolver_wf (length (tokens_h (r_heap (load store transfersData)))) st
  /\ (forall tid td, last_transfer_of tid transfersData = Some td ->
        owner_resolved st tid td)
  /\ Forall2 (transfer_resolved st) transfersData (r_transfers st)
  /\ (forall a, a ∈ JSMap.keys (r_owners st) <->
        exists td, td ∈ transfersData /\ (a = ev_from td \/ a = ev_to td))
  /\ (forall k, k ∈ JSMap.keys (r_tokens st) <->
        exists td, td ∈ transfersData /\ k = tokenId td)
  /\ ((forall td, td ∈ transfersData -> tokenId td ∈ (row_id <$> token_table store)) ->
        r_newTokens st = [])
  /\ (forall l tok, l ∈ r_newTokens st -> tokens_h (r_heap st) !! l = Some tok ->
        tok_id tok ∉ (row_id <$> token_table store)).
Proof.
  destruct (resolve_fold_spec _ transfersData (load store transfersData) []
              (load_wf store transfersData))
    as (Hwf & Hlast & Htr & Hko & Hkt & Hnew & Hmono).
  - intros tid td. unfold last_transfer_of. by cbn.
  - cbn. constructor.
  - cbn [app] in *. fold (resolve store transfersData) in *.
    split_and!; try done.
    + intros a. rewrite Hko. split; [|by right].
      intros [Hk|?]; [|done]. by apply load_owner_keys in Hk.
    + intros k. rewrite Hkt. split; [|by right].
      intros [Hk|?]; [|done]. by apply load_token_keys in Hk as [? _].
    + intros Hall. apply Hnew. intros td Hin.
      apply JSMap_get_is_Some, load_token_keys. split; [|by apply Hall].
      by exists td.
    + intros l tok Hl Htok Hstored.
      apply (wf_new_range _ _ Hwf) in Hl as [Hn0 _].
      destruct (wf_new_obj _ _ Hwf l tok Hn0 Htok) as [Hget _].
      assert (Hkey : tok_id tok ∈ JSMap.keys (r_tokens (load store transfersData))).
      { apply load_token_keys. split; [|done].
        assert (Hk : tok_id tok ∈ JSMap.keys (r_tokens (resolve store transfersData))).
        { apply JSMap_get_is_Some. by rewrite Hget. }
        apply Hkt in Hk as [Hk|?]; [|done].
        by apply load_token_keys in Hk as [? _]. }
      apply JSMap_get_is_Some in Hkey as [l0 Hl0].
      pose proof (Hmono _ _ Hl0) as Hl0'.
      unfold load in Hl0. cbn [r_tokens] in Hl0.
      apply JSMap_of_entries_get, elem_of_lookup_imap in Hl0
        as (i & x & [= _ ->] & Hx%lookup_lt_Some).
      unfold load in Hn0. cbn [r_heap tokens_h] in Hn0.
      assert (i = l) by congruence. lia.
Qed.

(** C3: for every list of transfer events the keys of the resolver's owner
    map are exactly the addresses the list names as [from] or [to], and the
    keys of its token map exactly the token indices of the list, written as
    strings; no key is repeated and none is missing, every entry leads to an
    object of that id, and every [Transfer] made refers to the very objects
    the maps hold, so that repeated references to one id are references to
    one object. *)
Theorem resolver_maps_exact (store : Store) (transfersData : list TransferEvent) :
  let st := resolve store transfersData in
  NoDup (JSMap.keys (r_owners st))
  /\ (forall a, a ∈ JSMap.keys (r_owners st) <->
        exists td, td ∈ transfersData /\ (a = ev_from td \/ a = ev_to td))
  /\ NoDup (JSMap.keys (r_tokens st))
  /\ (forall k, k ∈ JSMap.keys (r_tokens st) <->
        exists td, td ∈ transfersData /\ k = pretty (ev_tokenIndex td))
  /\ owners_ok (r_heap st) (r_owners st)
  /\ tokens_ok (r_heap st) (r_tokens st)
  /\ Forall2 (transfer_resolved st) transfersData (r_transfers st).
Proof.
  destruct (resolve_spec store transfersData) as ([] & _ & Htr & Hko & Hkt & _).
  by split_and!.
Qed.

(** ** Fetching one document *)

Lemma prefix_true_app (p s : string) :
  String.prefix p s = true -> exists rest, s = p +:+ rest.
Proof.
  revert s. induction p as [|c p IH]; intros s; cbn.
  - intros _. by exists s.
  - destruct s as [|c' s]; [done|]. cbn.
    destruct (ascii_dec c c') as [->|]; [|done].
    intros [rest ->]%IH. by exists rest.
Qed.

(** A URI that [fetchTokenMetadata] takes into one of its two fetching
    branches has the scheme of that branch. *)
Lemma startsWith_scheme (uri : string) :
  (startsWith uri "ipfs://" = true -> scheme uri = "ipfs")
  /\ (startsWith uri "http://" = true -> scheme uri = "http")
  /\ (startsWith uri "https://" = true -> scheme uri = "https").
Proof.
  unfold startsWith. split_and!; by intros [rest ->]%prefix_true_app.
Qed.

Lemma fetchTokenMetadata_other_scheme env cfg t uri :
  scheme uri <> "ipfs" -> scheme uri <> "http" -> scheme uri <> "https" ->
  fetchTokenMetadata env cfg t uri =
    {| p_events := [LogWarn t ("Unexpected metadata URL protocol: " +:+ uri)];
       settled_at := t; settled := inr None |}.
Proof.
  intros Hipfs Hhttp Hhttps. unfold fetchTokenMetadata.
  destruct (startsWith_scheme uri) as (H1 & H2 & H3).
  destruct (startsWith uri "ipfs://"); [by destruct Hipfs; apply H1|].
  destruct (startsWith uri "http://"); [by destruct Hhttp; apply H2|].
  destruct (startsWith uri "https://"); [by destruct Hhttps; apply H3|].
  done.
Qed.

Lemma fetch_failure_contains uri e : contains (exn_message (fetch_failure uri e)) uri.
Proof. by eexists _, _. Qed.

Lemma get_and_log_spec env t uri url :
  let p := get_and_log env t uri url in
  t <= settled_at p
  /\ (forall ev u, ev ∈ p_events p -> http_url ev = Some u -> event_time ev = t)
  /\ fetched (p_events p) = [url]
  /\ (forall e, reply (http_get env t url) = inl e -> settled p = inl (fetch_failure uri e))
  /\ (forall v, reply (http_get env t url) = inr v -> settled p = inr v)
  /\ (forall err, settled p = inl err -> exists e, err = fetch_failure uri e).
Proof.
  unfold get_and_log. destruct (reply (http_get env t url)) as [e|v]; cbn.
  - split_and!; try done; try lia.
    + by intros ev u ->%list_elem_of_singleton.
    + by intros e' [= ->].
    + intros err [= <-]. eauto.
  - split_and!; try done; try lia.
    intros ev u [->|[->|[]%elem_of_nil]%elem_of_cons]%elem_of_cons; done.
Qed.

Lemma fetchTokenMetadata_spec env cfg t uri :
  let p := fetchTokenMetadata env cfg t uri in
  t <= settled_at p
  /\ (forall ev u, ev ∈ p_events p -> http_url ev = Some u -> event_time ev = t)
  /\ (length (fetched (p_events p)) <= 1)%nat
  /\ (forall err, settled p = inl err -> exists e, err = fetch_failure uri e).
Proof.
  unfold fetchTokenMetadata.
  destruct (startsWith uri "ipfs://").
  - destruct (ipfsRegExp_exec uri) as [m|].
    + destruct (get_and_log_spec env t uri (Path.join [IPFS_GATEWAY cfg; m]))
        as (? & ? & Hev & ? & ? & ?).
      split_and!; try done. by rewrite Hev.
    + cbn. split_and!; try done; try lia.
      * by intros ev u []%elem_of_nil.
      * intros err [= <-]. eauto.
  - destruct (startsWith uri "http://" || startsWith uri "https://").
    + destruct (get_and_log_spec env t uri uri) as (? & ? & Hev & ? & ? & ?).
      split_and!; try done. by rewrite Hev.
    + cbn. split_and!; try done; try lia.
      by intros ev u ->%list_elem_of_singleton.
Qed.

(** ** The staggered delay *)

Lemma ceil_div_spec a b :
  0 < b -> (ceil_div a b - 1) * b < a <= ceil_div a b * b.
Proof.
  intros Hb. unfold ceil_div.
  pose proof (Z.mul_div_le (- a) b Hb).
  pose proof (Z.mul_succ_div_gt (- a) b Hb).
  nia.
Qed.

Lemma ceil_div_unique a b d :
  0 < b -> (d - 1) * b < a <= d * b -> d = ceil_div a b.
Proof.
  intros Hb Hd. pose proof (ceil_div_spec a b Hb). nia.
Qed.

(** Within a group of at most [MAX_IPFS_REQ_SEC] items the timer waits for
    exactly the staggered delay, which lies between 1 and 1000. *)
Lemma stagger_delay cfg (index : nat) :
  1 <= MAX_IPFS_REQ_SEC cfg -> Z.of_nat index < MAX_IPFS_REQ_SEC cfg ->
  setTimeout_delay (stagger cfg index) = stagger cfg index
  /\ 1 <= stagger cfg index <= 1000.
Proof.
  intros HR HK. unfold stagger.
  pose proof (ceil_div_spec (1000 * (Z.of_nat index + 1)) (MAX_IPFS_REQ_SEC cfg)
                ltac:(lia)) as Hc.
  set (d := ceil_div _ _) in *.
  assert (1 <= d <= 1000) by nia.
  split; [|done]. unfold setTimeout_delay.
  destruct (Z.ltb_spec d 1); [lia|].
  destruct (Z.ltb_spec 2147483647 d); [lia|]. done.
Qed.

(** ** Joining a group *)

Section promise_all.
Context {A : Type}.
Implicit Types (p : Promise A) (ps : list (Promise A)).

Lemma first_rejection_None ps :
  first_rejection ps = None <-> Forall (fun p => exists v, settled p = inr v) ps.
Proof.
  induction ps as [|p ps IH]; cbn.
  - split; [constructor|done].
  - rewrite Forall_cons. destruct (settled p) as [e|v].
    + split.
      * destruct (first_rejection ps) as [[t' e']|]; [|done].
        by destruct (settled_at p <=? t').
      * by intros [[v [=]] _].
    + rewrite IH. split; [|by intros [_ ?]]. eauto.
Qed.

(** The rejection that [Promise.all] reports is the earliest one. *)
Lemma first_rejection_Some ps t e :
  first_rejection ps = Some (t, e) ->
  (exists p, p ∈ ps /\ settled p = inl e /\ settled_at p = t)
  /\ (forall p e', p ∈ ps -> settled p = inl e' -> t <= settled_at p).
Proof.
  revert t e. induction ps as [|p ps IH]; intros t e; cbn; [done|].
  destruct (settled p) as [e0|v] eqn:Hp.
  - destruct (first_rejection ps) as [[t' e']|] eqn:Hrest.
    + destruct (IH t' e' eq_refl) as ((q & Hq & Hqe & Hqt) & Hmin).
      destruct (Z.leb_spec (settled_at p) t'); intros [= <- <-].
      * split; [exists p; split_and!; [left|done|done]|].
        intros p' e'' [->|Hin]%elem_of_cons Hs; [lia|].
        specialize (Hmin p' e'' Hin Hs). lia.
      * split; [exists q; split_and!; [by right|done|done]|].
        intros p' e'' [->|Hin]%elem_of_cons Hs; [lia|].
        by apply (Hmin p' e'').
    + intros [= <- <-].
      split; [exists p; split_and!; [left|done|done]|].
      intros p' e'' [->|Hin]%elem_of_cons Hs; [lia|].
      apply first_rejection_None in Hrest.
      rewrite Forall_forall in Hrest.
      destruct (Hrest p' Hin) as [v Hv]. congruence.
  - intros Hrest. destruct (IH t e Hrest) as ((q & Hq & Hqe & Hqt) & Hmin).
    split; [exists q; split_and!; [by right|done|done]|].
    intros p' e'' [->|Hin]%elem_of_cons Hs; [congruence|].
    by apply (Hmin p' e'').
Qed.

Lemma fulfilled_values_all ps :
  Forall (fun p => exists v, settled p = inr v) ps ->
  Forall2 (fun p v => settled p = inr v) ps (fulfilled_values ps).
Proof.
  unfold fulfilled_values.
  induction 1 as [|p ps [v Hv] _ IH]; cbn; [constructor|].
  rewrite Hv. by constructor.
Qed.

Lemma foldr_max_settled ps t0 :
  t0 <= foldr (fun p t => Z.max (settled_at p) t) t0 ps
  /\ forall p, p ∈ ps ->
       settled_at p <= foldr (fun p t => Z.max (settled_at p) t) t0 ps.
Proof.
  induction ps as [|q ps [IH0 IH]]; cbn.
  - split; [lia|]. by intros p ?%elem_of_nil.
  - split; [lia|]. intros p [->|Hin]%elem_of_cons; [lia|].
    specialize (IH p Hin). lia.
Qed.

Lemma length_fetched_filter (P : Event -> Prop) `{!forall ev, Decision (P ev)}
    (events : list Event) :
  (length (fetched (filter P events)) <= length (fetched events))%nat.
Proof.
  unfold fetched. induction events as [|ev events IH]; [done|].
  rewrite filter_cons. case_decide; cbn.
  - destruct (http_url ev); cbn; lia.
  - destruct (http_url ev); cbn; lia.
Qed.

(** [Promise.all]: fulfilled with all the values once the last promise has
    settled, or rejected with the earliest rejection. *)
Lemma promise_all_spec t0 ps :
  let j := promise_all t0 ps in
  (forall vs, settled j = inr vs ->
     Forall2 (fun p v => settled p = inr v) ps vs
     /\ t0 <= settled_at j
     /\ (forall p, p ∈ ps -> settled_at p <= settled_at j)
     /\ p_events j = ps ≫= p_events)
  /\ (forall e, settled j = inl e ->
        (exists p, p ∈ ps /\ settled p = inl e /\ settled_at p = settled_at j)
        /\ (forall p e', p ∈ ps -> settled p = inl e' -> settled_at j <= settled_at p))
  /\ ((exists p e, p ∈ ps /\ settled p = inl e) -> exists e, settled j = inl e)
  /\ (length (fetched (p_events j)) <= length (fetched (ps ≫= p_events)))%nat
  /\ (forall ev, ev ∈ p_events j -> ev ∈ ps ≫= p_events).
Proof.
  unfold promise_all.
  destruct (first_rejection ps) as [[t e]|] eqn:Hrej; cbn.
  - destruct (first_rejection_Some ps t e Hrej) as [Hex Hmin].
    split_and!; try done.
    + by intros e' [= <-].
    + eauto.
    + apply length_fetched_filter.
    + by intros ev [_ ?]%list_elem_of_filter.
  - apply first_rejection_None in Hrej.
    destruct (foldr_max_settled ps t0) as [H0 Hmax].
    split_and!; try done.
    + intros vs [= <-]. split_and!; try done.
      by apply fulfilled_values_all.
    + intros (p & e & Hin & He). rewrite Forall_forall in Hrej.
      destruct (Hrej p Hin) as [v Hv]. congruence.
Qed.

End promise_all.

(** ** Rate-limit groups *)

Lemma length_fetched_bind {A} (ps : list (Promise A)) :
  Forall (fun p => (length (fetched (p_events p)) <= 1)%nat) ps ->
  (length (fetched (ps ≫= p_events)) <= length ps)%nat.
Proof.
  unfold fetched. induction 1 as [|p ps Hp _ IH]; [done|].
  rewrite bind_cons, omap_app, length_app. cbn. lia.
Qed.

Lemma run_group_items env cfg t0 batch K item :
  g_items (run_group env cfg t0 batch) !! K = Some item <->
  exists uri, batch !! K = Some uri /\ item = make_item env cfg t0 K uri.
Proof.
  cbn. rewrite list_lookup_imap. split.
  - intros (uri & Hu & ->)%fmap_Some. eauto.
  - intros (uri & -> & ->). done.
Qed.

Lemma run_group_spec env cfg t0 batch :
  let g := run_group env cfg t0 batch in
  g_start g = t0
  /\ it_uri <$> g_items g = batch
  /\ (forall m, settled (g_join g) = inr m ->
        Forall2 (fun uri v => exists t, settled (fetchTokenMetadata env cfg t uri) = inr v)
          batch m
        /\ t0 <= settled_at (g_join g)
        /\ (forall item, item ∈ g_items g ->
              settled_at (it_promise item) <= settled_at (g_join g)))
  /\ (forall e, settled (g_join g) = inl e ->
        exists item, item ∈ g_items g /\ settled (it_promise item) = inl e
          /\ settled_at (it_promise item) = settled_at (g_join g)
          /\ (forall item' e', item' ∈ g_items g ->
                settled (it_promise item') = inl e' ->
                settled_at (g_join g) <= settled_at (it_promise item')))
  /\ ((exists item e, item ∈ g_items g /\ settled (it_promise item) = inl e) ->
        exists e, settled (g_join g) = inl e)
  /\ (length (fetched (p_events (g_join g))) <= length batch)%nat.
Proof.
  intros g.
  assert (Huris : it_uri <$> g_items g = batch).
  { apply list_eq. intros K. subst g. cbn.
    rewrite list_lookup_fmap, list_lookup_imap.
    by destruct (batch !! K). }
  destruct (promise_all_spec t0 (it_promise <$> g_items g))
    as (Hok & Herr & Hany & Hlen & _).
  change (promise_all t0 (it_promise <$> g_items g)) with (g_join g) in *.
  split_and!; try done.
  - intros m Hm. destruct (Hok m Hm) as (Hall & Ht0 & Hmax & _).
    split_and!; try done.
    + apply Forall2_fmap_l in Hall.
      apply Forall2_same_length_lookup. split.
      * apply Forall2_length in Hall. rewrite <- Hall. subst g. cbn.
        by rewrite length_imap.
      * intros K uri v Huri Hv.
        assert (Hitem : g_items g !! K = Some (make_item env cfg t0 K uri)).
        { apply run_group_items. eauto. }
        pose proof (Forall2_lookup_lr _ _ _ _ _ _ Hall Hitem Hv) as Hs.
        cbn in Hs. eauto.
    + intros item Hin. apply Hmax. by apply list_elem_of_fmap_2.
  - intros e He. destruct (Herr e He) as ((p & Hin & Hp & Hpt) & Hmin).
    apply list_elem_of_fmap in Hin as (item & -> & Hin).
    exists item. split_and!; try done.
    intros item' e' Hin' He'. apply (Hmin _ e'); [|done].
    by apply list_elem_of_fmap_2.
  - intros (item & e & Hin & He). apply Hany.
    exists (it_promise item), e. split; [|done]. by apply list_elem_of_fmap_2.
  - etrans; [apply Hlen|].
    etrans; [apply length_fetched_bind|].
    + apply Forall_forall. intros p (item & -> & Hin)%list_elem_of_fmap.
      apply list_elem_of_lookup in Hin as [K HK].
      apply run_group_items in HK as (uri & _ & ->).
      apply fetchTokenMetadata_spec.
    + rewrite length_fmap. subst g. cbn. by rewrite length_imap.
Qed.

(** The loop over the batches: which groups are made, when, and what comes
    of them. *)
Lemma fetch_groups_spec env cfg (batches : list (list string)) :
  forall t groups p,
  fetch_groups env cfg t batches = (groups, p) ->
  (forall n g, groups !! n = Some g ->
     exists batch, batches !! n = Some batch /\ g = run_group env cfg (g_start g) batch)
  /\ (forall g, groups !! 0%nat = Some g -> g_start g = t)
  /\ (forall n g g', groups !! n = Some g -> groups !! S n = Some g' ->
        (exists m, settled (g_join g) = inr m)
        /\ g_start g' = settled_at (g_join g))
  /\ (forall metadatas, settled p = inr metadatas ->
        length groups = length batches
        /\ Forall2 (fun uri v => exists t', settled (fetchTokenMetadata env cfg t' uri) = inr v)
             (concat batches) metadatas
        /\ forall g, g ∈ groups -> exists m, settled (g_join g) = inr m)
  /\ (forall e, settled p = inl e ->
        exists g, last groups = Some g /\ settled (g_join g) = inl e)
  /\ (forall g e, g ∈ groups -> settled (g_join g) = inl e ->
        last groups = Some g /\ settled p = inl e)
  /\ (length (fetched (p_events p)) <= length (concat batches))%nat.
Proof.
  induction batches as [|batch rest IH]; intros t groups p; cbn [fetch_groups].
  - intros [= <- <-]. cbn. split_and!; try done.
    + intros metadatas [= <-]. split_and!; [done|constructor|].
      by intros g ?%elem_of_nil.
    + by intros g e ?%elem_of_nil.
  - destruct (run_group_spec env cfg t batch)
      as (Hstart & Huris & Hok & Herr & Hany & Hlen).
    remember (run_group env cfg t batch) as g eqn:Hg.
    destruct (settled (g_join g)) as [e|m] eqn:Hjoin.
    + intros [= <- <-]. split_and!.
      * intros [|n] g0; [|done]. intros [= <-]. exists batch. by rewrite Hstart.
      * by intros g0 [= <-].
      * done.
      * intros metadatas Hm. congruence.
      * intros e' He'. exists g. split; [done|congruence].
      * intros g0 e0 ->%list_elem_of_singleton He0. split; [done|congruence].
      * cbn [concat]. rewrite length_app. lia.
    + destruct (fetch_groups env cfg (settled_at (g_join g)) rest) as [gs p'] eqn:Hrest.
      destruct (IH _ _ _ Hrest) as (Hb & H0 & Hseq & Hful & Hrej & Hlastrej & Hcnt).
      intros [= <- <-]. cbn [p_events settled settled_at].
      split_and!.
      * intros [|n] g0; cbn.
        -- intros [= <-]. exists batch. by rewrite Hstart.
        -- apply Hb.
      * by intros g0 [= <-].
      * intros [|n] g0 g1; cbn.
        -- intros [= <-] Hg1. split; [eauto|]. by apply H0.
        -- apply Hseq.
      * intros metadatas Hmd.
        destruct (settled p') as [e'|ms] eqn:Hp'; [done|].
        injection Hmd as <-.
        destruct (Hful ms eq_refl) as (Hlen' & Hall & Hgs).
        destruct (Hok m eq_refl) as (Hall0 & _).
        split_and!.
        -- cbn. by rewrite Hlen'.
        -- cbn. by apply Forall2_app.
        -- intros g0 [->|Hin]%elem_of_cons; eauto.
      * intros e He.
        destruct (settled p') as [e'|ms] eqn:Hp'; [|done].
        injection He as ->.
        destruct (Hrej e eq_refl) as (g0 & Hlast & Hg0).
        exists g0. split; [|done].
        destruct gs; [done|]. done.
      * intros g0 e0 [->|Hin]%elem_of_cons He0; [congruence|].
        destruct (Hlastrej g0 e0 Hin He0) as [Hlast Hp'].
        rewrite Hp'. split; [|done].
        destruct gs; [done|]. done.
      * unfold fetched in *. cbn [concat].
        rewrite omap_app, !length_app. lia.
Qed.

(** ** Merging the documents into the tokens *)

Lemma update_token_twice h l f g :
  update_token (update_token h l f) l g = update_token h l (g ∘ f).
Proof. unfold update_token. cbn. f_equal. apply list_alter_alter_eq. Qed.

Lemma merge_token_eq tokenURIs metadatas h i token :
  merge_token tokenURIs metadatas h i token =
    (update_token h token (merge_fields tokenURIs metadatas i),
     merge_error metadatas i).
Proof.
  unfold merge_token, merge_fields, merge_error.
  destruct (optional_image (mjoin (metadatas !! i))) as [e|img]; [done|].
  destruct (optional_attributes (mjoin (metadatas !! i))) as [e|attrs];
    rewrite !update_token_twice; done.
Qed.

Lemma merge_fields_frame tokenURIs metadatas i tok :
  tok_id (merge_fields tokenURIs metadatas i tok) = tok_id tok
  /\ tok_index (merge_fields tokenURIs metadatas i tok) = tok_index tok
  /\ tok_owner (merge_fields tokenURIs metadatas i tok) = tok_owner tok
  /\ tok_uri (merge_fields tokenURIs metadatas i tok) = tokenURIs !! i.
Proof.
  unfold merge_fields.
  destruct (optional_image _); [done|]. by destruct (optional_attributes _).
Qed.

(** The loop from position [i] on, over distinct token objects: it leaves
    the other objects alone, and each of its tokens either merged or, when
    it has stopped with an error before, untouched. *)
Lemma merge_from_spec tokenURIs metadatas (tokens : list loc) :
  forall h i h' err,
  merge_from tokenURIs metadatas h i tokens = (h', err) ->
  NoDup tokens ->
  owners_h h' = owners_h h
  /\ length (tokens_h h') = length (tokens_h h)
  /\ (forall l, l ∉ tokens -> tokens_h h' !! l = tokens_h h !! l)
  /\ (forall j l, tokens !! j = Some l ->
        tokens_h h' !! l = merge_fields tokenURIs metadatas (i + j) <$> tokens_h h !! l
        \/ (err <> None /\ tokens_h h' !! l = tokens_h h !! l))
  /\ (err = None -> forall j l, tokens !! j = Some l ->
        merge_error metadatas (i + j) = None
        /\ tokens_h h' !! l = merge_fields tokenURIs metadatas (i + j) <$> tokens_h h !! l)
  /\ (forall e, err = Some e ->
        exists j, (j < length tokens)%nat /\ merge_error metadatas (i + j) = Some e).
Proof.
  induction tokens as [|token rest IH]; intros h i h' err; cbn [merge_from].
  - intros [= <- <-] _. split_and!; try done.
  - rewrite merge_token_eq. intros Hrun [Hnotin Hnd]%NoDup_cons.
    destruct (merge_error metadatas i) as [e|] eqn:Herr.
    + injection Hrun as <- <-. split_and!; try done.
      * cbn. by rewrite length_alter.
      * intros l [Hne _]%not_elem_of_cons.
        by rewrite lookup_update_token, decide_False.
      * intros [|j] l; cbn -[update_token merge_fields].
        -- intros [= <-]. left.
           by rewrite lookup_update_token, decide_True, Nat.add_0_r.
        -- intros Hj. right. split; [done|].
           rewrite lookup_update_token, decide_False; [done|].
           intros ->. apply Hnotin. by eapply list_elem_of_lookup_2.
      * intros e' [= <-]. exists 0%nat. cbn. rewrite Nat.add_0_r. split; [lia|done].
    + destruct (IH _ _ _ _ Hrun Hnd) as (Hown & Hlen & Hother & Hpos & Hok & Hfail).
      split_and!.
      * done.
      * rewrite Hlen. cbn. by rewrite length_alter.
      * intros l [Hne Hl]%not_elem_of_cons.
        rewrite (Hother l Hl). by rewrite lookup_update_token, decide_False.
      * intros [|j] l; cbn -[update_token merge_fields].
        -- intros [= <-]. left. rewrite (Hother token Hnotin).
           by rewrite lookup_update_token, decide_True, Nat.add_0_r.
        -- intros Hj.
           assert (token <> l).
           { intros ->. apply Hnotin. by eapply list_elem_of_lookup_2. }
           destruct (Hpos j l Hj) as [Hm|[He Hm]].
           ++ left. rewrite Hm, lookup_update_token, decide_False by done.
              by replace (i + S j)%nat with (S i + j)%nat by lia.
           ++ right. split; [done|].
              by rewrite Hm, lookup_update_token, decide_False.
      * intros -> [|j] l; cbn -[update_token merge_fields].
        -- intros [= <-]. rewrite Nat.add_0_r. split; [done|].
           rewrite (Hother token Hnotin).
           by rewrite lookup_update_token, decide_True.
        -- intros Hj.
           assert (token <> l).
           { intros ->. apply Hnotin. by eapply list_elem_of_lookup_2. }
           destruct (Hok eq_refl j l Hj) as [He Hm].
           replace (i + S j)%nat with (S i + j)%nat by lia. split; [done|].
           by rewrite Hm, lookup_update_token, decide_False.
      * intros e He. destruct (Hfail e He) as (j & Hj & Hej).
        exists (S j). cbn. split; [lia|].
        by replace (i + S j)%nat with (S i + j)%nat by lia.
Qed.

(** ** [splitIntoBatches] for any batch size *)

Lemma splitIntoBatches_loop_diverges {T} (fuel : nat) (l : list T) m off :
  m <= 0 -> off <= 0 -> Z.of_nat (length l) - off > m ->
  (splitIntoBatches_loop fuel l m off).2 = false.
Proof.
  intros Hm. revert off. induction fuel as [|fuel IH]; intros off Hoff Hgt; [done|].
  rewrite splitIntoBatches_loop_step.
  destruct (Z.gtb_spec (Z.of_nat (length l) - off) m); [|lia].
  specialize (IH (off + m) ltac:(lia) ltac:(lia)).
  by destruct (splitIntoBatches_loop fuel l m (off + m)).
Qed.

(** Whenever the generator returns, its chunks make up the list. *)
Lemma splitIntoBatches_concat {T} (fuel : nat) (l : list T) m chunks :
  splitIntoBatches fuel l m = (chunks, true) -> concat chunks = l.
Proof.
  intros Hrun. destruct (Z.le_gt_cases 1 m) as [Hm|Hm].
  - destruct (splitIntoBatches_ok l m Hm) as (chunks0 & Hall & Hcat & _).
    specialize (Hall (max fuel (length l)) ltac:(lia)).
    unfold splitIntoBatches in *.
    destruct (Z.of_nat (length l) <=? m); [congruence|].
    apply (splitIntoBatches_loop_fuel fuel (max fuel (length l))) in Hrun; [|lia].
    congruence.
  - unfold splitIntoBatches in Hrun.
    destruct (Z.leb_spec (Z.of_nat (length l)) m).
    + injection Hrun as <-. cbn. by rewrite app_nil_r.
    + pose proof (splitIntoBatches_loop_diverges fuel l m 0 ltac:(lia) ltac:(lia)
                    ltac:(lia)) as Hdiv.
      by rewrite Hrun in Hdiv.
Qed.

Lemma length_slice {T} (l : list T) a b : (length (JS.slice l a b) <= length l)%nat.
Proof. unfold JS.slice. cbv zeta. rewrite length_take, length_drop. lia. Qed.

Lemma slice_backwards {T} (l : list T) off m :
  off < 0 -> m <= 0 -> JS.slice l off (off + m) = [].
Proof.
  intros Hoff Hm. unfold JS.slice, JS.rel_index. cbv zeta.
  destruct (Z.ltb_spec off 0); [|lia].
  destruct (Z.ltb_spec (off + m) 0); [|lia].
  replace (Z.to_nat _) with 0%nat by lia. done.
Qed.

(** However long the generator runs and whatever the batch size, what it
    yields has no more items than the list. *)
Lemma splitIntoBatches_loop_length {T} (fuel : nat) (l : list T) m off :
  (0 <= m -> 0 <= off <= Z.of_nat (length l) ->
     Z.of_nat (length (concat (splitIntoBatches_loop fuel l m off).1))
       <= Z.of_nat (length l) - off)
  /\ (m < 0 -> off < 0 -> concat (splitIntoBatches_loop fuel l m off).1 = []).
Proof.
  revert off. induction fuel as [|fuel IH]; intros off.
  { cbn. split; [lia|done]. }
  rewrite splitIntoBatches_loop_step.
  destruct (IH (off + m)) as [IHpos IHneg].
  destruct (splitIntoBatches_loop fuel l m (off + m)) as [chunks r]. cbn [fst] in *.
  split.
  - intros Hm Hoff.
    destruct (Z.gtb_spec (Z.of_nat (length l) - off) m); cbn [fst concat].
    + rewrite length_app, slice_drop_take by lia.
      rewrite length_take, length_drop.
      specialize (IHpos Hm ltac:(lia)). lia.
    + rewrite app_nil_r, slice_from_drop by lia. rewrite length_drop. lia.
  - intros Hm Hoff.
    destruct (Z.gtb_spec (Z.of_nat (length l) - off) m); [|lia]. cbn [fst concat].
    rewrite slice_backwards by lia. cbn. apply IHneg; lia.
Qed.

Lemma splitIntoBatches_length {T} (fuel : nat) (l : list T) m :
  (length (concat (splitIntoBatches fuel l m).1) <= length l)%nat.
Proof.
  unfold splitIntoBatches.
  destruct (Z.leb_spec (Z.of_nat (length l)) m).
  { cbn. rewrite app_nil_r. lia. }
  destruct (Z.le_gt_cases 0 m) as [Hm|Hm].
  - destruct (splitIntoBatches_loop_length fuel l m 0) as [Hpos _].
    specialize (Hpos Hm ltac:(lia)). lia.
  - destruct fuel as [|fuel]; [cbn; lia|].
    rewrite splitIntoBatches_loop_step.
    destruct (Z.gtb_spec (Z.of_nat (length l) - 0) m); [|lia].
    destruct (splitIntoBatches_loop_length fuel l m (0 + m)) as [_ Hneg].
    specialize (Hneg Hm ltac:(lia)).
    destruct (splitIntoBatches_loop fuel l m (0 + m)) as [chunks r].
    cbn [fst concat] in *. rewrite Hneg, app_nil_r. apply length_slice.
Qed.

(** ** Call aggregation *)

Lemma concat_pages {A} (fuel page : nat) (l : list A) :
  (0 < page)%nat -> (length l <= fuel)%nat -> concat (pages fuel page l) = l.
Proof.
  intros Hpage. revert l. induction fuel as [|fuel IH]; intros [|x l] Hlen;
    cbn [pages]; try done.
  - cbn in Hlen. lia.
  - cbn [concat]. rewrite IH.
    + apply take_drop.
    + rewrite length_drop. cbn in *. lia.
Qed.

Lemma aggregate_pages_spec env block (chunks : list (list Z)) :
  forall t,
  let p := aggregate_pages env t block chunks in
  (forall results, settled p = inr results ->
     results = tokenURI env block <$> concat chunks)
  /\ fetched (p_events p) = []
  /\ (chunks = [] -> p_events p = []).
Proof.
  induction chunks as [|chunk rest IH]; intros t; cbn.
  - split_and!; try done. by intros results [= <-].
  - destruct (rpc_error (eth_call env t block chunk)); cbn.
    + done.
    + destruct (IH (t + Z.of_N (rpc_latency (eth_call env t block chunk))))
        as (Hres & Hev & _).
      split_and!; try done.
      intros results. destruct (settled _) as [e|rs]; [done|].
      intros [= <-]. by rewrite (Hres rs eq_refl), fmap_app.
Qed.

(** The aggregate answers one URI per call, in the order of the calls. *)
Lemma aggregate_spec env t block (calls : list Z) maxBatchSize :
  let p := aggregate env t block calls maxBatchSize in
  (forall results, settled p = inr results -> results = tokenURI env block <$> calls)
  /\ fetched (p_events p) = []
  /\ (calls = [] -> p_events p = [] /\ settled p = inr []).
Proof.
  unfold aggregate.
  destruct (aggregate_pages_spec env block
              (pages (length calls) (Z.to_nat (Z.max 1 maxBatchSize)) calls) t)
    as (Hres & Hev & Hnil).
  split_and!; try done.
  - intros results Hr. rewrite (Hres results Hr).
    rewrite concat_pages; [done|lia|done].
  - by intros ->.
Qed.

(** ** [initTokens] *)

(** A run of [initTokens] either leaves the heap as it was and does not
    return, or has fetched a document for every URI of the aggregate and has
    gone through the merge loop. *)
Lemma initTokens_spec env cfg ctx now h (tokens : list loc) :
  let ir := initTokens env cfg ctx now h tokens in
  ((ir_heap ir = h /\ ir_outcome ir <> Returned tt)
   \/ (exists block metadatas err,
         last (blocks ctx) = Some block
         /\ ir_tokenURIs ir = tokenURI env block <$> (index_at h <$> tokens)
         /\ Forall2 (fetched_as env cfg) (ir_tokenURIs ir) metadatas
         /\ merge_from (ir_tokenURIs ir) metadatas h 0 tokens = (ir_heap ir, err)
         /\ ir_outcome ir = match err with Some e => Raised e | None => Returned tt end))
  /\ (length (fetched (ir_events ir)) <= length tokens)%nat
  /\ (tokens = [] -> ir_events ir = []).
Proof.
  unfold initTokens.
  destruct (last (blocks ctx)) as [block|]; cbn zeta.
  2: { ir_simpl. split_and!; [by left|cbn; lia|done]. }
  destruct (aggregate_spec env now block (index_at h <$> tokens) (MUTLTICALL_BATCH_SIZE cfg))
    as (Hres & Hnofetch & Hnil).
  destruct (settled (aggregate env now block (index_at h <$> tokens)
                       (MUTLTICALL_BATCH_SIZE cfg))) as [e|tokenURIs] eqn:Hagg.
  { ir_simpl. split_and!; [by left|rewrite Hnofetch; cbn; lia|].
    intros ->. by destruct (Hnil eq_refl). }
  specialize (Hres tokenURIs eq_refl).
  assert (Hlen : length tokenURIs = length tokens) by by rewrite Hres, !length_fmap.
  unfold fetch_all.
  pose proof (splitIntoBatches_length (length tokenURIs) tokenURIs (MAX_IPFS_REQ_SEC cfg))
    as Hsum.
  destruct (splitIntoBatches (length tokenURIs) tokenURIs (MAX_IPFS_REQ_SEC cfg))
    as [batches returned] eqn:Hsplit.
  cbn [fst] in Hsum.
  destruct (fetch_groups env cfg _ batches) as [groups p] eqn:Hfetch.
  destruct (fetch_groups_spec env cfg batches _ _ _ Hfetch)
    as (_ & _ & _ & Hful & _ & _ & Hcnt).
  assert (Hev : (length (fetched (p_events (aggregate env now block
                    (index_at h <$> tokens) (MUTLTICALL_BATCH_SIZE cfg)) ++ p_events p))
                 <= length tokens)%nat).
  { unfold fetched in *. rewrite omap_app, length_app, Hnofetch. cbn. lia. }
  assert (Hnone : tokens = [] ->
            p_events (aggregate env now block (index_at h <$> tokens)
                        (MUTLTICALL_BATCH_SIZE cfg)) ++ p_events p = []).
  { intros ->. destruct (Hnil eq_refl) as [-> _]. cbn.
    cbn in Hres. subst tokenURIs.
    unfold splitIntoBatches in Hsplit. cbn [length] in Hsplit.
    destruct (Z.of_nat 0 <=? MAX_IPFS_REQ_SEC cfg).
    - injection Hsplit as <- <-. cbn in Hfetch. by injection Hfetch as <- <-.
    - injection Hsplit as <- <-. cbn in Hfetch. by injection Hfetch as <- <-. }
  destruct (settled p) as [e|metadatas] eqn:Hp.
  { ir_simpl. split_and!; [by left|done|done]. }
  destruct returned.
  2: { ir_simpl. split_and!; [by left|done|done]. }
  apply splitIntoBatches_concat in Hsplit as Hcat.
  destruct (Hful metadatas eq_refl) as (_ & Hall & _).
  rewrite Hcat in Hall.
  destruct (merge_from tokenURIs metadatas h 0 tokens) as [h' err] eqn:Hmerge.
  ir_simpl. split_and!; [|done|done].
  right. exists block, metadatas, err. by split_and!.
Qed.

(** ** The pipeline *)

(** The tokens handed to [initTokens]: distinct objects, each as its
    constructor left it. *)
Lemma new_token_objects store transfersData :
  let st := resolve store transfersData in
  NoDup (r_newTokens st)
  /\ forall i l, r_newTokens st !! i = Some l ->
       exists tok, tokens_h (r_heap st) !! l = Some tok /\ unenriched tok
         /\ JSMap.get (tok_id tok) (r_tokens st) = Some l.
Proof.
  destruct (resolve_spec store transfersData) as (Hwf & _).
  destruct Hwf as [_ _ _ _ Hnd Hrange Hobj _].
  split; [done|]. intros i l Hl.
  apply list_elem_of_lookup_2, Hrange in Hl as [Hn0 Hlt].
  destruct (lookup_lt_is_Some_2 _ _ Hlt) as [tok Htok].
  destruct (Hobj l tok Hn0 Htok). eauto.
Qed.

Lemma merge_fields_no_document tokenURIs metadatas i tok :
  mjoin (metadatas !! i) = None -> unenriched tok ->
  tok_image (merge_fields tokenURIs metadatas i tok) = None
  /\ tok_attributes (merge_fields tokenURIs metadatas i tok) = None.
Proof. unfold merge_fields. by intros -> (_ & _ & ? & ?). Qed.

Lemma fetched_as_other_scheme env cfg uri v :
  scheme uri <> "ipfs" -> scheme uri <> "http" -> scheme uri <> "https" ->
  fetched_as env cfg uri v -> v = None.
Proof.
  intros H1 H2 H3 [t Ht].
  rewrite (fetchTokenMetadata_other_scheme env cfg t uri H1 H2 H3) in Ht.
  by injection Ht.
Qed.

(** C7: for every URI whose scheme is neither [ipfs] nor [http] nor [https]
    (such as [ftp://x]), [fetchTokenMetadata] is fulfilled with [undefined]
    at once, having only logged a warning, and raises nothing; and the token
    of a batch that has this URI ends with its image and its attributes
    unset, however the batch ends. *)
Theorem unsupported_scheme_is_skipped (env : Env) (cfg : Config) (ctx : Context)
    (now : Z) (store : Store) (transfersData : list TransferEvent) (uri : string) :
  scheme uri <> "ipfs" -> scheme uri <> "http" -> scheme uri <> "https" ->
  (forall t, fetchTokenMetadata env cfg t uri =
     {| p_events := [LogWarn t ("Unexpected metadata URL protocol: " +:+ uri)];
        settled_at := t; settled := inr None |})
  /\ let run := processTransfers env cfg ctx now store transfersData in
     forall i token,
       r_newTokens (run_resolved run) !! i = Some token ->
       ir_tokenURIs (run_init run) !! i = Some uri ->
       exists tok,
         tokens_h (ir_heap (run_init run)) !! token = Some tok
         /\ tok_image tok = None /\ tok_attributes tok = None.
Proof.
  intros H1 H2 H3. split.
  { intros t. by apply fetchTokenMetadata_other_scheme. }
  cbn [processTransfers run_resolved run_init]. intros i token Hi Huri.
  destruct (new_token_objects store transfersData) as [Hnd Hobj].
  destruct (Hobj i token Hi) as (tok0 & Htok0 & Hun & _).
  destruct (initTokens_spec env cfg ctx now (r_heap (resolve store transfersData))
              (r_newTokens (resolve store transfersData)))
    as ([[-> _]|(block & metadatas & err & _ & _ & Hall & Hmerge & _)] & _).
  { exists tok0. by destruct Hun as (_ & _ & ? & ?). }
  destruct (merge_from_spec _ _ _ _ _ _ _ Hmerge Hnd) as (_ & _ & _ & Hpos & _).
  destruct (Hpos i token Hi) as [Hm|[_ Hm]]; rewrite Hm, Htok0; cbn.
  - eexists. split; [done|]. apply merge_fields_no_document; [|done].
    destruct (Forall2_lookup_l _ _ _ _ _ Hall Huri) as (v & -> & Hv).
    cbn. by eapply fetched_as_other_scheme.
  - exists tok0. by destruct Hun as (_ & _ & ? & ?).
Qed.

(** C10: for every newly discovered token at position [i], once the
    enrichment has completed the token's [uri] is the [i]-th decoded result
    of the multicall, that is [tokenURI] of its index at the last block of
    the batch; this holds with no condition on the URI, also when its scheme
    is not supported, the fetch was skipped and image and attributes stay
    unset. *)
Theorem new_token_uri_is_multicall_result (env : Env) (cfg : Config)
    (ctx : Context) (now : Z) (store : Store) (transfersData : list TransferEvent)
    (i : nat) (token : loc) :
  let run := processTransfers env cfg ctx now store transfersData in
  run_outcome run = Returned tt ->
  r_newTokens (run_resolved run) !! i = Some token ->
  exists block tok uri,
    last (blocks ctx) = Some block
    /\ tokens_h (ir_heap (run_init run)) !! token = Some tok
    /\ ir_tokenURIs (run_init run) !! i = Some uri
    /\ uri = tokenURI env block (tok_index tok)
    /\ tok_uri tok = Some uri
    /\ (scheme uri <> "ipfs" -> scheme uri <> "http" -> scheme uri <> "https" ->
          tok_image tok = None /\ tok_attributes tok = None).
Proof.
  cbn [processTransfers run_resolved run_init run_outcome]. intros Hret Hi.
  destruct (new_token_objects store transfersData) as [Hnd Hobj].
  destruct (Hobj i token Hi) as (tok0 & Htok0 & Hun & _).
  destruct (initTokens_spec env cfg ctx now (r_heap (resolve store transfersData))
              (r_newTokens (resolve store transfersData)))
    as ([[_ Hne]|(block & metadatas & err & Hblock & Huris & Hall & Hmerge & Hout)] & _);
    [done|].
  rewrite Hout in Hret. destruct err as [e|]; [done|].
  destruct (merge_from_spec _ _ _ _ _ _ _ Hmerge Hnd) as (_ & _ & _ & _ & Hok & _).
  destruct (Hok eq_refl i token Hi) as [_ Hm]. cbn in Hm.
  rewrite Htok0 in Hm. cbn in Hm.
  destruct (merge_fields_frame (ir_tokenURIs (initTokens env cfg ctx now
              (r_heap (resolve store transfersData))
              (r_newTokens (resolve store transfersData)))) metadatas i tok0)
    as (_ & Hidx & _ & Huri).
  assert (Hith : ir_tokenURIs (initTokens env cfg ctx now
              (r_heap (resolve store transfersData))
              (r_newTokens (resolve store transfersData))) !! i
            = Some (tokenURI env block (tok_index tok0))).
  { rewrite Huris, !list_lookup_fmap, Hi. cbn. unfold index_at. by rewrite Htok0. }
  eexists block, _, _. split_and!; try done.
  - by rewrite Hidx.
  - by rewrite Huri.
  - intros H1 H2 H3. apply merge_fields_no_document; [|done].
    destruct (Forall2_lookup_l _ _ _ _ _ Hall Hith) as (v & -> & Hv).
    cbn. by eapply fetched_as_other_scheme.
Qed.

(** ** What a run asks of the chain and of the gateway *)

Lemma called_nil (events : list Event) :
  (forall ev, ev ∈ events -> eth_calls ev = None) -> called events = [].
Proof.
  unfold called. induction events as [|ev events IH]; intros Hall; [done|].
  cbn. rewrite (Hall ev) by left. apply IH. intros ev' Hin. apply Hall. by right.
Qed.

Lemma fetchTokenMetadata_no_call env cfg t uri ev :
  ev ∈ p_events (fetchTokenMetadata env cfg t uri) -> eth_calls ev = None.
Proof.
  unfold fetchTokenMetadata, get_and_log.
  repeat match goal with
         | |- context [if ?b then _ else _] => destruct b
         | |- context [match ?x with _ => _ end] => destruct x
         end; cbn; intros Hin;
    repeat (apply elem_of_cons in Hin as [->|Hin]; [done|]);
    by apply elem_of_nil in Hin.
Qed.

Lemma fetch_groups_no_call env cfg (batches : list (list string)) :
  forall t groups p,
  fetch_groups env cfg t batches = (groups, p) ->
  forall ev, ev ∈ p_events p -> eth_calls ev = None.
Proof.
  induction batches as [|batch rest IH]; intros t groups p; cbn [fetch_groups].
  - intros [= <- <-] ev []%elem_of_nil.
  - assert (Hg : forall ev, ev ∈ p_events (g_join (run_group env cfg t batch)) ->
              eth_calls ev = None).
    { intros ev Hin.
      apply (promise_all_spec t (it_promise <$> g_items (run_group env cfg t batch)))
        in Hin.
      apply list_elem_of_bind in Hin as (pr & Hev & (item & -> & Hitem)%list_elem_of_fmap).
      apply list_elem_of_lookup in Hitem as [K HK].
      apply run_group_items in HK as (uri & _ & ->). cbn in Hev.
      by eapply fetchTokenMetadata_no_call. }
    destruct (settled (g_join (run_group env cfg t batch))) as [e|m].
    + intros [= <- <-]. done.
    + destruct (fetch_groups env cfg _ rest) as [gs p'] eqn:Hrest.
      intros [= <- <-] ev. cbn. intros [Hin|Hin]%elem_of_app; [by apply Hg|].
      by eapply IH.
Qed.

Lemma aggregate_pages_calls env block (chunks : list (list Z)) t :
  concat (called (p_events (aggregate_pages env t block chunks)))
    `prefix_of` concat chunks.
Proof.
  revert t. induction chunks as [|chunk rest IH]; intros t; cbn; [done|].
  destruct (rpc_error (eth_call env t block chunk)); cbn.
  - rewrite app_nil_r. by apply prefix_app_r.
  - by apply prefix_app.
Qed.

(** The calls aggregated by a run of [initTokens] are the indices of its
    tokens, in order, as far as the aggregate got. *)
Lemma initTokens_calls env cfg ctx now h (tokens : list loc) :
  concat (called (ir_events (initTokens env cfg ctx now h tokens)))
    `prefix_of` (index_at h <$> tokens).
Proof.
  unfold initTokens.
  destruct (last (blocks ctx)) as [block|]; [|apply prefix_nil].
  assert (Hagg : concat (called (p_events (aggregate env now block
              (index_at h <$> tokens) (MUTLTICALL_BATCH_SIZE cfg))))
            `prefix_of` (index_at h <$> tokens)).
  { unfold aggregate. etrans; [apply aggregate_pages_calls|].
    rewrite concat_pages; [done|lia|done]. }
  destruct (settled (aggregate env now block _ _)) as [e|tokenURIs]; [done|].
  unfold fetch_all.
  destruct (splitIntoBatches _ tokenURIs _) as [batches returned].
  destruct (fetch_groups env cfg _ batches) as [groups p] eqn:Hfetch.
  assert (Hev : concat (called (p_events (aggregate env now block
              (index_at h <$> tokens) (MUTLTICALL_BATCH_SIZE cfg)) ++ p_events p))
            `prefix_of` (index_at h <$> tokens)).
  { unfold called in *. rewrite omap_app.
    fold (called (p_events p)).
    rewrite (called_nil (p_events p)), app_nil_r; [done|].
    by eapply fetch_groups_no_call. }
  destruct (settled p) as [e|metadatas]; [done|].
  destruct returned; [|done].
  by destruct (merge_from _ _ _ _ _).
Qed.

(** C2: enrichment is attempted only for the tokens constructed during the
    batch.  [newTokens] holds exactly the token objects made by the resolver
    loop, each once, and none of them has a row in storage; the calls
    aggregated are the indices of these tokens in order, and there are no
    more fetches than new tokens, so a token that several transfers of the
    batch are about is enriched at most once.  When every token of the batch
    has a row in storage, [newTokens] is empty and the run makes no call and
    no fetch at all. *)
Theorem enrichment_only_for_new_tokens (env : Env) (cfg : Config) (ctx : Context)
    (now : Z) (store : Store) (transfersData : list TransferEvent) :
  let run := processTransfers env cfg ctx now store transfersData in
  let st := run_resolved run in
  NoDup (r_newTokens st)
  /\ (forall l, l ∈ r_newTokens st <->
        (length (tokens_h (r_heap (load store transfersData))) <= l
           < length (tokens_h (r_heap st)))%nat)
  /\ (forall l tok, l ∈ r_newTokens st -> tokens_h (r_heap st) !! l = Some tok ->
        (tok_id tok ∉ (row_id <$> token_table store))
        /\ JSMap.get (tok_id tok) (r_tokens st) = Some l)
  /\ concat (called (ir_events (run_init run)))
       `prefix_of` (index_at (r_heap st) <$> r_newTokens st)
  /\ (length (fetched (ir_events (run_init run))) <= length (r_newTokens st))%nat
  /\ ((forall td, td ∈ transfersData -> tokenId td ∈ (row_id <$> token_table store)) ->
        r_newTokens st = [] /\ ir_events (run_init run) = []).
Proof.
  cbn [processTransfers run_resolved run_init].
  destruct (resolve_spec store transfersData)
    as (Hwf & _ & _ & _ & _ & Hnone & Hfresh).
  destruct (initTokens_spec env cfg ctx now (r_heap (resolve store transfersData))
              (r_newTokens (resolve store transfersData))) as (_ & Hcnt & Hnil).
  split_and!.
  - apply Hwf.
  - apply Hwf.
  - intros l tok Hl Htok. split; [by eapply Hfresh|].
    apply (wf_new_range _ _ Hwf) in Hl as [Hn0 _].
    by apply (wf_new_obj _ _ Hwf).
  - apply initTokens_calls.
  - done.
  - intros Hall. specialize (Hnone Hall). split; [done|]. by apply Hnil.
Qed.

(** ** Failing fetches *)

Lemma fetchTokenMetadata_request env cfg t uri url :
  request_url cfg uri = Some url ->
  (forall e, reply (http_get env t url) = inl e ->
     settled (fetchTokenMetadata env cfg t uri) = inl (fetch_failure uri e))
  /\ (forall v, reply (http_get env t url) = inr v ->
        settled (fetchTokenMetadata env cfg t uri) = inr v)
  /\ fetched (p_events (fetchTokenMetadata env cfg t uri)) = [url].
Proof.
  unfold request_url, fetchTokenMetadata.
  destruct (startsWith uri "ipfs://").
  - destruct (ipfsRegExp_exec uri) as [m|]; [|done]. intros [= <-].
    destruct (get_and_log_spec env t uri (Path.join [IPFS_GATEWAY cfg; m]))
      as (_ & _ & ? & ? & ? & _). done.
  - destruct (startsWith uri "http://" || startsWith uri "https://"); [|done].
    intros [= <-].
    destruct (get_and_log_spec env t uri uri) as (_ & _ & ? & ? & ? & _). done.
Qed.

(** A group whose join is rejected is the last one of the run, and the run
    ends with that rejection, the heap as the resolver left it. *)
Lemma initTokens_rejected env cfg ctx now h (tokens : list loc) :
  let ir := initTokens env cfg ctx now h tokens in
  (forall g, g ∈ ir_groups ir -> exists t batch, g = run_group env cfg t batch)
  /\ (forall g e, g ∈ ir_groups ir -> settled (g_join g) = inl e ->
        last (ir_groups ir) = Some g /\ ir_outcome ir = Raised e /\ ir_heap ir = h).
Proof.
  unfold initTokens.
  destruct (last (blocks ctx)) as [block|]; cbn zeta.
  2: { ir_simpl. split; [by intros g ?%elem_of_nil | by intros g e ?%elem_of_nil]. }
  destruct (settled (aggregate env now block _ _)) as [e|tokenURIs].
  { ir_simpl. split; [by intros g ?%elem_of_nil | by intros g e0 ?%elem_of_nil]. }
  unfold fetch_all.
  destruct (splitIntoBatches _ tokenURIs _) as [batches returned].
  destruct (fetch_groups env cfg _ batches) as [groups p] eqn:Hfetch.
  destruct (fetch_groups_spec env cfg batches _ _ _ Hfetch)
    as (Hb & _ & _ & Hful & _ & Hrej & _).
  assert (Hgroups : forall g, g ∈ groups -> exists t batch, g = run_group env cfg t batch).
  { intros g [n Hn]%list_elem_of_lookup.
    destruct (Hb n g Hn) as (batch & _ & ->). eauto. }
  destruct (settled p) as [e|metadatas] eqn:Hp.
  - ir_simpl. split; [done|]. intros g e0 Hin He0.
    destruct (Hrej g e0 Hin He0) as [Hlast [= ->]]. done.
  - assert (Hnot : forall g e0, g ∈ groups -> settled (g_join g) = inl e0 -> False).
    { intros g e0 Hin He0. by destruct (Hrej g e0 Hin He0) as [_ ?]. }
    destruct returned; [destruct (merge_from _ _ _ _ _) as [h' err]|];
      ir_simpl; (split; [done|]); intros g e0 Hin He0; by destruct (Hnot g e0).
Qed.

(** The run ends at the moment the join is rejected. *)
Lemma fetch_groups_rejected_at env cfg (batches : list (list string)) :
  forall t groups p g e,
  fetch_groups env cfg t batches = (groups, p) ->
  g ∈ groups -> settled (g_join g) = inl e ->
  settled_at p = settled_at (g_join g).
Proof.
  induction batches as [|batch rest IH]; intros t groups p g e; cbn [fetch_groups].
  - by intros [= <- <-] ?%elem_of_nil.
  - destruct (settled (g_join (run_group env cfg t batch))) as [e0|m] eqn:Hjoin.
    + by intros [= <- <-] ->%list_elem_of_singleton.
    + destruct (fetch_groups env cfg _ rest) as [gs p'] eqn:Hrest.
      intros [= <- <-] [->|Hin]%elem_of_cons He; [congruence|].
      cbn [settled_at]. by eapply IH.
Qed.

Lemma initTokens_rejected_at env cfg ctx now h (tokens : list loc) g e :
  let ir := initTokens env cfg ctx now h tokens in
  g ∈ ir_groups ir -> settled (g_join g) = inl e ->
  ir_end ir = settled_at (g_join g).
Proof.
  unfold initTokens.
  destruct (last (blocks ctx)) as [block|]; cbn zeta.
  2: { ir_simpl. by intros ?%elem_of_nil. }
  destruct (settled (aggregate env now block _ _)) as [e0|tokenURIs].
  { ir_simpl. by intros ?%elem_of_nil. }
  unfold fetch_all.
  destruct (splitIntoBatches _ tokenURIs _) as [batches returned].
  destruct (fetch_groups env cfg _ batches) as [groups p] eqn:Hfetch.
  pose proof (fetch_groups_rejected_at env cfg batches _ _ _ g e Hfetch) as Hat.
  destruct (settled p) as [e0|metadatas]; [by ir_simpl|].
  destruct returned; [destruct (merge_from _ _ _ _ _) as [h' err]|]; by ir_simpl.
Qed.

(** A call of [fetchTokenMetadata] that gets as far as a request makes it at
    the moment of the call. *)
Lemma fetchTokenMetadata_get env cfg t uri url :
  request_url cfg uri = Some url ->
  HttpGet t url ∈ p_events (fetchTokenMetadata env cfg t uri).
Proof.
  unfold request_url, fetchTokenMetadata, get_and_log.
  destruct (startsWith uri "ipfs://").
  - destruct (ipfsRegExp_exec uri) as [m|]; [|done]. intros [= <-].
    destruct (reply (http_get env t _)); left.
  - destruct (startsWith uri "http://" || startsWith uri "https://"); [|done].
    intros [= <-]. destruct (reply (http_get env t _)); left.
Qed.

(** C8, as the code has it.  For every URI whose fetch fails,
    [fetchTokenMetadata] raises an error whose message contains this URI.
    The join of the group is rejected with the error of the item of the
    group that fails first, at the moment that item fails and without
    waiting for the others (this very item when no other of the group
    fails); the run of [processTransfers] ends then and with that error, the
    group is the last one made, no document is merged into any token and
    nothing is written to the store.  The other items of the group are not
    aborted: each of them is a timer set when the group was made, and when
    it fires, be it after the rejection, [fetchTokenMetadata] is called and
    makes its request, if its URI leads to one. *)
Theorem fetch_failure_aborts_batch (env : Env) (cfg : Config) (ctx : Context)
    (now : Z) (store : Store) (transfersData : list TransferEvent)
    (g : Group) (item : Item) (url : string) (e : exn) :
  let run := processTransfers env cfg ctx now store transfersData in
  g ∈ ir_groups (run_init run) -> item ∈ g_items g ->
  request_url cfg (it_uri item) = Some url ->
  reply (http_get env (it_start item) url) = inl e ->
  settled (it_promise item) = inl (fetch_failure (it_uri item) e)
  /\ contains (exn_message (fetch_failure (it_uri item) e)) (it_uri item)
  /\ last (ir_groups (run_init run)) = Some g
  /\ (exists item' e',
        item' ∈ g_items g
        /\ settled (it_promise item') = inl (fetch_failure (it_uri item') e')
        /\ settled_at (it_promise item') <= settled_at (it_promise item)
        /\ settled (g_join g) = inl (fetch_failure (it_uri item') e')
        /\ settled_at (g_join g) = settled_at (it_promise item')
        /\ (forall item'' e'', item'' ∈ g_items g ->
              settled (it_promise item'') = inl e'' ->
              settled_at (g_join g) <= settled_at (it_promise item''))
        /\ run_outcome run = Raised (fetch_failure (it_uri item') e')
        /\ ir_end (run_init run) = settled_at (g_join g))
  /\ ((forall item' e', item' ∈ g_items g -> settled (it_promise item') = inl e' ->
         item' = item) ->
        run_outcome run = Raised (fetch_failure (it_uri item) e))
  /\ ir_heap (run_init run) = r_heap (run_resolved run)
  /\ run_store run = store
  /\ (forall K other, g_items g !! K = Some other ->
        it_start other = g_start g + setTimeout_delay (stagger cfg K)
        /\ it_promise other = fetchTokenMetadata env cfg (it_start other) (it_uri other)
        /\ forall url', request_url cfg (it_uri other) = Some url' ->
             HttpGet (it_start other) url' ∈ p_events (it_promise other)).
Proof.
  cbn [processTransfers run_resolved run_init run_outcome run_store].
  intros Hg Hitem Hurl Hfail.
  destruct (initTokens_rejected env cfg ctx now (r_heap (resolve store transfersData))
              (r_newTokens (resolve store transfersData))) as [Hgroups Hrej].
  pose proof (initTokens_rejected_at env cfg ctx now
                (r_heap (resolve store transfersData))
                (r_newTokens (resolve store transfersData)) g) as Hend.
  cbv zeta in Hend.
  destruct (Hgroups g Hg) as (t & batch & ->).
  assert (Hmade : forall it, it ∈ g_items (run_group env cfg t batch) ->
            it_promise it = fetchTokenMetadata env cfg (it_start it) (it_uri it)).
  { intros it [K HK]%list_elem_of_lookup.
    by apply run_group_items in HK as (uri & _ & ->). }
  assert (Hraised : settled (it_promise item) = inl (fetch_failure (it_uri item) e)).
  { rewrite (Hmade item Hitem).
    by apply (fetchTokenMetadata_request env cfg _ _ url). }
  destruct (run_group_spec env cfg t batch) as (_ & _ & _ & Herr & Hany & _).
  destruct Hany as [e0 He0]; [by exists item, (fetch_failure (it_uri item) e)|].
  destruct (Herr e0 He0) as (item' & Hin' & Hs' & Hat' & Hmin).
  destruct (Hrej _ e0 Hg He0) as (Hlast & Hout & Hheap).
  assert (He' : exists e', e0 = fetch_failure (it_uri item') e').
  { rewrite (Hmade item' Hin') in Hs'.
    by apply (fetchTokenMetadata_spec env cfg (it_start item') (it_uri item')). }
  destruct He' as [e' ->].
  split_and!; try done.
  - apply fetch_failure_contains.
  - exists item', e'. split_and!; try done.
    + rewrite Hat'. by apply (Hmin item (fetch_failure (it_uri item) e) Hitem).
    + by eapply Hend.
  - intros Honly. rewrite Hout.
    assert (item' = item) as -> by by eapply Honly. congruence.
  - by rewrite Hout.
  - intros K other HK.
    assert (Hother : other ∈ g_items (run_group env cfg t batch))
      by by eapply list_elem_of_lookup_2.
    pose proof (Hmade other Hother) as Hp.
    apply run_group_items in HK as (uri & _ & ->).
    split_and!; [done|done|].
    intros url' Hurl'. rewrite Hp. by apply fetchTokenMetadata_get.
Qed.

(** ** The schedule of the fetches *)


(** ** Owners after enrichment *)

(** [initTokens] touches no [Owner] and, of a token, neither the id nor the
    owner. *)
Lemma initTokens_frame env cfg ctx now h (tokens : list loc) :
  NoDup tokens ->
  let h' := ir_heap (initTokens env cfg ctx now h tokens) in
  owners_h h' = owners_h h
  /\ forall l tok, tokens_h h !! l = Some tok ->
       exists tok', tokens_h h' !! l = Some tok'
         /\ tok_id tok' = tok_id tok /\ tok_owner tok' = tok_owner tok.
Proof.
  intros Hnd. cbn zeta.
  destruct (initTokens_spec env cfg ctx now h tokens)
    as ([[-> _]|(block & metadatas & err & _ & _ & _ & Hmerge & _)] & _).
  { split; [done|]. eauto. }
  destruct (merge_from_spec _ _ _ _ _ _ _ Hmerge Hnd)
    as (Hown & _ & Hother & Hpos & _).
  split; [done|]. intros l tok Htok.
  destruct (decide (l ∈ tokens)) as [[j Hj]%list_elem_of_lookup|Hnotin].
  - destruct (Hpos j l Hj) as [Hm|[_ Hm]]; rewrite Htok in Hm; cbn in Hm; [|eauto].
    eexists. split; [done|]. split; apply merge_fields_frame.
  - specialize (Hother l Hnotin). rewrite Htok in Hother. eauto.
Qed.

(** C1: for every list of transfer events, after the resolver pass the
    owner field of each token refers to the [Owner] entity that the owner
    map holds for the [to] address of the last transfer, in arrival order,
    that is about this token, however many transfers of the batch are about
    it; and the enrichment that follows leaves it so. *)
Theorem token_owner_is_last_recipient (env : Env) (cfg : Config) (ctx : Context)
    (now : Z) (store : Store) (transfersData : list TransferEvent)
    (tid : string) (td : TransferEvent) :
  last_transfer_of tid transfersData = Some td ->
  let run := processTransfers env cfg ctx now store transfersData in
  owner_resolved (run_resolved run) tid td
  /\ owner_resolved (enriched run) tid td.
Proof.
  intros Hlast. cbn zeta.
  destruct (resolve_spec store transfersData) as (Hwf & Hres & _).
  specialize (Hres tid td Hlast).
  split; [done|].
  destruct Hres as (token & tok & o & Hgt & Hl & Hid & Hown & Hgo & Ho).
  unfold enriched, owner_resolved.
  cbn [processTransfers run_resolved run_init r_heap r_owners r_tokens].
  destruct (initTokens_frame env cfg ctx now (r_heap (resolve store transfersData))
              (r_newTokens (resolve store transfersData)) (wf_new_NoDup _ _ Hwf))
    as [Howners Htokens].
  destruct (Htokens token tok Hl) as (tok' & Hl' & Hid' & Hown').
  exists token, tok', o. rewrite Howners. split_and!; congruence.
Qed.

Lemma token_owner_is_last_recipient_witness :
  last_transfer_of "7" Scenario.batch = Some Scenario.b_to_c
  /\ owner_resolved
       (run_resolved (processTransfers Scenario.gateway_up main_config Scenario.ctx 0
                        Scenario.store Scenario.batch)) "7" Scenario.b_to_c
  /\ owner_resolved
       (enriched (processTransfers Scenario.gateway_up main_config Scenario.ctx 0
                    Scenario.store Scenario.batch)) "7" Scenario.b_to_c.
Proof.
  split; [reflexivity|].
  apply (token_owner_is_last_recipient Scenario.gateway_up main_config Scenario.ctx 0
           Scenario.store Scenario.batch "7" Scenario.b_to_c).
  reflexivity.
Defined.

(** ** The shape of a document *)

Lemma map_attributes_objects (items : list json) :
  Forall (fun a => a <> JNull) items ->
  exists attrs, map_attributes items = inr attrs /\ length attrs = length items.
Proof.
  induction 1 as [|a items Ha _ (attrs & IH & Hlen)]; cbn.
  - by exists [].
  - assert (Hattr : exists x, to_attribute a = inr x).
    { unfold to_attribute. destruct a; cbn; eauto. done. }
    destruct Hattr as [x ->]. rewrite IH. eexists. split; [done|]. cbn. by rewrite Hlen.
Qed.

(** C9, as the code has it.  For every fetched document that is a JSON
    object, a missing [image] leaves the token's image unset and raises
    nothing, provided [attributes] is a list without [null] entries, which
    is then converted entry by entry; a missing [attributes] does not
    degrade to unset: [.map] is called on [undefined] and the loop raises a
    [TypeError], the token's [uri] and [image] already assigned and its
    attributes as they were.  When there is no document at the position
    ([undefined]) or the document is [null], image and attributes are both
    left unset and nothing is raised; these are the only two cases in which
    the attributes come out unset without an error. *)
Theorem missing_image_unset_missing_attributes_raise (tokenURIs : list string)
    (metadatas : list jsval) (h : Heap) (i : nat) (token : loc) :
  (forall fields,
     mjoin (metadatas !! i) = Some (JObj fields) ->
     (forall items,
        own_property "image" fields = None ->
        own_property "attributes" fields = Some (JArr items) ->
        Forall (fun a => a <> JNull) items ->
        exists attrs,
          length attrs = length items
          /\ merge_token tokenURIs metadatas h i token =
               (update_token h token
                  (fun tok => set_attributes (Some attrs)
                                (set_image None (set_uri (tokenURIs !! i) tok))),
                None))
     /\ (own_property "attributes" fields = None ->
           merge_token tokenURIs metadatas h i token =
             (update_token h token
                (fun tok => set_image (own_property "image" fields)
                              (set_uri (tokenURIs !! i) tok)),
              Some (TypeError "Cannot read properties of undefined (reading 'map')"))))
  /\ (mjoin (metadatas !! i) = None \/ mjoin (metadatas !! i) = Some JNull ->
        merge_token tokenURIs metadatas h i token =
          (update_token h token
             (fun tok => set_attributes None
                           (set_image None (set_uri (tokenURIs !! i) tok))),
           None))
  /\ (optional_attributes (mjoin (metadatas !! i)) = inr None ->
        mjoin (metadatas !! i) = None \/ mjoin (metadatas !! i) = Some JNull).
Proof.
  split_and!.
  - intros fields Hdoc. unfold merge_token. rewrite Hdoc.
    cbn [optional_image optional_attributes get_prop]. split.
    + intros items -> -> Hitems.
      destruct (map_attributes_objects items Hitems) as (attrs & -> & Hlen).
      exists attrs. split; [done|]. by rewrite !update_token_twice.
    + intros ->. by rewrite !update_token_twice.
  - unfold merge_token.
    intros [->| ->]; cbn [optional_image optional_attributes];
      by rewrite !update_token_twice.
  - destruct (mjoin (metadatas !! i)) as [document|]; [|by left].
    destruct document as [| | | | |fields]; cbn; try done; [by right|].
    destruct (own_property "attributes" fields) as [[| | | |items|]|]; try done.
    by destruct (map_attributes items).
Qed.

Lemma missing_image_unset_missing_attributes_raise_witness :
  mjoin ([Some Scenario.document_without_image] !! 0%nat)
    = Some Scenario.document_without_image
  /\ (own_property "image"
        [("attributes", JArr [JObj [("trait_type", JStr "Fur"); ("value", JStr "Tan")]])]
      = None)
  /\ exists h',
       merge_token ["ipfs://Qm7"] [Some Scenario.document_without_image]
         (r_heap (resolve Scenario.store Scenario.batch)) 0 0 = (h', None)
       /\ tok_image <$> tokens_h h' !! 0%nat = Some None.
Proof.
  split; [reflexivity|]. split; [reflexivity|].
  destruct (missing_image_unset_missing_attributes_raise
              ["ipfs://Qm7"] [Some Scenario.document_without_image]
              (r_heap (resolve Scenario.store Scenario.batch)) 0 0) as (Hobject & _).
  destruct (Hobject
              [("attributes", JArr [JObj [("trait_type", JStr "Fur"); ("value", JStr "Tan")]])]
              eq_refl) as [Himage _].
  destruct (Himage [JObj [("trait_type", JStr "Fur"); ("value", JStr "Tan")]]
              eq_refl eq_refl) as (attrs & _ & Hmerge).
  { repeat constructor; discriminate. }
  rewrite Hmerge. eexists. split; [reflexivity|]. reflexivity.
Defined.

(** C9, as stated, fails: the gateway answers with the document
    [{"image": "ipfs://QmImage"}], which is fetched successfully and has no
    [attributes]; the batch then ends with a [TypeError] instead of leaving
    the attributes of token 7 unset. *)
Lemma missing_attributes_raise_TypeError :
  settled (fetchTokenMetadata Scenario.gateway_partial main_config 47 "ipfs://Qm7")
    = inr (Some Scenario.document_without_attributes)
  /\ get_prop Scenario.document_without_attributes "attributes" = inr None
  /\ run_outcome (processTransfers Scenario.gateway_partial main_config Scenario.ctx 0
                    Scenario.store Scenario.batch)
     = Raised (TypeError "Cannot read properties of undefined (reading 'map')").
Proof. split_and!; reflexivity. Qed.

(** ** The theorems at the scenarios *)

Lemma unsupported_scheme_is_skipped_witness :
  (scheme "ftp://x" <> "ipfs" /\ scheme "ftp://x" <> "http" /\ scheme "ftp://x" <> "https")
  /\ settled (fetchTokenMetadata Scenario.gateway_up main_config 87 "ftp://x") = inr None
  /\ exists tok,
       tokens_h (ir_heap (run_init (processTransfers Scenario.gateway_up main_config
                                      Scenario.ctx 0 Scenario.store Scenario.batch)))
         !! 1%nat = Some tok
       /\ tok_image tok = None /\ tok_attributes tok = None.
Proof.
  assert (H1 : scheme "ftp://x" <> "ipfs") by (vm_compute; discriminate).
  assert (H2 : scheme "ftp://x" <> "http") by (vm_compute; discriminate).
  assert (H3 : scheme "ftp://x" <> "https") by (vm_compute; discriminate).
  destruct (unsupported_scheme_is_skipped Scenario.gateway_up main_config Scenario.ctx 0
              Scenario.store Scenario.batch "ftp://x" H1 H2 H3) as [Hfetch Htoken].
  split; [done|]. split.
  - by rewrite Hfetch.
  - apply (Htoken 1%nat 1%nat); reflexivity.
Defined.

Lemma new_token_uri_is_multicall_result_witness :
  run_outcome (processTransfers Scenario.gateway_up main_config Scenario.ctx 0
                 Scenario.store Scenario.batch) = Returned tt
  /\ exists block tok uri,
       last (blocks Scenario.ctx) = Some block
       /\ tokens_h (ir_heap (run_init (processTransfers Scenario.gateway_up main_config
                                        Scenario.ctx 0 Scenario.store Scenario.batch)))
            !! 1%nat = Some tok
       /\ ir_tokenURIs (run_init (processTransfers Scenario.gateway_up main_config
                                    Scenario.ctx 0 Scenario.store Scenario.batch))
            !! 1%nat = Some uri
       /\ uri = tokenURI Scenario.gateway_up block (tok_index tok)
       /\ tok_uri tok = Some uri
       /\ (scheme uri <> "ipfs" -> scheme uri <> "http" -> scheme uri <> "https" ->
             tok_image tok = None /\ tok_attributes tok = None).
Proof.
  split; [reflexivity|].
  apply (new_token_uri_is_multicall_result Scenario.gateway_up main_config Scenario.ctx 0
           Scenario.store Scenario.batch 1 1); reflexivity.
Defined.

Lemma fetch_failure_aborts_batch_witness :
  let run := processTransfers Scenario.gateway_down main_config Scenario.ctx 0
               Scenario.store Scenario.batch in
  let g := run_group Scenario.gateway_down main_config 7 ["ipfs://Qm7"; "ftp://x"] in
  let item := make_item Scenario.gateway_down main_config 7 0 "ipfs://Qm7" in
  let e := Exn "HttpError" "Got 503" in
  ir_groups (run_init run) = [g]
  /\ request_url main_config (it_uri item) = Some "https:/ipfs.io/Qm7"
  /\ reply (http_get Scenario.gateway_down (it_start item) "https:/ipfs.io/Qm7") = inl e
  /\ settled (it_promise item) = inl (fetch_failure (it_uri item) e)
  /\ contains (exn_message (fetch_failure (it_uri item) e)) (it_uri item)
  /\ run_outcome run = Raised (fetch_failure (it_uri item) e)
  /\ ir_heap (run_init run) = r_heap (run_resolved run)
  /\ run_store run = Scenario.store.
Proof.
  cbv zeta.
  assert (Hgroups : ir_groups (run_init (processTransfers Scenario.gateway_down main_config
                       Scenario.ctx 0 Scenario.store Scenario.batch))
            = [run_group Scenario.gateway_down main_config 7 ["ipfs://Qm7"; "ftp://x"]])
    by reflexivity.
  split; [exact Hgroups|]. split; [reflexivity|]. split; [reflexivity|].
  destruct (fetch_failure_aborts_batch Scenario.gateway_down main_config Scenario.ctx 0
              Scenario.store Scenario.batch
              (run_group Scenario.gateway_down main_config 7 ["ipfs://Qm7"; "ftp://x"])
              (make_item Scenario.gateway_down main_config 7 0 "ipfs://Qm7")
              "https:/ipfs.io/Qm7" (Exn "HttpError" "Got 503"))
    as (Hraised & Hmsg & _ & _ & Honly & Hheap & Hstore & _).
  - rewrite Hgroups. left.
  - left.
  - reflexivity.
  - reflexivity.
  - split; [exact Hraised|]. split; [exact Hmsg|]. split; [|by split].
    apply Honly. intros item' e'.
    intros [->|[->|[]%elem_of_nil]%elem_of_cons]%elem_of_cons; [done|discriminate].
Defined.

(** C8, as stated, fails: tokens 7 and 8 are new and the gateway answers
    every request with a 503.  The fetch for token 7 starts at 47 ms and
    fails at 77 ms, which rejects the join and the batch at once; the timer
    of the fetch for token 8, set with it, fires at 87 ms, and the request
    for token 8 is made then: the remaining item of the group has not been
    aborted. *)
Lemma rejected_group_still_fetches :
  let run := processTransfers Scenario.gateway_down main_config Scenario.ctx 0
               Scenario.store Cases.two_tokens in
  let g := run_group Scenario.gateway_down main_config 7 ["ipfs://Qm7"; "ipfs://Qm8"] in
  let first := make_item Scenario.gateway_down main_config 7 0 "ipfs://Qm7" in
  let second := make_item Scenario.gateway_down main_config 7 1 "ipfs://Qm8" in
  let e := fetch_failure "ipfs://Qm7" (Exn "HttpError" "Got 503") in
  ir_groups (run_init run) = [g]
  /\ g_items g = [first; second]
  /\ it_start first = 47
  /\ settled (it_promise first) = inl e
  /\ settled_at (it_promise first) = 77
  /\ settled (g_join g) = inl e
  /\ settled_at (g_join g) = 77
  /\ run_outcome run = Raised e
  /\ ir_end (run_init run) = 77
  /\ it_start second = 87
  /\ p_events (it_promise second) = [HttpGet 87 "https:/ipfs.io/Qm8"].
Proof. cbv zeta. split_and!; reflexivity. Qed.


(** ** Running a batch again *)

Lemma elem_of_upsert_row_keys {R} (key : R -> string) (r : R) (table : list R) k :
  k ∈ key <$> upsert_row key r table <-> k = key r \/ k ∈ key <$> table.
Proof.
  induction table as [|r' table IH]; cbn.
  - rewrite list_elem_of_singleton, elem_of_nil. naive_solver.
  - case_decide as Heq; rewrite !fmap_cons, !elem_of_cons.
    + rewrite <- Heq. naive_solver.
    + rewrite IH. naive_solver.
Qed.

Lemma elem_of_upsert_keys {R} (key : R -> string) (rows table : list R) k :
  k ∈ key <$> upsert key rows table <-> k ∈ key <$> rows \/ k ∈ key <$> table.
Proof.
  unfold upsert. revert table.
  induction rows as [|r rows IH]; intros table; cbn [fold_left].
  - rewrite fmap_nil, elem_of_nil. naive_solver.
  - rewrite IH, elem_of_upsert_row_keys, fmap_cons, elem_of_cons. naive_solver.
Qed.

(** After a run that has returned, every token of the batch has a row. *)
Lemma flushed_tokens env cfg ctx now store transfersData td :
  let run := processTransfers env cfg ctx now store transfersData in
  run_outcome run = Returned tt -> td ∈ transfersData ->
  tokenId td ∈ row_id <$> token_table (run_store run).
Proof.
  cbn [processTransfers run_outcome run_store]. intros -> Hin.
  cbn [flush token_table]. apply elem_of_upsert_keys. left.
  destruct (resolve_spec store transfersData) as (Hwf & _ & _ & _ & Hkeys & _).
  assert (Hkey : tokenId td ∈ JSMap.keys (r_tokens (resolve store transfersData))).
  { apply Hkeys. by exists td. }
  apply JSMap_get_is_Some in Hkey as [l Hl].
  destruct (wf_tokens _ _ Hwf _ _ Hl) as (tok & Htok & Hid).
  destruct (initTokens_frame env cfg ctx now (r_heap (resolve store transfersData))
              (r_newTokens (resolve store transfersData)) (wf_new_NoDup _ _ Hwf))
    as [_ Hframe].
  destruct (Hframe l tok Htok) as (tok' & Htok' & Hid' & _).
  rewrite <- list_fmap_compose. apply list_elem_of_fmap.
  exists tok'. split; [cbn; congruence|].
  unfold deref. apply list_elem_of_omap. exists l. split; [|done].
  apply JSMap_get_Some in Hl. unfold JSMap.values.
  apply list_elem_of_fmap. by exists (tokenId td, l).
Qed.

(** Idempotence: the same batch handed in again after a run that has
    returned finds all its tokens in storage, makes no new token, no call
    and no fetch, whatever the world is like by then. *)
Lemma second_run_enriches_nothing env cfg ctx now store transfersData env' cfg' ctx' now' :
  let run := processTransfers env cfg ctx now store transfersData in
  run_outcome run = Returned tt ->
  let run' := processTransfers env' cfg' ctx' now' (run_store run) transfersData in
  r_newTokens (run_resolved run') = [] /\ ir_events (run_init run') = [].
Proof.
  intros run Hret run'.
  assert (Hnew : r_newTokens (run_resolved run') = []).
  { apply (resolve_spec (run_store run) transfersData).
    intros td Hin. by apply flushed_tokens. }
  split; [done|].
  subst run'. cbn [processTransfers run_init run_resolved] in *.
  by apply initTokens_spec.
Qed.

(** The scenario of the specification: token 7 goes from A to B and from B
    to C in one batch; it ends with C as owner, and one URL is fetched for
    it. *)
Example scenario_two_transfers_of_a_new_token :
  let run := processTransfers Scenario.gateway_up main_config Scenario.ctx 0
               Scenario.store Scenario.batch in
  run_outcome run = Returned tt
  /\ (row_owner <$> token_table (run_store run)) !! 0%nat = Some (Some "0xc")
  /\ fetched (ir_events (run_init run)) = ["https:/ipfs.io/Qm7"].
Proof. split_and!; reflexivity. Qed.

(** * Further properties of the code *)

(** A decidable proposition about given data, settled by evaluation. *)
Ltac by_evaluation :=
  match goal with |- ?P => apply (bool_decide_unpack P); vm_compute; exact I end.

(** ** How many batches [splitIntoBatches] yields *)

Lemma length_concat_full {T} (m : Z) (chunks : list (list T)) (c : list T) :
  (forall i c', chunks !! i = Some c' -> (S i < length chunks)%nat ->
     Z.of_nat (length c') = m) ->
  last chunks = Some c ->
  Z.of_nat (length (concat chunks))
    = (Z.of_nat (length chunks) - 1) * m + Z.of_nat (length c).
Proof.
  induction chunks as [|c0 chunks IH]; [done|].
  intros Hfull Hlast. destruct chunks as [|c1 chunks].
  - cbn in *. injection Hlast as ->. rewrite app_nil_r. lia.
  - rewrite last_cons_cons in Hlast.
    change (concat (c0 :: c1 :: chunks)) with (c0 ++ concat (c1 :: chunks)).
    rewrite length_app, Nat2Z.inj_add.
    rewrite IH; [|intros i c' Hc' Hi; apply (Hfull (S i) c' Hc'); cbn in *; lia|done].
    rewrite (Hfull 0%nat c0 eq_refl) by (cbn; lia).
    cbn [length]. lia.
Qed.

Lemma chunks_ok_count {T} (m : Z) (xs : list T) (chunks : list (list T)) :
  1 <= m -> xs <> [] -> chunks_ok m xs chunks ->
  Z.of_nat (length chunks) = ceil_div (Z.of_nat (length xs)) m
  /\ Forall (fun c => c <> []) chunks.
Proof.
  intros Hm Hne (Hcat & Hall & Hfull & Hlast).
  destruct (last chunks) as [c|] eqn:Hc; last first.
  { apply last_None in Hc. subst chunks. by cbn in Hcat. }
  pose proof (length_concat_full m chunks c Hfull Hc) as Hlen.
  rewrite Hcat in Hlen.
  assert (Hc_ne : c <> []) by by apply Hlast.
  assert (Hc_le : Z.of_nat (length c) <= m).
  { rewrite last_lookup in Hc.
    by apply (proj1 (Forall_lookup _ _) Hall _ _ Hc). }
  assert (0 < Z.of_nat (length c)) by (destruct c; [done | cbn; lia]).
  split.
  - apply ceil_div_unique; lia.
  - apply Forall_lookup. intros i c' Hc'.
    destruct (decide (S i < length chunks)%nat) as [Hi|Hi].
    + specialize (Hfull i c' Hc' Hi). intros ->. cbn in Hfull. lia.
    + pose proof (lookup_lt_Some _ _ _ Hc') as Hlt.
      rewrite last_lookup in Hc.
      replace (pred (length chunks)) with i in Hc by lia. congruence.
Qed.

(** X1: for [maxBatchSize >= 1] the generator returns after
    [ceil (length / maxBatchSize)] batches, none of them empty; the empty
    list gives one batch, which is empty. *)
Theorem splitIntoBatches_count {T} (xs : list T) (maxBatchSize : Z) :
  1 <= maxBatchSize ->
  exists chunks,
    (forall fuel, (length xs <= fuel)%nat ->
       splitIntoBatches fuel xs maxBatchSize = (chunks, true))
    /\ Z.of_nat (length chunks)
         = Z.max 1 (ceil_div (Z.of_nat (length xs)) maxBatchSize)
    /\ (xs <> [] -> Forall (fun c => c <> []) chunks)
    /\ (xs = [] -> chunks = [[]]).
Proof.
  intros Hm.
  destruct (splitIntoBatches_ok xs maxBatchSize Hm) as (chunks & Hrun & Hok).
  exists chunks. split; [done|].
  destruct xs as [|x xs].
  - specialize (Hrun 0%nat ltac:(done)). unfold splitIntoBatches in Hrun.
    cbn [length] in Hrun.
    destruct (Z.leb_spec (Z.of_nat 0) maxBatchSize); [|lia].
    injection Hrun as <-. by split_and!.
  - destruct (chunks_ok_count maxBatchSize (x :: xs) chunks Hm ltac:(done) Hok)
      as [Hcount Hne].
    split_and!; try done.
    rewrite Hcount. symmetry. apply Z.max_r.
    destruct (ceil_div_spec (Z.of_nat (length (x :: xs))) maxBatchSize ltac:(lia)) as [_ Hle].
    cbn [length] in *. nia.
Qed.

Lemma splitIntoBatches_count_witness :
  exists chunks,
    (forall fuel, (length (seq 0 7) <= fuel)%nat ->
       splitIntoBatches fuel (seq 0 7) 3 = (chunks, true))
    /\ Z.of_nat (length chunks) = Z.max 1 (ceil_div (Z.of_nat (length (seq 0 7))) 3)
    /\ (seq 0 7 <> [] -> Forall (fun c => c <> []) chunks)
    /\ (seq 0 7 = [] -> chunks = [[]]).
Proof. apply (splitIntoBatches_count (seq 0 7) 3). lia. Defined.

(** ** A batch size below one *)

Lemma slice_empty {T} (l : list T) off : JS.slice l off off = [].
Proof. unfold JS.slice. cbv zeta. by rewrite Z.sub_diag. Qed.

Lemma splitIntoBatches_loop_nonpositive {T} (fuel : nat) (l : list T) m off :
  m <= 0 -> off <= 0 -> Z.of_nat (length l) - off > m ->
  exists chunks,
    splitIntoBatches_loop fuel l m off = (chunks, false)
    /\ length chunks = fuel
    /\ (m = 0 -> Forall (fun c => c = []) chunks).
Proof.
  intros Hm. revert off.
  induction fuel as [|fuel IH]; intros off Hoff Hgt.
  - exists []. by split_and!.
  - rewrite splitIntoBatches_loop_step.
    destruct (Z.gtb_spec (Z.of_nat (length l) - off) m); [|lia].
    destruct (IH (off + m)) as (chunks & -> & Hlen & Hnil); [lia..|].
    eexists. split_and!; [done|cbn; lia|].
    intros ->. constructor; [|by apply Hnil].
    rewrite Z.add_0_r. apply slice_empty.
Qed.

Lemma splitIntoBatches_nonpositive {T} (fuel : nat) (l : list T) m :
  m <= 0 -> m < Z.of_nat (length l) ->
  exists chunks,
    splitIntoBatches fuel l m = (chunks, false)
    /\ length chunks = fuel
    /\ (m = 0 -> Forall (fun c => c = []) chunks).
Proof.
  intros Hm Hlt. unfold splitIntoBatches.
  destruct (Z.leb_spec (Z.of_nat (length l)) m); [lia|].
  apply splitIntoBatches_loop_nonpositive; lia.
Qed.

(** X2: with [maxBatchSize <= 0] and a list longer than that the generator
    never returns: however long it runs it has not returned, and it has
    yielded one batch per round; with [maxBatchSize = 0] every one of them
    is empty. *)
Theorem splitIntoBatches_never_returns {T} (xs : list T) (maxBatchSize : Z)
    (fuel : nat) :
  maxBatchSize <= 0 -> maxBatchSize < Z.of_nat (length xs) ->
  (splitIntoBatches fuel xs maxBatchSize).2 = false
  /\ length (splitIntoBatches fuel xs maxBatchSize).1 = fuel
  /\ (maxBatchSize = 0 ->
        Forall (fun c => c = []) (splitIntoBatches fuel xs maxBatchSize).1).
Proof.
  intros Hm Hlt.
  destruct (splitIntoBatches_nonpositive fuel xs maxBatchSize Hm Hlt)
    as (chunks & -> & Hlen & Hnil).
  done.
Qed.

Lemma splitIntoBatches_never_returns_witness :
  (splitIntoBatches 5 [1; 2; 3] 0).2 = false
  /\ length (splitIntoBatches 5 [1; 2; 3] 0).1 = 5%nat
  /\ (0 = 0 -> Forall (fun c => c = []) (splitIntoBatches 5 [1; 2; 3] 0).1).
Proof. apply (splitIntoBatches_never_returns [1; 2; 3] 0 5); cbn; lia. Defined.

Lemma concat_all_nil {T} (chunks : list (list T)) :
  Forall (fun c => c = []) chunks -> concat chunks = [].
Proof. induction 1 as [|c chunks -> _ IH]; [done | by cbn]. Qed.

Lemma fetched_app (events events' : list Event) :
  fetched (events ++ events') = fetched events ++ fetched events'.
Proof. apply omap_app. Qed.

Lemma initTokens_nonpositive_rate env cfg ctx now h (tokens : list loc) :
  MAX_IPFS_REQ_SEC cfg <= 0 -> tokens <> [] ->
  let ir := initTokens env cfg ctx now h tokens in
  ir_outcome ir <> Returned tt /\ ir_heap ir = h
  /\ (MAX_IPFS_REQ_SEC cfg = 0 -> fetched (ir_events ir) = []).
Proof.
  intros Hm Hne. unfold initTokens.
  destruct (last (blocks ctx)) as [block|]; [|by ir_simpl].
  pose proof (aggregate_spec env now block (index_at h <$> tokens)
                (MUTLTICALL_BATCH_SIZE cfg)) as (Hres & Hagg & _).
  destruct (settled (aggregate env now block (index_at h <$> tokens)
                       (MUTLTICALL_BATCH_SIZE cfg))) as [e|tokenURIs];
    [by ir_simpl|].
  specialize (Hres tokenURIs eq_refl).
  assert (Hlen : MAX_IPFS_REQ_SEC cfg < Z.of_nat (length tokenURIs)).
  { rewrite Hres, !length_fmap. destruct tokens; [done | cbn; lia]. }
  unfold fetch_all.
  destruct (splitIntoBatches_nonpositive (length tokenURIs) tokenURIs
              (MAX_IPFS_REQ_SEC cfg) Hm Hlen) as (batches & -> & _ & Hnil).
  destruct (fetch_groups env cfg
              (settled_at (aggregate env now block (index_at h <$> tokens)
                             (MUTLTICALL_BATCH_SIZE cfg))) batches)
    as [groups p] eqn:Hfg.
  apply fetch_groups_spec in Hfg as (_ & _ & _ & _ & _ & _ & Hfetched).
  assert (Hnone : MAX_IPFS_REQ_SEC cfg = 0 ->
            fetched (p_events (aggregate env now block (index_at h <$> tokens)
                                 (MUTLTICALL_BATCH_SIZE cfg)) ++ p_events p) = []).
  { intros H0. rewrite fetched_app, Hagg.
    rewrite (concat_all_nil batches (Hnil H0)) in Hfetched.
    by apply nil_length_inv, Nat.le_0_r. }
  destruct (settled p); by ir_simpl.
Qed.

(** X3: with [MAX_IPFS_REQ_SEC <= 0] a batch that brings a new token is
    never stored: [processTransfers] does not return and the store stays as
    it was; with [MAX_IPFS_REQ_SEC = 0] no metadata is requested either. *)
Theorem no_rate_no_store (env : Env) (cfg : Config) (ctx : Context) (now : Z)
    (store : Store) (transfersData : list TransferEvent) :
  let run := processTransfers env cfg ctx now store transfersData in
  MAX_IPFS_REQ_SEC cfg <= 0 -> r_newTokens (run_resolved run) <> [] ->
  run_outcome run <> Returned tt
  /\ run_store run = store
  /\ (MAX_IPFS_REQ_SEC cfg = 0 -> fetched (ir_events (run_init run)) = []).
Proof.
  intros run Hm Hnew. subst run.
  cbn [processTransfers run_outcome run_store run_init run_resolved] in *.
  destruct (initTokens_nonpositive_rate env cfg ctx now
              (r_heap (resolve store transfersData)) _ Hm Hnew)
    as (Hout & _ & Hnone).
  split_and!; [done| |done].
  by destruct (ir_outcome _) as [[]| |].
Qed.

Lemma no_rate_no_store_witness :
  let run := processTransfers Scenario.gateway_up Cases.no_rate Scenario.ctx 0
               Scenario.store Scenario.batch in
  run_outcome run = Diverged
  /\ run_store run = Scenario.store
  /\ fetched (ir_events (run_init run)) = [].
Proof.
  pose proof (no_rate_no_store Scenario.gateway_up Cases.no_rate Scenario.ctx 0
                Scenario.store Scenario.batch) as H.
  cbv zeta in H.
  destruct H as (_ & Hstore & Hnone); [by cbn | by vm_compute |].
  split_and!; [by vm_compute | done | by apply Hnone].
Defined.

(** ** An IPFS URI without a content path *)

Lemma substring_all (s : string) : String.substring 0 (String.length s) s = s.
Proof. induction s as [|c s IH]; [done | cbn; by rewrite IH]. Qed.

Lemma string_drop_ipfs (rest : string) : string_drop 7 ("ipfs://" +:+ rest) = rest.
Proof.
  unfold string_drop, String.append. cbn.
  rewrite Nat.sub_0_r. apply substring_all.
Qed.

Lemma startsWith_ipfs (rest : string) :
  startsWith ("ipfs://" +:+ rest) "ipfs://" = true.
Proof. unfold startsWith, String.append. by destruct rest. Qed.

Lemma forallb_false {A} (f : A -> bool) (l : list A) (x : A) :
  x ∈ l -> f x = false -> forallb f l = false.
Proof.
  intros Hin Hx. induction l as [|y l IH]; [by apply elem_of_nil in Hin|].
  apply elem_of_cons in Hin as [<-|Hin]; cbn.
  - by rewrite Hx.
  - rewrite IH by done. apply andb_false_r.
Qed.

Lemma ipfsRegExp_no_match (rest : string) :
  rest = "" \/ (exists c, c ∈ list_ascii_of_string rest /\ line_terminator c = true) ->
  ipfsRegExp_exec ("ipfs://" +:+ rest) = None.
Proof.
  intros Hrest. unfold ipfsRegExp_exec.
  rewrite startsWith_ipfs.
  rewrite string_drop_ipfs.
  destruct Hrest as [->|(c & Hin & Hc)]; [done|].
  rewrite (forallb_false _ _ c Hin) by by rewrite Hc.
  by rewrite andb_false_r.
Qed.

Lemma fetchTokenMetadata_no_match env cfg t (rest : string) :
  rest = "" \/ (exists c, c ∈ list_ascii_of_string rest /\ line_terminator c = true) ->
  fetchTokenMetadata env cfg t ("ipfs://" +:+ rest) =
    {| p_events := []; settled_at := t;
       settled := inl (fetch_failure ("ipfs://" +:+ rest)
                         (TypeError "Cannot read properties of null (reading '1')")) |}.
Proof.
  intros Hrest. unfold fetchTokenMetadata.
  rewrite startsWith_ipfs.
  by rewrite ipfsRegExp_no_match.
Qed.

Lemma rejected_item_rejects_run env cfg ctx now store transfersData g item e :
  let run := processTransfers env cfg ctx now store transfersData in
  g ∈ ir_groups (run_init run) -> item ∈ g_items g ->
  settled (it_promise item) = inl e ->
  (exists e', run_outcome run = Raised e') /\ run_store run = store.
Proof.
  intros run Hg Hitem He. subst run.
  cbn [processTransfers run_outcome run_store run_init] in *.
  destruct (initTokens_rejected env cfg ctx now
              (r_heap (resolve store transfersData))
              (r_newTokens (resolve store transfersData))) as [Hmade Hrej].
  destruct (Hmade g Hg) as (t & batch & ->).
  destruct (run_group_spec env cfg t batch) as (_ & _ & _ & _ & Hjoin & _).
  destruct Hjoin as [e' He']; [by exists item, e|].
  destruct (Hrej _ e' Hg He') as (_ & -> & _).
  split; [by exists e' | done].
Qed.

(** X4: a token URI that is [ipfs://] followed by nothing, or by a path
    with a line break in it, is not requested at all: its fetch is rejected
    on the spot with the failure message that wraps a [TypeError], and the
    batch it belongs to is rejected and leaves the store as it was. *)
Theorem ipfs_uri_without_path_rejects (env : Env) (cfg : Config) (ctx : Context)
    (now : Z) (store : Store) (transfersData : list TransferEvent)
    (g : Group) (item : Item) (rest : string) :
  let run := processTransfers env cfg ctx now store transfersData in
  g ∈ ir_groups (run_init run) -> item ∈ g_items g ->
  it_uri item = "ipfs://" +:+ rest ->
  rest = "" \/ (exists c, c ∈ list_ascii_of_string rest /\ line_terminator c = true) ->
  p_events (it_promise item) = []
  /\ (exists cause,
        exn_name cause = "TypeError"
        /\ settled (it_promise item) = inl (fetch_failure (it_uri item) cause))
  /\ (exists e, run_outcome run = Raised e)
  /\ run_store run = store.
Proof.
  intros run Hg Hitem Huri Hrest.
  assert (Hp : it_promise item =
            fetchTokenMetadata env cfg (it_start item) (it_uri item)).
  { destruct (initTokens_rejected env cfg ctx now
                (r_heap (resolve store transfersData))
                (r_newTokens (resolve store transfersData))) as [Hmade _].
    destruct (Hmade g Hg) as (t & batch & ->).
    apply list_elem_of_lookup in Hitem as [K HK].
    apply run_group_items in HK as (uri & _ & ->). done. }
  pose proof (fetchTokenMetadata_no_match env cfg (it_start item) rest Hrest) as Hf.
  rewrite <- Huri, <- Hp in Hf.
  destruct (rejected_item_rejects_run env cfg ctx now store transfersData g item
              _ Hg Hitem (f_equal settled Hf)) as [Hout Hstore].
  split_and!; [by rewrite Hf | | done | done].
  eexists. split; [|by rewrite Hf]. done.
Qed.

Lemma ipfs_uri_without_path_rejects_witness :
  let run := processTransfers Cases.bare_ipfs main_config Scenario.ctx 0
               Scenario.store Scenario.batch in
  let g := run_group Cases.bare_ipfs main_config 7 ["ipfs://"; "ipfs://"] in
  let item := make_item Cases.bare_ipfs main_config 7 0 "ipfs://" in
  ir_groups (run_init run) = [g]
  /\ p_events (it_promise item) = []
  /\ (exists cause,
        exn_name cause = "TypeError"
        /\ settled (it_promise item) = inl (fetch_failure (it_uri item) cause))
  /\ (exists e, run_outcome run = Raised e)
  /\ run_store run = Scenario.store.
Proof.
  intros run g item. split; [by vm_compute|].
  apply (ipfs_uri_without_path_rejects Cases.bare_ipfs main_config Scenario.ctx 0
           Scenario.store Scenario.batch g item "").
  - replace (ir_groups _) with [g] by by vm_compute. left.
  - subst g item. cbn [run_group g_items imap]. left.
  - done.
  - by left.
Defined.

(** ** The rate of the fetches *)

Lemma ceil_div_mono a a' b : 0 < b -> a <= a' -> ceil_div a b <= ceil_div a' b.
Proof.
  intros Hb Hle. unfold ceil_div.
  pose proof (Z.div_le_mono (- a') (- a) b Hb). lia.
Qed.

Lemma stagger_mono cfg (K K' : nat) :
  1 <= MAX_IPFS_REQ_SEC cfg -> (K <= K')%nat -> stagger cfg K <= stagger cfg K'.
Proof. intros HR HK. unfold stagger. apply ceil_div_mono; lia. Qed.

Lemma stagger_last cfg (K : nat) :
  1 <= MAX_IPFS_REQ_SEC cfg -> Z.of_nat K + 1 = MAX_IPFS_REQ_SEC cfg ->
  stagger cfg K = 1000.
Proof.
  intros HR HK. unfold stagger. symmetry. apply ceil_div_unique; [lia|].
  rewrite HK. lia.
Qed.

(** The element at [K] of the chunk at [n] is the element at [n * R + K] of
    the whole. *)
Lemma lookup_concat_full {T} (R : nat) (chunks : list (list T)) :
  (forall i c, chunks !! i = Some c -> (S i < length chunks)%nat -> length c = R) ->
  forall n c K u, chunks !! n = Some c -> c !! K = Some u ->
    concat chunks !! (n * R + K)%nat = Some u.
Proof.
  induction chunks as [|c0 chunks IH]; intros Hfull n c K u Hc Hu; [done|].
  destruct n as [|n]; cbn in Hc.
  - injection Hc as ->. cbn. by apply lookup_app_l_Some.
  - assert (Hc0 : length c0 = R).
    { apply (Hfull 0%nat c0 eq_refl). apply lookup_lt_Some in Hc. cbn. lia. }
    cbn [concat]. rewrite lookup_app_r by lia.
    replace (S n * R + K - length c0)%nat with (n * R + K)%nat by lia.
    apply (IH (fun i c' Hc' Hi => Hfull (S i) c' Hc' ltac:(cbn; lia)) n c K u Hc Hu).
Qed.

(** The groups that [fetch_all] makes, against the batches of
    [splitIntoBatches]. *)
Lemma fetch_all_groups env cfg t (tokenURIs : list string) :
  1 <= MAX_IPFS_REQ_SEC cfg ->
  exists batches,
    chunks_ok (MAX_IPFS_REQ_SEC cfg) tokenURIs batches
    /\ (forall n g, (fetch_all env cfg t tokenURIs).1.1 !! n = Some g ->
          exists batch, batches !! n = Some batch
            /\ g = run_group env cfg (g_start g) batch)
    /\ (forall n g g', (fetch_all env cfg t tokenURIs).1.1 !! n = Some g ->
          (fetch_all env cfg t tokenURIs).1.1 !! S n = Some g' ->
          (exists m, settled (g_join g) = inr m)
          /\ g_start g' = settled_at (g_join g)).
Proof.
  intros HR. unfold fetch_all.
  destruct (splitIntoBatches_ok tokenURIs (MAX_IPFS_REQ_SEC cfg) HR)
    as (batches & Hrun & Hok).
  rewrite (Hrun (length tokenURIs)) by done.
  exists batches. split; [done|].
  destruct (fetch_groups env cfg t batches) as [groups p] eqn:Hfg.
  apply fetch_groups_spec in Hfg as (Hmade & _ & Hnext & _).
  by cbn.
Qed.

(** The start of an item, within the second that follows the start of its
    group. *)
Lemma make_item_start env cfg t0 (K : nat) uri :
  1 <= MAX_IPFS_REQ_SEC cfg -> Z.of_nat K < MAX_IPFS_REQ_SEC cfg ->
  it_start (make_item env cfg t0 K uri) = t0 + stagger cfg K
  /\ 1 <= stagger cfg K <= 1000.
Proof.
  intros HR HK. destruct (stagger_delay cfg K HR HK) as [Hd Hrange].
  cbn [make_item it_start]. by rewrite Hd.
Qed.

(** A group that is followed by another one has lasted a second at least. *)
Lemma next_group_start env cfg t (tokenURIs : list string) n g g' :
  1 <= MAX_IPFS_REQ_SEC cfg ->
  (fetch_all env cfg t tokenURIs).1.1 !! n = Some g ->
  (fetch_all env cfg t tokenURIs).1.1 !! S n = Some g' ->
  g_start g + 1000 <= g_start g'.
Proof.
  intros HR Hg Hg'.
  destruct (fetch_all_groups env cfg t tokenURIs HR)
    as (batches & (_ & _ & Hfull & _) & Hmade & Hnext).
  destruct (Hnext n g g' Hg Hg') as [[m Hm] ->].
  destruct (Hmade n g Hg) as (batch & Hbatch & Heq).
  destruct (Hmade (S n) g' Hg') as (batch' & Hbatch' & _).
  assert (Hlen : Z.of_nat (length batch) = MAX_IPFS_REQ_SEC cfg).
  { apply (Hfull n batch Hbatch). by apply lookup_lt_Some in Hbatch'. }
  destruct (lookup_lt_is_Some_2 batch (length batch - 1)) as [uri Huri]; [lia|].
  set (item := make_item env cfg (g_start g) (length batch - 1) uri).
  assert (Hitem : g_items g !! (length batch - 1)%nat = Some item).
  { rewrite Heq. apply run_group_items. by exists uri. }
  rewrite Heq in Hm, Hitem |- *.
  destruct (run_group_spec env cfg (g_start g) batch) as (_ & _ & Hjoin & _).
  destruct (Hjoin m Hm) as (_ & _ & Hlate).
  specialize (Hlate item (list_elem_of_lookup_2 _ _ _ Hitem)).
  destruct (fetchTokenMetadata_spec env cfg (it_start item) uri) as [Hge _].
  destruct (make_item_start env cfg (g_start g) (length batch - 1) uri HR ltac:(lia))
    as [Hstart _].
  rewrite (stagger_last cfg (length batch - 1) HR ltac:(lia)) in Hstart.
  cbn [run_group g_start]. subst item. cbn [make_item it_promise it_start] in *.
  lia.
Qed.

Lemma later_group_start env cfg t (tokenURIs : list string) (d : nat) :
  1 <= MAX_IPFS_REQ_SEC cfg ->
  forall n g g',
  (fetch_all env cfg t tokenURIs).1.1 !! n = Some g ->
  (fetch_all env cfg t tokenURIs).1.1 !! (n + d)%nat = Some g' ->
  g_start g + 1000 * Z.of_nat d <= g_start g'.
Proof.
  intros HR. induction d as [|d IH]; intros n g g' Hg Hg'.
  - rewrite Nat.add_0_r in Hg'. assert (g' = g) as -> by congruence. lia.
  - destruct (lookup_lt_is_Some_2 (fetch_all env cfg t tokenURIs).1.1 (n + d))
      as [g1 Hg1]; [apply lookup_lt_Some in Hg'; lia|].
    specialize (IH n g g1 Hg Hg1).
    replace (n + S d)%nat with (S (n + d)) in Hg' by lia.
    pose proof (next_group_start env cfg t tokenURIs (n + d) g1 g' HR Hg1 Hg').
    lia.
Qed.

(** X5: the rate ceiling on the virtual clock, for [MAX_IPFS_REQ_SEC = R >= 1].
    The item at [K] of the group at [n] fetches the URI at [n * R + K] of
    the list, its fetch starts when its [sleep] ends, within the second
    after the start of its group, and the fetch of the URI that comes [R]
    or more places later starts a full second later at least: no more than
    [R] fetches start within any one second. *)
Theorem fetches_per_second (env : Env) (cfg : Config) (t : Z)
    (tokenURIs : list string) (n K : nat) (g : Group) (item : Item) :
  let R := Z.to_nat (MAX_IPFS_REQ_SEC cfg) in
  let groups := (fetch_all env cfg t tokenURIs).1.1 in
  1 <= MAX_IPFS_REQ_SEC cfg ->
  groups !! n = Some g -> g_items g !! K = Some item ->
  (K < R)%nat
  /\ tokenURIs !! (n * R + K)%nat = Some (it_uri item)
  /\ it_start item = settled_at (sleep (g_start g) (stagger cfg K))
  /\ g_start g < it_start item <= g_start g + 1000
  /\ forall n' K' g' item',
       groups !! n' = Some g' -> g_items g' !! K' = Some item' ->
       (n * R + K + R <= n' * R + K')%nat ->
       it_start item + 1000 <= it_start item'.
Proof.
  intros R groups HR Hg Hitem.
  destruct (fetch_all_groups env cfg t tokenURIs HR)
    as (batches & (Hcat & Hall & Hfull & _) & Hmade & _).
  assert (Hitems : forall n K g item,
            groups !! n = Some g -> g_items g !! K = Some item ->
            (K < R)%nat
            /\ it_start item = g_start g + stagger cfg K
            /\ 1 <= stagger cfg K <= 1000
            /\ exists batch, batches !! n = Some batch
                 /\ batch !! K = Some (it_uri item)).
  { clear n K g item Hg Hitem. intros n K g item Hg Hitem.
    destruct (Hmade n g Hg) as (batch & Hbatch & Heq).
    rewrite Heq in Hitem. apply run_group_items in Hitem as (uri & Huri & ->).
    pose proof (proj1 (Forall_lookup _ _) Hall n batch Hbatch) as Hle.
    cbn beta in Hle. apply lookup_lt_Some in Huri as Hlt.
    destruct (make_item_start env cfg (g_start g) K uri HR ltac:(lia)) as [Hs Hr].
    subst R. split; [lia|]. split; [done|]. split; [done|]. by exists batch. }
  destruct (Hitems n K g item Hg Hitem) as (HK & Hstart & Hrange & batch & Hbatch & Huri).
  split; [done|]. split; [|split; [|split; [lia|]]].
  - rewrite <- Hcat. apply (lookup_concat_full R batches) with batch; [|done..].
    intros i c Hc Hi. specialize (Hfull i c Hc Hi). lia.
  - cbn [sleep settled_at]. rewrite Hstart. f_equal. symmetry.
    apply (stagger_delay cfg K HR). lia.
  - intros n' K' g' item' Hg' Hitem' Hfar.
    destruct (Hitems n' K' g' item' Hg' Hitem') as (HK' & Hstart' & Hrange' & _).
    assert (Hn : (n < n')%nat) by nia.
    pose proof (later_group_start env cfg t tokenURIs (n' - n) HR n g g' Hg) as Hlater.
    replace (n + (n' - n))%nat with n' in Hlater by lia.
    specialize (Hlater Hg').
    destruct (decide (n' = S n)) as [->|Hne].
    + pose proof (stagger_mono cfg K K' HR ltac:(nia)). lia.
    + lia.
Qed.

Lemma fetches_per_second_witness :
  let groups := (fetch_all Scenario.gateway_up Scenario.example_config 0
                   (Scenario.uri_of <$> seqZ 2 30)).1.1 in
  1 <= MAX_IPFS_REQ_SEC Scenario.example_config
  /\ ((fun g => it_start <$> g_items g) <$> groups) !! 0%nat
       = Some ((fun K => 40 * (K + 1)) <$> seqZ 0 25)
  /\ forall n' K' g' item',
       groups !! n' = Some g' -> g_items g' !! K' = Some item' ->
       (0 * 25 + 3 + 25 <= n' * 25 + K')%nat ->
       160 + 1000 <= it_start item'.
Proof.
  intros groups. split; [by cbn|]. split; [by vm_compute|].
  destruct (lookup_lt_is_Some_2 groups 0) as [g Hg]; [vm_compute; lia|].
  destruct (lookup_lt_is_Some_2 (g_items g) 3) as [item Hitem].
  { revert Hg. vm_compute. intros [= <-]. cbn. lia. }
  assert (Hs : it_start item = 160).
  { revert Hitem. revert Hg. vm_compute. by intros [= <-] [= <-]. }
  rewrite <- Hs.
  apply (fetches_per_second Scenario.gateway_up Scenario.example_config 0
           (Scenario.uri_of <$> seqZ 2 30) 0 3 g item); [by cbn|done|done].
Defined.

(** ** The batch handler *)

Lemma getTransfer_inr abi log line transferData :
  getTransfer abi log = inr (line, transferData) ->
  transfer_of_log abi log transferData
  /\ dbg_block line = log_block log
  /\ dbg_txHash line = hash (ev_transaction transferData).
Proof.
  unfold getTransfer, assertNotNull, transfer_of_log.
  destruct (log_transaction log) as [transaction|]; [|done].
  destruct (Transfer_decode abi log) as [e|event]; [done|].
  intros [= <- <-]. cbn. split_and!; try done. by exists event.
Qed.

Lemma getTransfer_inl abi log e :
  getTransfer abi log = inl e ->
  (log_transaction log = None /\ e = Exn "AssertionError" "Missing transaction")
  \/ (is_Some (log_transaction log) /\ Transfer_decode abi log = inl e).
Proof.
  unfold getTransfer, assertNotNull.
  destruct (log_transaction log) as [transaction|]; [|intros [= <-]; by left].
  destruct (Transfer_decode abi log) as [e'|event]; [|done].
  intros [= <-]. right. by split; [eexists|].
Qed.

Lemma getTransfer_is_inr abi log :
  is_Some (log_transaction log) -> (exists event, Transfer_decode abi log = inr event) ->
  exists x, getTransfer abi log = inr x.
Proof.
  intros [transaction Htx] [event Hev].
  unfold getTransfer, assertNotNull. rewrite Htx, Hev. by eexists.
Qed.

Lemma collect_logs_app abi c (l1 l2 : list Log) :
  collect_logs abi c (l1 ++ l2) =
    match collect_logs abi c l1 with
    | (c', Some e) => (c', Some e)
    | (c', None) => collect_logs abi c' l2
    end.
Proof.
  revert c. induction l1 as [|log l1 IH]; intros c; [done|].
  cbn. destruct (collect_log abi c log) as [c' [e|]]; [done|]. apply IH.
Qed.

(** The two loops go through the logs of the batch in order. *)
Lemma collect_blocks_flat abi c (blocks : list BlockData) :
  collect_blocks abi c blocks = collect_logs abi c (blocks ≫= logs).
Proof.
  revert c. induction blocks as [|block blocks IH]; intros c; [done|].
  rewrite bind_cons, collect_logs_app. cbn.
  destruct (collect_logs abi c (logs block)) as [c' [e|]]; [done|]. apply IH.
Qed.

Lemma collect_logs_spec abi (logs : list Log) :
  forall c,
  exists xs,
    c_debug (collect_logs abi c logs).1 = c_debug c ++ xs.*1
    /\ c_transfersData (collect_logs abi c logs).1 = c_transfersData c ++ xs.*2
    /\ match (collect_logs abi c logs).2 with
       | None =>
           Forall2 (fun log x => getTransfer abi log = inr x)
             (filter (fun log => is_Transfer abi log) logs) xs
       | Some e =>
           exists pre log post,
             filter (fun log => is_Transfer abi log) logs = pre ++ log :: post
             /\ Forall2 (fun log x => getTransfer abi log = inr x) pre xs
             /\ getTransfer abi log = inl e
       end.
Proof.
  induction logs as [|log logs IH]; intros c.
  - exists []. cbn. rewrite !app_nil_r. by split_and!.
  - cbn [collect_logs]. unfold collect_log.
    destruct (is_Transfer abi log) eqn:His.
    + rewrite filter_cons_True by by rewrite His.
      destruct (getTransfer abi log) as [e|[line transfer]] eqn:Hget.
      * exists []. cbn. rewrite !app_nil_r. split_and!; try done.
        exists [], log, (filter (fun log => is_Transfer abi log) logs).
        split_and!; [done|constructor|done].
      * destruct (IH {| c_debug := c_debug c ++ [line];
                        c_transfersData := c_transfersData c ++ [transfer] |})
          as (xs & Hd & Ht & Hrest).
        exists ((line, transfer) :: xs). cbn in Hd, Ht.
        rewrite Hd, Ht, <- !app_assoc. split_and!; try done.
        destruct (collect_logs abi _ logs).2 as [e|].
        -- destruct Hrest as (pre & log' & post & -> & Hpre & He).
           exists (log :: pre), log', post. split_and!; [done| |done].
           by constructor.
        -- by constructor.
    + rewrite filter_cons_False by (rewrite His; intros []). apply IH.
Qed.

(** What a call of the handler comes to: either every transfer log has
    given its event and [processTransfers] was called on them, or the first
    log that [getTransfer] throws on has ended the call. *)
Lemma batch_handler_spec abi env cfg ctx now store :
  let hr := batch_handler abi env cfg ctx now store in
  exists xs,
    c_debug (hr_collected hr) = xs.*1
    /\ c_transfersData (hr_collected hr) = xs.*2
    /\ ((Forall2 (fun log x => getTransfer abi log = inr x) (transfer_logs abi ctx) xs
         /\ hr_run hr = Some (processTransfers env cfg (to_Context ctx) now store xs.*2)
         /\ hr_store hr = run_store (processTransfers env cfg (to_Context ctx) now store xs.*2)
         /\ hr_outcome hr
            = run_outcome (processTransfers env cfg (to_Context ctx) now store xs.*2))
        \/ (exists pre log post e,
              transfer_logs abi ctx = pre ++ log :: post
              /\ Forall2 (fun log x => getTransfer abi log = inr x) pre xs
              /\ getTransfer abi log = inl e
              /\ hr_run hr = None /\ hr_store hr = store
              /\ hr_outcome hr = Raised e)).
Proof.
  unfold batch_handler, transfer_logs. rewrite collect_blocks_flat.
  destruct (collect_logs_spec abi (ctx_blocks ctx ≫= logs)
              {| c_debug := []; c_transfersData := [] |}) as (xs & Hd & Ht & Hrest).
  destruct (collect_logs abi _ (ctx_blocks ctx ≫= logs)) as [c [e|]];
    cbn in Hd, Ht, Hrest |- *; exists xs; (split_and!; [done..|]).
  - right. destruct Hrest as (pre & log & post & Hlogs & Hpre & He).
    by exists pre, log, post, e.
  - left. by rewrite Ht.
Qed.

(** X6: when every transfer log of the batch has its transaction and can be
    decoded, the handler hands to [processTransfers] one event per log whose
    first topic is the transfer topic, in the order of the blocks and of
    their logs, each made of its log and of the decoded arguments, the two
    addresses in lower case; it logs one line per event, and the call ends
    as [processTransfers] does. *)
Theorem handler_collects_transfer_logs (abi : Erc721) (env : Env) (cfg : Config)
    (ctx : DataHandlerContext) (now : Z) (store : Store) :
  let hr := batch_handler abi env cfg ctx now store in
  let run := processTransfers env cfg (to_Context ctx) now store
               (c_transfersData (hr_collected hr)) in
  (forall log, log ∈ transfer_logs abi ctx ->
     is_Some (log_transaction log)
     /\ exists event, Transfer_decode abi log = inr event) ->
  Forall2 (transfer_of_log abi) (transfer_logs abi ctx)
    (c_transfersData (hr_collected hr))
  /\ length (c_debug (hr_collected hr)) = length (transfer_logs abi ctx)
  /\ hr_run hr = Some run
  /\ hr_store hr = run_store run
  /\ hr_outcome hr = run_outcome run.
Proof.
  intros hr run Hlogs. subst hr run.
  destruct (batch_handler_spec abi env cfg ctx now store)
    as (xs & Hd & -> & [(Hall & Hrun & Hstore & Hout)|Hstop]).
  - split_and!; try done.
    + apply Forall2_fmap_r. eapply Forall2_impl; [done|].
      intros log [line td] Hget. cbn. by apply getTransfer_inr in Hget as [? _].
    + rewrite Hd, length_fmap. symmetry. by eapply Forall2_length.
  - destruct Hstop as (pre & log & post & e & Heq & _ & He & _).
    destruct (Hlogs log) as [Htx Hev].
    { rewrite Heq. apply elem_of_app. right. left. }
    destruct (getTransfer_is_inr abi log Htx Hev) as [x Hx]. congruence.
Qed.

Lemma handler_collects_transfer_logs_witness :
  let hr := batch_handler Cases.abi Scenario.gateway_up main_config Cases.ctx 0
              Scenario.store in
  transfer_logs Cases.abi Cases.ctx = [Cases.a_to_b; Cases.b_to_c; Cases.a_to_c]
  /\ c_transfersData (hr_collected hr) = Scenario.batch
  /\ Forall2 (transfer_of_log Cases.abi) (transfer_logs Cases.abi Cases.ctx)
       Scenario.batch
  /\ length (c_debug (hr_collected hr)) = 3%nat
  /\ hr_outcome hr = Returned tt.
Proof.
  intros hr.
  assert (Hlogs : transfer_logs Cases.abi Cases.ctx
                  = [Cases.a_to_b; Cases.b_to_c; Cases.a_to_c]) by by vm_compute.
  assert (Hbatch : c_transfersData (hr_collected hr) = Scenario.batch) by by vm_compute.
  destruct (handler_collects_transfer_logs Cases.abi Scenario.gateway_up main_config
              Cases.ctx 0 Scenario.store) as (Hall & Hlen & _ & _ & Hout).
  { rewrite Hlogs. intros log Hin.
    repeat (apply elem_of_cons in Hin as [->|Hin]);
      [split; by eexists..|by apply elem_of_nil in Hin]. }
  fold hr in Hall, Hlen, Hout. rewrite Hbatch in Hall.
  split_and!; [done|done|done|by rewrite Hlen, Hlogs|].
  rewrite Hout. by vm_compute.
Defined.

(** The first element of a list that fails a test is where any cut of
    the list before a failing element, with passing elements only before
    it, is made. *)
Lemma first_failing_unique {A} (P : A -> Prop) (pre pre' post post' : list A) x x' :
  pre ++ x :: post = pre' ++ x' :: post' ->
  Forall P pre -> ~ P x -> Forall P pre' -> ~ P x' ->
  pre = pre' /\ x = x' /\ post = post'.
Proof.
  revert pre'. induction pre as [|y pre IH]; intros [|y' pre']; cbn.
  - by intros [= -> ->].
  - intros [= -> _] _ Hx Hpre'. by apply Forall_cons in Hpre' as [? _].
  - intros [= -> _] Hpre _ _ Hx'. by apply Forall_cons in Hpre as [? _].
  - intros [= -> Heq] [_ Hpre]%Forall_cons Hx [_ Hpre']%Forall_cons Hx'.
    destruct (IH pre' Heq Hpre Hx Hpre' Hx') as (-> & -> & ->). done.
Qed.

(** The call of the handler ends at the first transfer log on which
    [getTransfer] throws, with what it throws there and with the events of
    the logs before. *)
Lemma batch_handler_stops abi env cfg ctx now store (pre post : list Log) log e :
  let hr := batch_handler abi env cfg ctx now store in
  transfer_logs abi ctx = pre ++ log :: post ->
  Forall (fun log' => exists x, getTransfer abi log' = inr x) pre ->
  getTransfer abi log = inl e ->
  hr_run hr = None /\ hr_store hr = store /\ hr_outcome hr = Raised e
  /\ Forall2 (transfer_of_log abi) pre (c_transfersData (hr_collected hr))
  /\ length (c_debug (hr_collected hr)) = length pre.
Proof.
  intros hr Hlogs Hpre Hlog. subst hr.
  assert (Hnot : ~ exists x, getTransfer abi log = inr x).
  { intros [x Hx]. congruence. }
  destruct (batch_handler_spec abi env cfg ctx now store)
    as (xs & Hd & Ht & [(Hall & _)|Hstop]).
  - destruct Hnot. rewrite Hlogs in Hall.
    destruct (Forall2_lookup_l _ _ _ (length pre) log Hall) as (x & _ & Hx); [|by exists x].
    by rewrite lookup_app_r, Nat.sub_diag by done.
  - destruct Hstop as (pre' & log' & post' & e' & Heq & Hpre' & He' & Hrun & Hstore & Hout).
    rewrite Hlogs in Heq.
    destruct (first_failing_unique (fun log' => exists x, getTransfer abi log' = inr x)
                _ _ _ _ _ _ Heq Hpre Hnot) as (<- & <- & <-).
    { apply Forall_forall. intros l [i Hi]%list_elem_of_lookup.
      destruct (Forall2_lookup_l _ _ _ _ _ Hpre' Hi) as (x & _ & Hx). by exists x. }
    { intros [x Hx]. congruence. }
    rewrite Hout, Ht, Hd, length_fmap. split_and!; try done; [congruence| |].
    + apply Forall2_fmap_r. eapply Forall2_impl; [done|].
      intros l [line td] Hget. cbn. by apply getTransfer_inr in Hget as [? _].
    + symmetry. by eapply Forall2_length.
Qed.

(** X7: the handler asserts that a transfer log has its transaction before
    it decodes the log, and a failed assertion ends the call before
    [processTransfers] is called, with nothing stored.  At the first
    transfer log [log] of a batch that has come without its transaction:
    when the decoder accepts every transfer log before it, what is thrown
    is the [AssertionError] [Missing transaction], whatever the decoder
    would make of [log], and the events collected by then are those of the
    logs before; when the decoder throws on a log before, the first of
    these ends the call with the error of the decoder. *)
Theorem missing_transaction_stops_the_batch (abi : Erc721) (env : Env)
    (cfg : Config) (ctx : DataHandlerContext) (now : Z) (store : Store)
    (pre post : list Log) (log : Log) :
  let hr := batch_handler abi env cfg ctx now store in
  transfer_logs abi ctx = pre ++ log :: post ->
  log_transaction log = None ->
  Forall (fun log' => is_Some (log_transaction log')) pre ->
  hr_run hr = None
  /\ hr_store hr = store
  /\ (Forall (fun log' => exists event, Transfer_decode abi log' = inr event) pre ->
        hr_outcome hr = Raised (Exn "AssertionError" "Missing transaction")
        /\ Forall2 (transfer_of_log abi) pre (c_transfersData (hr_collected hr)))
  /\ (forall pre1 log1 post1 e,
        pre = pre1 ++ log1 :: post1 ->
        Forall (fun log' => exists event, Transfer_decode abi log' = inr event) pre1 ->
        Transfer_decode abi log1 = inl e ->
        hr_outcome hr = Raised e
        /\ Forall2 (transfer_of_log abi) pre1 (c_transfersData (hr_collected hr))).
Proof.
  intros hr Hlogs Htx Hpre. subst hr.
  assert (Hassert : getTransfer abi log
                    = inl (Exn "AssertionError" "Missing transaction")).
  { unfold getTransfer, assertNotNull. by rewrite Htx. }
  assert (Hget : forall l : list Log,
            Forall (fun log' => is_Some (log_transaction log')) l ->
            Forall (fun log' => exists event, Transfer_decode abi log' = inr event) l ->
            Forall (fun log' => exists x, getTransfer abi log' = inr x) l).
  { intros l Hl1 Hl2. rewrite Forall_forall in *. intros log' Hin.
    apply getTransfer_is_inr; auto. }
  assert (Hstop : hr_run (batch_handler abi env cfg ctx now store) = None
                  /\ hr_store (batch_handler abi env cfg ctx now store) = store).
  { destruct (batch_handler_spec abi env cfg ctx now store)
      as (xs & _ & _ & [(Hall & _)|Hstop]).
    - rewrite Hlogs in Hall.
      destruct (Forall2_lookup_l _ _ _ (length pre) log Hall) as (x & _ & Hx);
        [|congruence].
      by rewrite lookup_app_r, Nat.sub_diag by done.
    - by destruct Hstop as (_ & _ & _ & _ & _ & _ & _ & ? & ? & _). }
  destruct Hstop as [Hrun Hstore]. split_and!; [done..| |].
  - intros Hdec.
    by destruct (batch_handler_stops abi env cfg ctx now store pre post log _
                   Hlogs (Hget pre Hpre Hdec) Hassert) as (_ & _ & ? & ? & _).
  - intros pre1 log1 post1 e -> Hdec He.
    apply Forall_app in Hpre as [Hpre1 [Htx1 _]%Forall_cons].
    assert (Hlog1 : getTransfer abi log1 = inl e).
    { unfold getTransfer, assertNotNull.
      destruct Htx1 as [transaction ->]. by rewrite He. }
    rewrite <- app_assoc in Hlogs. cbn [app] in Hlogs.
    by destruct (batch_handler_stops abi env cfg ctx now store pre1 _ log1 _
                   Hlogs (Hget pre1 Hpre1 Hdec) Hlog1) as (_ & _ & ? & ? & _).
Qed.

Lemma missing_transaction_stops_the_batch_witness :
  let hr := batch_handler Cases.abi Scenario.gateway_up main_config Cases.ctx_orphan 0
              Scenario.store in
  transfer_logs Cases.abi Cases.ctx_orphan = [Cases.a_to_b] ++ Cases.orphan :: [Cases.a_to_c]
  /\ log_transaction Cases.orphan = None
  /\ hr_run hr = None
  /\ hr_store hr = Scenario.store
  /\ hr_outcome hr = Raised (Exn "AssertionError" "Missing transaction")
  /\ Forall2 (transfer_of_log Cases.abi) [Cases.a_to_b] (c_transfersData (hr_collected hr)).
Proof.
  intros hr.
  assert (Hlogs : transfer_logs Cases.abi Cases.ctx_orphan
                  = [Cases.a_to_b] ++ Cases.orphan :: [Cases.a_to_c]) by by vm_compute.
  destruct (missing_transaction_stops_the_batch Cases.abi Scenario.gateway_up
              main_config Cases.ctx_orphan 0 Scenario.store
              [Cases.a_to_b] [Cases.a_to_c] Cases.orphan Hlogs eq_refl)
    as (Hrun & Hstore & Hassert & _).
  { repeat constructor. by eexists. }
  destruct Hassert as [Hout Hevents].
  { repeat constructor. by eexists. }
  by split_and!.
Defined.

(** ** What [upsert] leaves in a table *)

Section upsert.
Context {R : Type} (key : R -> string).
Implicit Types (r : R) (rows table : list R).

Lemma elem_of_upsert_row r table : r ∈ upsert_row key r table.
Proof.
  induction table as [|r' table IH]; cbn; [left|].
  case_decide; [left | by right].
Qed.

Lemma lookup_upsert_row_ne r' table i r :
  table !! i = Some r -> key r' <> key r -> upsert_row key r' table !! i = Some r.
Proof.
  revert i. induction table as [|r0 table IH]; intros i Hi Hne; [done|].
  cbn. destruct i as [|i]; cbn in Hi.
  - injection Hi as ->. by rewrite decide_False.
  - case_decide; [done|]. by apply IH.
Qed.

Lemma elem_of_upsert_row_ne r r' table :
  r ∈ table -> key r' <> key r -> r ∈ upsert_row key r' table.
Proof.
  intros [i Hi]%list_elem_of_lookup Hne.
  eapply list_elem_of_lookup_2. by apply lookup_upsert_row_ne.
Qed.

Lemma elem_of_upsert_row_inv r r' table :
  r ∈ upsert_row key r' table -> r = r' \/ r ∈ table.
Proof.
  induction table as [|r0 table IH]; cbn.
  - intros ->%list_elem_of_singleton. by left.
  - case_decide; rewrite !elem_of_cons; naive_solver.
Qed.

Lemma upsert_row_keys r table :
  key <$> upsert_row key r table =
    if decide (key r ∈ key <$> table) then key <$> table
    else (key <$> table) ++ [key r].
Proof.
  induction table as [|r0 table IH]; cbn.
  - rewrite decide_False; [done | apply not_elem_of_nil].
  - destruct (decide (key r = key r0)) as [Heq|Hne]; cbn.
    + rewrite decide_True by (rewrite Heq; left). by rewrite Heq.
    + rewrite IH. destruct (decide (key r ∈ key <$> table)) as [Hin|Hnin].
      * rewrite decide_True; [done | by right].
      * rewrite decide_False; [done|]. rewrite not_elem_of_cons. done.
Qed.

Lemma upsert_row_same r table :
  NoDup (key <$> table) -> r ∈ table -> upsert_row key r table = table.
Proof.
  induction table as [|r0 table IH]; [by intros _ ?%elem_of_nil|].
  rewrite fmap_cons. intros [Hr0 Hnd]%NoDup_cons [->|Hin]%elem_of_cons; cbn.
  - by rewrite decide_True.
  - rewrite decide_False; [by rewrite IH|].
    intros Heq. apply Hr0. rewrite <- Heq. by apply list_elem_of_fmap_2.
Qed.

Lemma lookup_upsert_ne rows table i r :
  table !! i = Some r -> key r ∉ key <$> rows ->
  upsert key rows table !! i = Some r.
Proof.
  unfold upsert. revert table.
  induction rows as [|r0 rows IH]; intros table Hi Hnin; [done|].
  rewrite fmap_cons, not_elem_of_cons in Hnin. destruct Hnin as [Hne Hnin].
  cbn [fold_left]. apply IH; [|done]. apply lookup_upsert_row_ne; [done|congruence].
Qed.

Lemma elem_of_upsert_ne rows table r :
  r ∈ table -> key r ∉ key <$> rows -> r ∈ upsert key rows table.
Proof.
  intros [i Hi]%list_elem_of_lookup Hnin.
  eapply list_elem_of_lookup_2. by apply lookup_upsert_ne.
Qed.

Lemma elem_of_upsert rows table r :
  NoDup (key <$> rows) -> r ∈ rows -> r ∈ upsert key rows table.
Proof.
  unfold upsert. revert table.
  induction rows as [|r0 rows IH]; intros table; [by intros _ ?%elem_of_nil|].
  rewrite fmap_cons. intros [Hr0 Hnd]%NoDup_cons [->|Hin]%elem_of_cons;
    cbn [fold_left].
  - apply (elem_of_upsert_ne rows); [apply elem_of_upsert_row | done].
  - by apply IH.
Qed.

Lemma elem_of_upsert_inv rows table r :
  r ∈ upsert key rows table -> r ∈ rows \/ r ∈ table.
Proof.
  unfold upsert. revert table.
  induction rows as [|r0 rows IH]; intros table; cbn [fold_left]; [by right|].
  intros [Hin|[->|Hin]%elem_of_upsert_row_inv]%IH.
  - left. by right.
  - left. left.
  - by right.
Qed.

Lemma upsert_keys_prefix rows table :
  (key <$> table) `prefix_of` (key <$> upsert key rows table).
Proof.
  unfold upsert. revert table.
  induction rows as [|r0 rows IH]; intros table; cbn [fold_left]; [done|].
  etrans; [|apply IH]. rewrite upsert_row_keys.
  case_decide; [done | by apply prefix_app_r].
Qed.

Lemma upsert_NoDup rows table :
  NoDup (key <$> table) -> NoDup (key <$> upsert key rows table).
Proof.
  unfold upsert. revert table.
  induction rows as [|r0 rows IH]; intros table Hnd; cbn [fold_left]; [done|].
  apply IH. rewrite upsert_row_keys. case_decide; [done|].
  apply NoDup_app. split_and!; [done| |apply NoDup_singleton].
  by intros x Hx ->%list_elem_of_singleton.
Qed.

Lemma upsert_same rows table :
  NoDup (key <$> table) -> (forall r, r ∈ rows -> r ∈ table) ->
  upsert key rows table = table.
Proof.
  unfold upsert. intros Hnd.
  induction rows as [|r0 rows IH]; intros Hin; cbn [fold_left]; [done|].
  rewrite upsert_row_same; [|done|apply Hin; left].
  apply IH. intros r Hr. apply Hin. by right.
Qed.

(** Rows with distinct keys are told apart by their keys. *)
Lemma NoDup_key_eq table r r' :
  NoDup (key <$> table) -> r ∈ table -> r' ∈ table -> key r = key r' -> r = r'.
Proof.
  intros Hnd [i Hi]%list_elem_of_lookup [j Hj]%list_elem_of_lookup Heq.
  assert (i = j) as ->; [|congruence].
  apply (NoDup_lookup _ _ _ (key r) Hnd); rewrite list_lookup_fmap.
  - by rewrite Hi.
  - by rewrite Hj, Heq.
Qed.

End upsert.

(** ** What the resolver loop leaves of the events and of the tokens *)

Lemma owner_for_tokens h owners id :
  tokens_h (owner_for h owners id).1.1 = tokens_h h.
Proof. unfold owner_for. by destruct (JSMap.get id owners). Qed.

Lemma token_for_lookup h tokens newTokens tid index l tok :
  tokens_h h !! l = Some tok ->
  tokens_h (token_for h tokens newTokens tid index).1.1.1 !! l = Some tok.
Proof.
  intros Hl. unfold token_for. destruct (JSMap.get tid tokens); [done|].
  cbn. by apply lookup_app_l_Some.
Qed.

Lemma set_owner_metadata o tok : same_metadata tok (set_owner o tok).
Proof. done. Qed.

Lemma same_metadata_trans tok1 tok2 tok3 :
  same_metadata tok1 tok2 -> same_metadata tok2 tok3 -> same_metadata tok1 tok3.
Proof. unfold same_metadata. intros (?&?&?&?&?) (?&?&?&?&?). split_and!; congruence. Qed.

Lemma resolve_transfer_metadata st td l tok :
  tokens_h (r_heap st) !! l = Some tok ->
  exists tok', tokens_h (r_heap (resolve_transfer st td)) !! l = Some tok'
    /\ same_metadata tok tok'.
Proof.
  intros Hl. unfold resolve_transfer.
  pose proof (owner_for_tokens (r_heap st) (r_owners st) (ev_from td)) as H1.
  destruct (owner_for (r_heap st) (r_owners st) (ev_from td)) as [[h1 owners1] from].
  pose proof (owner_for_tokens h1 owners1 (ev_to td)) as H2.
  destruct (owner_for h1 owners1 (ev_to td)) as [[h2 owners2] to].
  cbn in H1, H2.
  pose proof (token_for_lookup h2 (r_tokens st) (r_newTokens st) (tokenId td)
                (ev_tokenIndex td) l tok) as H3.
  destruct (token_for h2 (r_tokens st) (r_newTokens st) (tokenId td)
              (ev_tokenIndex td)) as [[[h3 tokens3] newTokens3] token].
  cbn in H3 |- *. rewrite H2, H1 in H3. specialize (H3 Hl).
  destruct (decide (token = l)) as [->|Hne].
  - rewrite list_lookup_alter_eq, H3. cbn. by eexists.
  - rewrite list_lookup_alter_ne, H3 by done. by eexists.
Qed.

Lemma resolve_transfer_copies st td :
  exists tr, r_transfers (resolve_transfer st td) = r_transfers st ++ [tr]
    /\ transfer_copies td tr.
Proof.
  unfold resolve_transfer.
  destruct (owner_for (r_heap st) (r_owners st) (ev_from td)) as [[h1 owners1] from].
  destruct (owner_for h1 owners1 (ev_to td)) as [[h2 owners2] to].
  destruct (token_for h2 (r_tokens st) (r_newTokens st) (tokenId td)
              (ev_tokenIndex td)) as [[[h3 tokens3] newTokens3] token].
  cbn. by eexists.
Qed.

Lemma resolve_fold_copies (transfersData : list TransferEvent) :
  forall st,
  let st' := fold_left resolve_transfer transfersData st in
  (exists trs, r_transfers st' = r_transfers st ++ trs
     /\ Forall2 transfer_copies transfersData trs)
  /\ (forall l tok, tokens_h (r_heap st) !! l = Some tok ->
        exists tok', tokens_h (r_heap st') !! l = Some tok' /\ same_metadata tok tok').
Proof.
  induction transfersData as [|td tds IH]; intros st; cbn [fold_left].
  - split; [exists []; by rewrite app_nil_r|].
    intros l tok Hl. by exists tok.
  - destruct (IH (resolve_transfer st td)) as [(trs & Htrs & Hall) Hmeta].
    destruct (resolve_transfer_copies st td) as (tr & Htr & Hcopy).
    split.
    + exists (tr :: trs). rewrite Htrs, Htr, <- app_assoc. split; [done|].
      by constructor.
    + intros l tok Hl.
      destruct (resolve_transfer_metadata st td l tok Hl) as (tok1 & Hl1 & Hm1).
      destruct (Hmeta l tok1 Hl1) as (tok' & Hl' & Hm').
      exists tok'. split; [done|]. by eapply same_metadata_trans.
Qed.

(** In a map whose keys are distinct an entry is what [get] finds. *)
Lemma JSMap_elem_of_get {V} (k : string) (v : V) (m : JSMap.t V) :
  NoDup (JSMap.keys m) -> (k, v) ∈ m -> JSMap.get k m = Some v.
Proof.
  unfold JSMap.keys.
  induction m as [|[k' v'] m IH]; [by intros _ ?%elem_of_nil|].
  rewrite fmap_cons. intros [Hk' Hnd]%NoDup_cons [[= -> ->]|Hin]%elem_of_cons; cbn.
  - by rewrite decide_True.
  - rewrite decide_False; [by apply IH|].
    intros ->. apply Hk'. apply list_elem_of_fmap. by exists (k', v).
Qed.

(** The objects behind the values of a map, one for each entry and in the
    order of the entries. *)
Lemma deref_values {A} (heap : list A) (m : JSMap.t loc) :
  (forall k l, (k, l) ∈ m -> is_Some (heap !! l)) ->
  Forall2 (fun kl x => heap !! kl.2 = Some x) m (deref heap (JSMap.values m)).
Proof.
  unfold deref, JSMap.values.
  induction m as [|[k l] m IH]; intros Hm; [constructor|].
  destruct (Hm k l) as [x Hx]; [left|].
  cbn. rewrite Hx. constructor; [done|].
  apply IH. intros k' l' Hin. apply (Hm k' l'). by right.
Qed.

(** [initTokens] writes to the tokens it is given and to no other. *)
Lemma initTokens_others env cfg ctx now h (tokens : list loc) l :
  NoDup tokens -> l ∉ tokens ->
  tokens_h (ir_heap (initTokens env cfg ctx now h tokens)) !! l = tokens_h h !! l.
Proof.
  intros Hnd Hl.
  destruct (initTokens_spec env cfg ctx now h tokens) as [[[-> _]|Hmerge] _]; [done|].
  destruct Hmerge as (block & metadatas & err & _ & _ & _ & Hm & _).
  destruct (merge_from_spec _ _ _ _ _ _ _ Hm Hnd) as (_ & _ & Hframe & _).
  by apply Hframe.
Qed.

(** A token that has its row in the store is loaded from it, and comes out
    of the resolver loop with what the row says, its owner apart. *)
Lemma resolve_loaded store (transfersData : list TransferEvent) r0 :
  NoDup (row_id <$> token_table store) -> r0 ∈ token_table store ->
  (exists td, td ∈ transfersData /\ row_id r0 = tokenId td) ->
  exists l tok,
    JSMap.get (row_id r0) (r_tokens (resolve store transfersData)) = Some l
    /\ tokens_h (r_heap (resolve store transfersData)) !! l = Some tok
    /\ same_metadata (token_of_row r0) tok
    /\ l ∉ r_newTokens (resolve store transfersData).
Proof.
  intros Hnd Hr0 (td & Htd & Hid).
  destruct (resolve_fold_spec _ transfersData (load store transfersData) []
              (load_wf store transfersData))
    as (Hwf & _ & _ & _ & _ & _ & Hmono).
  { intros tid td'. unfold last_transfer_of. by cbn. }
  { cbn. constructor. }
  fold (resolve store transfersData) in *.
  assert (Hkey : row_id r0 ∈ JSMap.keys (r_tokens (load store transfersData))).
  { apply load_token_keys. split; [by exists td|]. by apply list_elem_of_fmap_2. }
  apply JSMap_get_is_Some in Hkey as [l0 Hl0].
  exists l0. pose proof (Hmono _ _ Hl0) as Hget.
  unfold load in Hl0. cbn [r_tokens] in Hl0.
  apply JSMap_of_entries_get, elem_of_lookup_imap in Hl0 as (i & x & [= Hx ->] & Hi).
  apply list_lookup_fmap_Some in Hi as Hi'. destruct Hi' as (r1 & -> & Hr1).
  assert (r1 = r0) as ->.
  { apply list_elem_of_lookup_2, list_elem_of_filter in Hr1 as [_ Hr1].
    by apply (NoDup_key_eq row_id (token_table store)). }
  destruct (resolve_fold_copies transfersData (load store transfersData))
    as [_ Hmeta].
  destruct (Hmeta i (token_of_row r0)) as (tok & Htok & Hsame); [done|].
  fold (resolve store transfersData) in *.
  exists tok. split_and!; [done..|].
  intros [Hn0 _]%(wf_new_range _ _ Hwf).
  apply lookup_lt_Some in Hi. cbn in Hn0. lia.
Qed.

Lemma last_transfer_of_is_Some (transfersData : list TransferEvent) td :
  td ∈ transfersData ->
  exists td', last_transfer_of (tokenId td) transfersData = Some td'.
Proof.
  intros Hin. unfold last_transfer_of. apply last_is_Some.
  intros Hnil. assert (Hf : td ∈ filter (fun transferData => tokenId transferData = tokenId td)
                                    transfersData) by by apply list_elem_of_filter.
  rewrite Hnil in Hf. by apply elem_of_nil in Hf.
Qed.

(** ** The rows that a run writes *)

Lemma deref_owner_values (heap : list Owner) (m : JSMap.t loc) :
  (forall k l, (k, l) ∈ m -> heap !! l = Some {| owner_id := k |}) ->
  deref heap (JSMap.values m) = (fun k => {| owner_id := k |}) <$> JSMap.keys m.
Proof.
  unfold deref, JSMap.values, JSMap.keys.
  induction m as [|[k l] m IH]; intros Hm; [done|].
  cbn. rewrite (Hm k l) by left. f_equal.
  apply IH. intros k' l' Hin. apply Hm. by right.
Qed.

(** The owner rows: one for each address of the batch. *)
Lemma flush_owner_rows env cfg ctx now store (transfersData : list TransferEvent) :
  let st := resolve store transfersData in
  let h' := ir_heap (initTokens env cfg ctx now (r_heap st) (r_newTokens st)) in
  deref (owners_h h') (JSMap.values (r_owners st))
    = (fun k => {| owner_id := k |}) <$> JSMap.keys (r_owners st).
Proof.
  cbv zeta.
  destruct (resolve_spec store transfersData) as (Hwf & _).
  destruct (initTokens_frame env cfg ctx now (r_heap (resolve store transfersData))
              _ (wf_new_NoDup _ _ Hwf)) as [Hown _].
  rewrite Hown. apply deref_owner_values.
  intros k l Hin. apply (wf_owners _ _ Hwf).
  by apply JSMap_elem_of_get; [apply (wf_owner_keys _ _ Hwf)|].
Qed.

(** The transfer rows: the row of each event, in order. *)
Lemma flush_transfer_rows env cfg ctx now store (transfersData : list TransferEvent) :
  let st := resolve store transfersData in
  let h' := ir_heap (initTokens env cfg ctx now (r_heap st) (r_newTokens st)) in
  row_of_transfer h' <$> r_transfers st = transfer_row <$> transfersData.
Proof.
  cbv zeta.
  destruct (resolve_spec store transfersData) as (Hwf & _ & Hres & _).
  destruct (initTokens_frame env cfg ctx now (r_heap (resolve store transfersData))
              _ (wf_new_NoDup _ _ Hwf)) as [Hown Htok].
  destruct (resolve_fold_copies transfersData (load store transfersData))
    as [(trs & Htrs & Hcopies) _].
  fold (resolve store transfersData) in Htrs.
  cbn in Htrs. rewrite Htrs in Hres |- *. clear Htrs.
  symmetry. apply list_eq_Forall2, Forall2_fmap.
  apply Forall2_same_length_lookup. split; [by eapply Forall2_length|].
  intros i td tr Htd Htr.
  destruct (Forall2_lookup_lr _ _ _ _ _ _ Hres Htd Htr) as (Hfrom & Hto & Htoken).
  destruct (Forall2_lookup_lr _ _ _ _ _ _ Hcopies Htd Htr) as (Hid & Hnum & Hts & Hhash).
  apply (wf_owners _ _ Hwf) in Hfrom, Hto.
  apply (wf_tokens _ _ Hwf) in Htoken as (tok & Htoken & Htid).
  destruct (Htok _ _ Htoken) as (tok' & Htoken' & Htid' & _).
  unfold row_of_transfer, transfer_row.
  rewrite Hown, Hfrom, Hto, Htoken', Hid, Hnum, Hts, Hhash. cbn.
  by rewrite Htid', Htid.
Qed.

(** The token rows: one for each token of the batch, owned by the last
    recipient, and otherwise as the store had it if it had it. *)
Lemma flush_token_rows env cfg ctx now store (transfersData : list TransferEvent) :
  let st := resolve store transfersData in
  let h' := ir_heap (initTokens env cfg ctx now (r_heap st) (r_newTokens st)) in
  let rows := row_of_token h' <$> deref (tokens_h h') (JSMap.values (r_tokens st)) in
  row_id <$> rows = JSMap.keys (r_tokens st)
  /\ (forall row, row ∈ rows ->
        exists td, last_transfer_of (row_id row) transfersData = Some td
          /\ row_owner row = Some (ev_to td))
  /\ (forall row r0, row ∈ rows ->
        NoDup (row_id <$> token_table store) -> r0 ∈ token_table store ->
        row_id r0 = row_id row -> same_row_metadata r0 row).
Proof.
  cbv zeta.
  destruct (resolve_spec store transfersData) as (Hwf & Hlast & _ & _ & Hkeys & _).
  destruct (initTokens_frame env cfg ctx now (r_heap (resolve store transfersData))
              _ (wf_new_NoDup _ _ Hwf)) as [Hown Hframe].
  set (h' := ir_heap (initTokens env cfg ctx now (r_heap (resolve store transfersData))
                        (r_newTokens (resolve store transfersData)))) in *.
  assert (Hentry : forall k l, (k, l) ∈ r_tokens (resolve store transfersData) ->
            JSMap.get k (r_tokens (resolve store transfersData)) = Some l
            /\ exists tok tok',
                 tokens_h (r_heap (resolve store transfersData)) !! l = Some tok
                 /\ tokens_h h' !! l = Some tok'
                 /\ tok_id tok' = k /\ tok_owner tok' = tok_owner tok).
  { intros k l Hin.
    assert (Hget : JSMap.get k (r_tokens (resolve store transfersData)) = Some l)
      by by apply JSMap_elem_of_get; [apply (wf_token_keys _ _ Hwf)|].
    split; [done|].
    destruct (wf_tokens _ _ Hwf _ _ Hget) as (tok & Htok & Hid).
    destruct (Hframe _ _ Htok) as (tok' & Htok' & Hid' & Hown').
    exists tok, tok'. split_and!; [done..|congruence|done]. }
  pose proof (deref_values (tokens_h h') (r_tokens (resolve store transfersData))) as Hd.
  specialize (Hd ltac:(intros k l Hin; destruct (Hentry k l Hin)
                         as (_ & tok & tok' & _ & Htok' & _); by exists tok')).
  assert (Hrow : forall row,
            row ∈ row_of_token h' <$> deref (tokens_h h')
                    (JSMap.values (r_tokens (resolve store transfersData))) ->
            exists k l tok',
              (k, l) ∈ r_tokens (resolve store transfersData)
              /\ tokens_h h' !! l = Some tok' /\ row = row_of_token h' tok').
  { intros row (tok' & -> & [i Hi]%list_elem_of_lookup)%list_elem_of_fmap.
    destruct (Forall2_lookup_r _ _ _ _ _ Hd Hi) as ([k l] & Hkl & Htok').
    exists k, l, tok'. split_and!; [|done..]. by eapply list_elem_of_lookup_2. }
  split_and!.
  - apply list_eq_Forall2. rewrite <- list_fmap_compose. unfold JSMap.keys.
    apply Forall2_fmap, Forall2_same_length_lookup.
    split; [symmetry; by eapply Forall2_length|].
    intros i tok' [k l] Hi Hkl.
    pose proof (Forall2_lookup_lr _ _ _ _ _ _ Hd Hkl Hi) as Htok'. cbn in *.
    destruct (Hentry k l (list_elem_of_lookup_2 _ _ _ Hkl))
      as (_ & tok & tok'' & _ & Htok'' & Hid & _).
    congruence.
  - intros row (k & l & tok' & Hin & Htok' & ->)%Hrow.
    destruct (Hentry k l Hin) as (Hget & tok & tok'' & Htok & Htok'' & Hid & Hsame).
    assert (tok'' = tok') as -> by congruence.
    assert (Hk : k ∈ JSMap.keys (r_tokens (resolve store transfersData))).
    { apply JSMap_get_is_Some. by rewrite Hget. }
    apply Hkeys in Hk as (td0 & Htd0 & ->).
    destruct (last_transfer_of_is_Some transfersData td0 Htd0) as [td Htd].
    exists td. cbn [row_of_token row_id row_owner]. rewrite Hid. split; [done|].
    destruct (Hlast _ _ Htd) as (token & tok0 & o & Hget0 & Htok0 & _ & Ho & _ & Howner).
    assert (token = l) as -> by congruence.
    assert (tok0 = tok) as -> by congruence.
    rewrite Hsame, Ho, Hown. cbn. by rewrite Howner.
  - intros row r0 (k & l & tok' & Hin & Htok' & ->)%Hrow Hnd Hr0 Heq.
    destruct (Hentry k l Hin) as (Hget & tok & tok'' & Htok & Htok'' & Hid & _).
    assert (tok'' = tok') as -> by congruence.
    cbn [row_of_token row_id] in Heq. rewrite Hid in Heq.
    assert (Hk : k ∈ JSMap.keys (r_tokens (resolve store transfersData))).
    { apply JSMap_get_is_Some. by rewrite Hget. }
    apply Hkeys in Hk as (td0 & Htd0 & Hk).
    destruct (resolve_loaded store transfersData r0 Hnd Hr0)
      as (l0 & tok1 & Hget1 & Htok1 & Hmeta & Hold); [exists td0; split; congruence|].
    assert (l0 = l) as -> by congruence.
    pose proof (initTokens_others env cfg ctx now
                  (r_heap (resolve store transfersData)) _ l
                  (wf_new_NoDup _ _ Hwf) Hold) as Hsame.
    fold h' in Hsame. rewrite Htok', Htok1 in Hsame. injection Hsame as ->.
    destruct Hmeta as (?&?&?&?&?). by split_and!.
Qed.

(** The three tables after a run that has returned. *)
Lemma run_store_returned env cfg ctx now store (transfersData : list TransferEvent) :
  let st := resolve store transfersData in
  let h' := ir_heap (initTokens env cfg ctx now (r_heap st) (r_newTokens st)) in
  let run := processTransfers env cfg ctx now store transfersData in
  run_outcome run = Returned tt ->
  owner_table (run_store run)
    = upsert owner_id ((fun k => {| owner_id := k |}) <$> JSMap.keys (r_owners st))
        (owner_table store)
  /\ token_table (run_store run)
     = upsert row_id
         (row_of_token h' <$> deref (tokens_h h') (JSMap.values (r_tokens st)))
         (token_table store)
  /\ transfer_table (run_store run)
     = upsert trow_id (transfer_row <$> transfersData) (transfer_table store).
Proof.
  cbv zeta. cbn [processTransfers run_outcome run_store]. intros ->.
  cbn [flush owner_table token_table transfer_table].
  pose proof (flush_owner_rows env cfg ctx now store transfersData) as Ho.
  pose proof (flush_transfer_rows env cfg ctx now store transfersData) as Ht.
  cbv zeta in Ho, Ht. by rewrite Ho, Ht.
Qed.

Lemma stored_transfer_row env cfg ctx now store (transfersData : list TransferEvent) td :
  let run := processTransfers env cfg ctx now store transfersData in
  run_outcome run = Returned tt -> NoDup (ev_id <$> transfersData) ->
  td ∈ transfersData ->
  transfer_row td ∈ transfer_table (run_store run).
Proof.
  intros run Hret Hnd Hin.
  destruct (run_store_returned env cfg ctx now store transfersData Hret)
    as (_ & _ & Htr).
  subst run. rewrite Htr. apply elem_of_upsert.
  - by rewrite <- list_fmap_compose.
  - by apply list_elem_of_fmap_2.
Qed.

Lemma stored_owner_row env cfg ctx now store (transfersData : list TransferEvent) td :
  let run := processTransfers env cfg ctx now store transfersData in
  run_outcome run = Returned tt -> td ∈ transfersData ->
  {| owner_id := ev_from td |} ∈ owner_table (run_store run)
  /\ {| owner_id := ev_to td |} ∈ owner_table (run_store run).
Proof.
  intros run Hret Hin.
  destruct (run_store_returned env cfg ctx now store transfersData Hret)
    as (Hown & _).
  destruct (resolve_spec store transfersData) as (Hwf & _ & _ & Hkeys & _).
  subst run. rewrite Hown.
  split; (apply elem_of_upsert;
    [rewrite <- list_fmap_compose; cbn;
     rewrite list_fmap_id; apply (wf_owner_keys _ _ Hwf)
    |apply list_elem_of_fmap_2, Hkeys; exists td; split; [done|]]);
    [by left | by right].
Qed.

Lemma stored_token_row env cfg ctx now store (transfersData : list TransferEvent)
    tid td :
  let run := processTransfers env cfg ctx now store transfersData in
  run_outcome run = Returned tt -> last_transfer_of tid transfersData = Some td ->
  exists row,
    row ∈ token_table (run_store run)
    /\ row_id row = tid /\ row_owner row = Some (ev_to td)
    /\ (forall r0, NoDup (row_id <$> token_table store) -> r0 ∈ token_table store ->
          row_id r0 = tid -> same_row_metadata r0 row).
Proof.
  intros run Hret Hlast.
  destruct (run_store_returned env cfg ctx now store transfersData Hret)
    as (_ & Htok & _).
  destruct (flush_token_rows env cfg ctx now store transfersData)
    as (Hids & Howner & Hmeta).
  destruct (resolve_spec store transfersData) as (Hwf & _ & _ & _ & Hkeys & _).
  assert (Htd : td ∈ transfersData /\ tokenId td = tid).
  { unfold last_transfer_of in Hlast. apply last_Some_elem_of in Hlast.
    by apply list_elem_of_filter in Hlast as [? ?]. }
  assert (Hkey : tid ∈ JSMap.keys (r_tokens (resolve store transfersData))).
  { apply Hkeys. exists td. by destruct Htd. }
  rewrite <- Hids in Hkey. apply list_elem_of_fmap in Hkey as (row & -> & Hrow).
  exists row. destruct (Howner row Hrow) as (td' & Hlast' & Hto).
  assert (td' = td) as -> by congruence.
  split_and!; [|done|done|].
  - subst run. rewrite Htok. apply elem_of_upsert; [|done].
    rewrite Hids. apply (wf_token_keys _ _ Hwf).
  - intros r0 Hnd Hr0 Hid. by apply Hmeta.
Qed.

(** X8: after a run that has returned, every transfer event of a batch
    whose event ids are distinct has its row in the transfer table, with the
    block number, timestamp and transaction hash of the event and with the
    ids of its two owners and of its token, and these three have rows of
    their own. *)
Theorem transfers_are_stored (env : Env) (cfg : Config) (ctx : Context) (now : Z)
    (store : Store) (transfersData : list TransferEvent) (td : TransferEvent) :
  let run := processTransfers env cfg ctx now store transfersData in
  run_outcome run = Returned tt -> NoDup (ev_id <$> transfersData) ->
  td ∈ transfersData ->
  transfer_row td ∈ transfer_table (run_store run)
  /\ {| owner_id := ev_from td |} ∈ owner_table (run_store run)
  /\ {| owner_id := ev_to td |} ∈ owner_table (run_store run)
  /\ tokenId td ∈ row_id <$> token_table (run_store run).
Proof.
  intros run Hret Hnd Hin.
  destruct (stored_owner_row env cfg ctx now store transfersData td Hret Hin)
    as [Hfrom Hto].
  split_and!; [|done|done|].
  - by apply stored_transfer_row.
  - by apply flushed_tokens.
Qed.

Lemma transfers_are_stored_witness :
  let run := processTransfers Scenario.gateway_up main_config Scenario.ctx 0
               Scenario.store Scenario.batch in
  run_outcome run = Returned tt
  /\ NoDup (ev_id <$> Scenario.batch)
  /\ {| trow_id := "0012287507-000002"; trow_blockNumber := 12287507;
        trow_timestamp := 1619060596000; trow_txHash := "0x5e";
        trow_from := Some "0xb"; trow_to := Some "0xc"; trow_token := Some "7" |}
     ∈ transfer_table (run_store run)
  /\ {| owner_id := "0xb" |} ∈ owner_table (run_store run)
  /\ {| owner_id := "0xc" |} ∈ owner_table (run_store run)
  /\ "7" ∈ row_id <$> token_table (run_store run).
Proof.
  intros run.
  assert (Hret : run_outcome run = Returned tt) by by vm_compute.
  assert (Hnd : NoDup (ev_id <$> Scenario.batch))
    by by_evaluation.
  split; [done|]. split; [done|].
  apply (transfers_are_stored Scenario.gateway_up main_config Scenario.ctx 0
           Scenario.store Scenario.batch Scenario.b_to_c Hret Hnd).
  right. left.
Defined.

(** X9: after a run that has returned, the token table has a row for every
    token of the batch, and the owner it names is the recipient of the last
    transfer of that token in the batch, who has a row in the owner table. *)
Theorem stored_owner_is_last_recipient (env : Env) (cfg : Config) (ctx : Context)
    (now : Z) (store : Store) (transfersData : list TransferEvent)
    (tid : string) (td : TransferEvent) :
  let run := processTransfers env cfg ctx now store transfersData in
  run_outcome run = Returned tt -> last_transfer_of tid transfersData = Some td ->
  exists row,
    row ∈ token_table (run_store run)
    /\ row_id row = tid
    /\ row_owner row = Some (ev_to td)
    /\ {| owner_id := ev_to td |} ∈ owner_table (run_store run).
Proof.
  intros run Hret Hlast.
  destruct (stored_token_row env cfg ctx now store transfersData tid td Hret Hlast)
    as (row & Hrow & Hid & Hto & _).
  exists row. split_and!; [done..|].
  apply (stored_owner_row env cfg ctx now store transfersData td Hret).
  unfold last_transfer_of in Hlast. apply last_Some_elem_of in Hlast.
  by apply list_elem_of_filter in Hlast as [_ ?].
Qed.

Lemma stored_owner_is_last_recipient_witness :
  let run := processTransfers Scenario.gateway_up main_config Scenario.ctx 0
               Scenario.store Scenario.batch in
  run_outcome run = Returned tt
  /\ last_transfer_of "7" Scenario.batch = Some Scenario.b_to_c
  /\ exists row,
       row ∈ token_table (run_store run)
       /\ row_id row = "7"
       /\ row_owner row = Some "0xc"
       /\ {| owner_id := "0xc" |} ∈ owner_table (run_store run).
Proof.
  intros run.
  assert (Hret : run_outcome run = Returned tt) by by vm_compute.
  assert (Hlast : last_transfer_of "7" Scenario.batch = Some Scenario.b_to_c)
    by by vm_compute.
  split; [done|]. split; [done|].
  apply (stored_owner_is_last_recipient Scenario.gateway_up main_config Scenario.ctx 0
           Scenario.store Scenario.batch "7" Scenario.b_to_c Hret Hlast).
Defined.

(** X10: a token that has its row in the store keeps its index, URI, image
    and attributes through a batch, whatever the batch and however the run
    ends; only the owner of the row can change, and the row of a token that
    the batch does not mention stays as it is.  The ids of the token table
    are taken to be distinct. *)
Theorem stored_metadata_is_kept (env : Env) (cfg : Config) (ctx : Context)
    (now : Z) (store : Store) (transfersData : list TransferEvent) (r0 : TokenRow) :
  let run := processTransfers env cfg ctx now store transfersData in
  NoDup (row_id <$> token_table store) -> r0 ∈ token_table store ->
  exists r',
    r' ∈ token_table (run_store run)
    /\ same_row_metadata r0 r'
    /\ ((forall td, td ∈ transfersData -> tokenId td <> row_id r0) -> r' = r0).
Proof.
  intros run Hnd Hr0.
  assert (Hother : run_outcome run <> Returned tt -> run_store run = store).
  { subst run. cbn [processTransfers run_store run_outcome].
    by destruct (ir_outcome _) as [[]| |]. }
  destruct (run_outcome run) as [[]|e|] eqn:Hret;
    [|exists r0; by rewrite Hother..].
  destruct (resolve_spec store transfersData) as (_ & _ & _ & _ & Hkeys & _).
  destruct (decide (row_id r0 ∈ JSMap.keys (r_tokens (resolve store transfersData))))
    as [(td0 & Htd0 & Hid)%Hkeys|Hnone].
  - destruct (last_transfer_of_is_Some transfersData td0 Htd0) as [td Hlast].
    destruct (stored_token_row env cfg ctx now store transfersData _ td Hret Hlast)
      as (row & Hrow & Hrid & _ & Hmeta).
    exists row. split_and!; [done|by apply Hmeta|].
    intros Hall. by destruct (Hall td0 Htd0).
  - exists r0. split_and!; [|done|done].
    destruct (run_store_returned env cfg ctx now store transfersData Hret)
      as (_ & Htok & _).
    destruct (flush_token_rows env cfg ctx now store transfersData) as (Hids & _).
    subst run. rewrite Htok. apply elem_of_upsert_ne; [done|].
    by rewrite Hids.
Qed.

Lemma stored_metadata_is_kept_witness :
  let run := processTransfers Scenario.gateway_down main_config Scenario.ctx 0
               Cases.store_with_7 [Scenario.a_to_b; Scenario.b_to_c] in
  run_outcome run = Returned tt
  /\ token_table (run_store run)
     = [{| row_id := "7"; row_index := 7; row_owner := Some "0xc";
           row_uri := Some "ipfs://Qm7"; row_image := Some (JStr "ipfs://QmImage");
           row_attributes := Some [] |}]
  /\ exists r',
       r' ∈ token_table (run_store run)
       /\ same_row_metadata
            {| row_id := "7"; row_index := 7; row_owner := Some "0xa";
               row_uri := Some "ipfs://Qm7"; row_image := Some (JStr "ipfs://QmImage");
               row_attributes := Some [] |} r'.
Proof.
  intros run. split; [by vm_compute|]. split; [by vm_compute|].
  destruct (stored_metadata_is_kept Scenario.gateway_down main_config Scenario.ctx 0
              Cases.store_with_7 [Scenario.a_to_b; Scenario.b_to_c]
              {| row_id := "7"; row_index := 7; row_owner := Some "0xa";
                 row_uri := Some "ipfs://Qm7"; row_image := Some (JStr "ipfs://QmImage");
                 row_attributes := Some [] |})
    as (r' & Hr' & Hmeta & _).
  - by_evaluation.
  - left.
  - by exists r'.
Defined.

(** ** Rows that a batch does not touch, and a batch run twice *)

Lemma owner_id_inj (o o' : Owner) : owner_id o = owner_id o' -> o = o'.
Proof. destruct o, o'. cbn. by intros ->. Qed.

Lemma run_store_tables env cfg ctx now store (transfersData : list TransferEvent) :
  let run := processTransfers env cfg ctx now store transfersData in
  exists owners tokens transfers,
    owner_table (run_store run) = upsert owner_id owners (owner_table store)
    /\ token_table (run_store run) = upsert row_id tokens (token_table store)
    /\ transfer_table (run_store run) = upsert trow_id transfers (transfer_table store)
    /\ (forall k, k ∈ row_id <$> tokens ->
          exists td, td ∈ transfersData /\ k = tokenId td)
    /\ (forall k, k ∈ trow_id <$> transfers ->
          exists td, td ∈ transfersData /\ k = ev_id td).
Proof.
  intros run.
  destruct (run_outcome run) as [[]|e|] eqn:Hret.
  - destruct (run_store_returned env cfg ctx now store transfersData Hret)
      as (Hown & Htok & Htr).
    destruct (flush_token_rows env cfg ctx now store transfersData) as (Hids & _).
    destruct (resolve_spec store transfersData) as (_ & _ & _ & _ & Hkeys & _).
    eexists _, _, _. split_and!; [done..| |].
    + intros k. rewrite Hids. apply Hkeys.
    + intros k. rewrite <- list_fmap_compose.
      intros (td & -> & Htd)%list_elem_of_fmap. by exists td.
  - exists [], [], []. subst run.
    cbn [processTransfers run_store run_outcome] in *. rewrite Hret.
    split_and!; try done; by intros k ?%elem_of_nil.
  - exists [], [], []. subst run.
    cbn [processTransfers run_store run_outcome] in *. rewrite Hret.
    split_and!; try done; by intros k ?%elem_of_nil.
Qed.

(** X11: a batch leaves alone what it does not mention.  However the run
    ends, no row is removed and none changes its place: the ids of each
    table remain, in order, at the head of the table; every owner row stays
    as it is, and so does every token row and every transfer row whose id is
    the id of no token and of no event of the batch; and tables whose ids
    are distinct remain so. *)
Theorem rows_outside_the_batch_stay (env : Env) (cfg : Config) (ctx : Context)
    (now : Z) (store : Store) (transfersData : list TransferEvent) :
  let run := processTransfers env cfg ctx now store transfersData in
  ((owner_id <$> owner_table store) `prefix_of` (owner_id <$> owner_table (run_store run))
   /\ (row_id <$> token_table store) `prefix_of` (row_id <$> token_table (run_store run))
   /\ (trow_id <$> transfer_table store)
        `prefix_of` (trow_id <$> transfer_table (run_store run)))
  /\ (forall i o, owner_table store !! i = Some o ->
        owner_table (run_store run) !! i = Some o)
  /\ (forall i r, token_table store !! i = Some r ->
        (forall td, td ∈ transfersData -> tokenId td <> row_id r) ->
        token_table (run_store run) !! i = Some r)
  /\ (forall i r, transfer_table store !! i = Some r ->
        (forall td, td ∈ transfersData -> ev_id td <> trow_id r) ->
        transfer_table (run_store run) !! i = Some r)
  /\ ((NoDup (owner_id <$> owner_table store) ->
       NoDup (owner_id <$> owner_table (run_store run)))
      /\ (NoDup (row_id <$> token_table store) ->
          NoDup (row_id <$> token_table (run_store run)))
      /\ (NoDup (trow_id <$> transfer_table store) ->
          NoDup (trow_id <$> transfer_table (run_store run)))).
Proof.
  intros run.
  destruct (run_store_tables env cfg ctx now store transfersData)
    as (owners & tokens & transfers & Hown & Htok & Htr & Htokens & Htransfers).
  fold run in Hown, Htok, Htr. rewrite Hown, Htok, Htr.
  split; [split_and!; apply upsert_keys_prefix|].
  split; [|split; [|split; [|split_and!; apply upsert_NoDup]]].
  - intros i o Hi.
    pose proof (upsert_keys_prefix owner_id owners (owner_table store)) as Hpre.
    assert (Hk : (owner_id <$> upsert owner_id owners (owner_table store)) !! i
                 = Some (owner_id o)).
    { eapply prefix_lookup_Some; [|done]. by rewrite list_lookup_fmap, Hi. }
    apply list_lookup_fmap_Some in Hk as (o' & Heq & Ho').
    by rewrite Ho', (owner_id_inj _ _ Heq).
  - intros i r Hi Hout. apply lookup_upsert_ne; [done|].
    intros (td & Htd & Hid)%Htokens. by apply (Hout td).
  - intros i r Hi Hout. apply lookup_upsert_ne; [done|].
    intros (td & Htd & Hid)%Htransfers. by apply (Hout td).
Qed.

Lemma upsert_owner_same (rows table : list Owner) :
  (forall o, o ∈ rows -> owner_id o ∈ owner_id <$> table) ->
  upsert owner_id rows table = table.
Proof.
  unfold upsert. induction rows as [|o rows IH]; intros Hin; cbn [fold_left]; [done|].
  assert (Hsame : upsert_row owner_id o table = table).
  { specialize (Hin o ltac:(left)). clear IH.
    induction table as [|o' table IH]; [by apply elem_of_nil in Hin|].
    cbn. case_decide as Heq; [by rewrite (owner_id_inj _ _ Heq)|].
    rewrite IH; [done|]. rewrite fmap_cons in Hin.
    by apply elem_of_cons in Hin as [?|?]. }
  rewrite Hsame. apply IH. intros o' Ho'. apply Hin. by right.
Qed.

(** X12: a batch that has been stored can be handed in again: with distinct
    ids in the token and transfer tables and distinct event ids, the second
    run leaves the store exactly as the first one has left it, however the
    second run ends and whatever the world is like by then. *)
Theorem replay_leaves_the_store (env : Env) (cfg : Config) (ctx : Context)
    (now : Z) (store : Store) (transfersData : list TransferEvent)
    (env' : Env) (cfg' : Config) (ctx' : Context) (now' : Z) :
  let run := processTransfers env cfg ctx now store transfersData in
  let run' := processTransfers env' cfg' ctx' now' (run_store run) transfersData in
  run_outcome run = Returned tt ->
  NoDup (row_id <$> token_table store) ->
  NoDup (trow_id <$> transfer_table store) ->
  NoDup (ev_id <$> transfersData) ->
  run_store run' = run_store run.
Proof.
  intros run run' Hret Hndtok Hndtr Hndev.
  destruct (run_outcome run') as [[]|e|] eqn:Hret';
    [|subst run'; cbn [processTransfers run_store run_outcome] in *;
      by rewrite Hret'..].
  destruct (run_store_returned env' cfg' ctx' now' (run_store run) transfersData Hret')
    as (Hown' & Htok' & Htr').
  destruct (run_store_returned env cfg ctx now store transfersData Hret)
    as (Hown & Htok & Htr).
  fold run in Hown, Htok, Htr. fold run' in Hown', Htok', Htr'.
  assert (Ho : owner_table (run_store run') = owner_table (run_store run)).
  { rewrite Hown'. apply upsert_owner_same.
    intros o (a & -> & Ha)%list_elem_of_fmap. cbn [owner_id].
    apply (resolve_spec (run_store run) transfersData) in Ha as (td & Htd & Ha).
    rewrite Hown. apply elem_of_upsert_keys. left.
    rewrite <- list_fmap_compose.
    replace (owner_id ∘ _) with (@id string) by done. rewrite list_fmap_id.
    apply (resolve_spec store transfersData). by exists td. }
  assert (Ht : token_table (run_store run') = token_table (run_store run)).
  { rewrite Htok'. apply upsert_same.
    { rewrite Htok. by apply upsert_NoDup. }
    intros row Hrow.
    destruct (flush_token_rows env' cfg' ctx' now' (run_store run) transfersData)
      as (_ & Howner & Hmeta).
    destruct (Howner row Hrow) as (td & Hlast & Hto).
    destruct (stored_token_row env cfg ctx now store transfersData _ td Hret Hlast)
      as (row1 & Hrow1 & Hid1 & Hto1 & _).
    fold run in Hrow1.
    destruct (Hmeta row row1 Hrow) as (_ & ? & ? & ? & ?); [|done..|].
    { rewrite Htok. by apply upsert_NoDup. }
    assert (row = row1) as ->; [|done].
    destruct row, row1. cbn in *. congruence. }
  assert (Hr : transfer_table (run_store run') = transfer_table (run_store run)).
  { rewrite Htr'. apply upsert_same.
    { rewrite Htr. by apply upsert_NoDup. }
    intros row (td & -> & Htd)%list_elem_of_fmap.
    by apply stored_transfer_row. }
  destruct (run_store run'), (run_store run). cbn in *. congruence.
Qed.

Lemma replay_leaves_the_store_witness :
  let run := processTransfers Scenario.gateway_up main_config Scenario.ctx 0
               Scenario.store Scenario.batch in
  let run' := processTransfers Scenario.gateway_down Cases.no_rate Scenario.ctx 9000
                (run_store run) Scenario.batch in
  run_outcome run = Returned tt
  /\ length (token_table (run_store run)) = 2%nat
  /\ run_store run' = run_store run.
Proof.
  intros run run'. split; [by vm_compute|]. split; [by vm_compute|].
  apply (replay_leaves_the_store Scenario.gateway_up main_config Scenario.ctx 0
           Scenario.store Scenario.batch Scenario.gateway_down Cases.no_rate
           Scenario.ctx 9000).
  - by vm_compute.
  - by_evaluation.
  - by_evaluation.
  - by_evaluation.
Defined.

(** ** A batch without transfers *)

Lemma findBy_In_nil {R} (key : R -> string) (table : list R) :
  findBy_In key table [] = [].
Proof.
  unfold findBy_In. induction table as [|r table IH]; [done|].
  rewrite filter_cons_False; [done | apply not_elem_of_nil].
Qed.

Lemma resolve_nil store :
  resolve store [] =
    {| r_heap := {| owners_h := []; tokens_h := [] |};
       r_owners := []; r_tokens := []; r_newTokens := []; r_transfers := [] |}.
Proof.
  unfold resolve, load. cbn [fold_left collect_ids fst snd].
  by rewrite !findBy_In_nil.
Qed.

Lemma initTokens_nil env cfg ctx now h :
  let ir := initTokens env cfg ctx now h [] in
  ir_events ir = [] /\ ir_heap ir = h
  /\ (last (blocks ctx) = None -> exists msg, ir_outcome ir = Raised (TypeError msg))
  /\ (is_Some (last (blocks ctx)) -> 0 <= MAX_IPFS_REQ_SEC cfg ->
        ir_outcome ir = Returned tt)
  /\ (is_Some (last (blocks ctx)) -> MAX_IPFS_REQ_SEC cfg < 0 ->
        ir_outcome ir = Diverged).
Proof.
  unfold initTokens.
  destruct (last (blocks ctx)) as [block|].
  - cbn [fmap list_fmap].
    destruct (aggregate_spec env now block [] (MUTLTICALL_BATCH_SIZE cfg))
      as (_ & _ & Hnil).
    destruct (Hnil eq_refl) as [Hev Hs]. rewrite Hs, Hev.
    unfold fetch_all, splitIntoBatches. cbn [length].
    destruct (Z.leb_spec (Z.of_nat 0) (MAX_IPFS_REQ_SEC cfg)); cbn.
    + split_and!; try done; lia.
    + split_and!; try done; lia.
  - ir_simpl. split_and!; try done; [by eexists|by intros [? ?]..].
Qed.

Lemma processTransfers_nil env cfg ctx now store :
  let run := processTransfers env cfg ctx now store [] in
  run_store run = store
  /\ ir_events (run_init run) = []
  /\ run_outcome run = ir_outcome (initTokens env cfg ctx now
                                     {| owners_h := []; tokens_h := [] |} []).
Proof.
  cbn [processTransfers run_store run_init run_outcome].
  rewrite resolve_nil. cbn [r_heap r_newTokens].
  destruct (initTokens_nil env cfg ctx now {| owners_h := []; tokens_h := [] |})
    as (Hev & _).
  split_and!; [|done..].
  destruct (ir_outcome _) as [[]| |]; [|done..].
  unfold flush. cbn. by destruct store.
Qed.

(** Against a database that fulfils every call, a run is the run of
    [processTransfers]. *)
Lemma upsert_call_fulfilled {R} (key : R -> string) (rows table : list R) :
  upsert_call key None rows table = upsert key rows table.
Proof. done. Qed.

Lemma processTransfers_on_fulfilled env cfg ctx now store transfersData :
  let run := processTransfers env cfg ctx now store transfersData in
  let run' := processTransfers_on fulfilled env cfg ctx now store transfersData in
  sr_init run' = Some (run_init run)
  /\ sr_store run' = run_store run
  /\ sr_outcome run' = run_outcome run.
Proof.
  cbv zeta. unfold processTransfers_on, processTransfers.
  cbn [fulfilled findBy_Token findBy_Owner upsert_Owner upsert_Token upsert_Transfer
       run_init run_store run_outcome].
  by destruct (ir_outcome _) as [[]| |].
Qed.

Lemma upsert_call_nil {R} (key : R -> string) call (table : list R) :
  upsert_call key call [] table = table.
Proof. destruct call as [[f written]|]; [|done]. cbn. by rewrite take_nil. Qed.

Lemma processTransfers_on_nil db env cfg ctx now store :
  let run := processTransfers_on db env cfg ctx now store [] in
  let ir := initTokens env cfg ctx now {| owners_h := []; tokens_h := [] |} [] in
  sr_store run = store
  /\ (forall ir', sr_init run = Some ir' -> ir_events ir' = [])
  /\ sr_outcome run =
       match first_failure [findBy_Token db; findBy_Owner db] with
       | Some f => failure_outcome f
       | None =>
           match ir_outcome ir with
           | Returned _ =>
               match first_failure [fst <$> upsert_Owner db; fst <$> upsert_Token db;
                                    fst <$> upsert_Transfer db] with
               | Some f => failure_outcome f
               | None => Returned tt
               end
           | o => o
           end
       end.
Proof.
  cbv zeta. unfold processTransfers_on. cbn [first_failure].
  destruct (findBy_Token db) as [f|]; [by cbn|].
  destruct (findBy_Owner db) as [f|]; [by cbn|].
  rewrite resolve_nil. cbn [r_heap r_newTokens r_owners r_tokens r_transfers].
  destruct (initTokens_nil env cfg ctx now {| owners_h := []; tokens_h := [] |})
    as (Hev & Hheap & _).
  destruct (ir_outcome _) as [[]|e|].
  - rewrite Hheap. cbn [owners_h tokens_h JSMap.values fmap list_fmap deref omap].
    change (@JSMap.values loc []) with (@nil loc). cbn [omap list_omap fmap list_fmap].
    destruct (upsert_Owner db) as [[f w]|];
      [cbn; rewrite take_nil; split_and!; [by destruct store| by intros ? [= <-] |done]|].
    destruct (upsert_Token db) as [[f w]|];
      [cbn; rewrite ?take_nil; split_and!; [by destruct store| by intros ? [= <-] |done]|].
    destruct (upsert_Transfer db) as [[f w]|];
      cbn; rewrite ?take_nil; (split_and!; [by destruct store| by intros ? [= <-] |done]).
  - cbn. split_and!; [done| by intros ? [= <-] |done].
  - cbn. split_and!; [done| by intros ? [= <-] |done].
Qed.

(** The handler collects its events before it calls the store. *)
Lemma batch_handler_on_spec db abi env cfg ctx now store :
  let hr := batch_handler abi env cfg ctx now store in
  let hc := batch_handler_on db abi env cfg ctx now store in
  hc_collected hc = hr_collected hr
  /\ match hr_run hr with
     | None =>
         hc_run hc = None /\ hc_store hc = store /\ hc_outcome hc = hr_outcome hr
     | Some _ =>
         let run := processTransfers_on db env cfg (to_Context ctx) now store
                      (c_transfersData (hr_collected hr)) in
         hc_run hc = Some run /\ hc_store hc = sr_store run
         /\ hc_outcome hc = sr_outcome run
     end.
Proof.
  cbv zeta. unfold batch_handler, batch_handler_on.
  by destruct (collect_blocks abi _ (ctx_blocks ctx)) as [c [e|]].
Qed.

(** X13: a batch in which no log is a transfer is a batch with nothing to
    do, but the store is called all the same.  The handler collects and
    logs nothing, calls no contract, requests no document and leaves the
    store as it was.  A query that is not fulfilled ends the handler as
    that query ends.  With the two queries fulfilled, a batch with no block
    at all makes it throw a [TypeError], and in a batch with a block a
    negative [MAX_IPFS_REQ_SEC] makes it go on for ever; with a block and
    [MAX_IPFS_REQ_SEC >= 0], the first [upsert] that is not fulfilled ends
    the handler as that call ends, and the handler returns when the three
    of them are fulfilled. *)
Theorem batch_without_transfers (db : StoreCalls) (abi : Erc721) (env : Env)
    (cfg : Config) (ctx : DataHandlerContext) (now : Z) (store : Store) :
  let hc := batch_handler_on db abi env cfg ctx now store in
  let queries := first_failure [findBy_Token db; findBy_Owner db] in
  let writes := first_failure [fst <$> upsert_Owner db; fst <$> upsert_Token db;
                               fst <$> upsert_Transfer db] in
  transfer_logs abi ctx = [] ->
  hc_store hc = store
  /\ c_transfersData (hc_collected hc) = [] /\ c_debug (hc_collected hc) = []
  /\ (exists run, hc_run hc = Some run
        /\ forall ir, sr_init run = Some ir -> ir_events ir = [])
  /\ (forall f, queries = Some f -> hc_outcome hc = failure_outcome f)
  /\ (queries = None -> ctx_blocks ctx = [] ->
        exists msg, hc_outcome hc = Raised (TypeError msg))
  /\ (queries = None -> ctx_blocks ctx <> [] -> MAX_IPFS_REQ_SEC cfg < 0 ->
        hc_outcome hc = Diverged)
  /\ (queries = None -> ctx_blocks ctx <> [] -> 0 <= MAX_IPFS_REQ_SEC cfg ->
        hc_outcome hc = match writes with
                        | Some f => failure_outcome f
                        | None => Returned tt
                        end).
Proof.
  intros hc queries writes Hnone. subst hc queries writes.
  destruct (batch_handler_on_spec db abi env cfg ctx now store) as [Hc Hrun].
  destruct (batch_handler_spec abi env cfg ctx now store)
    as (xs & Hd & Ht & [(Hall & Hr & _)|Hstop]); last first.
  { destruct Hstop as (pre & log & post & e & Heq & _).
    rewrite Hnone in Heq. by destruct pre. }
  rewrite Hnone in Hall. apply Forall2_nil_inv_l in Hall as ->.
  cbn [fmap list_fmap] in *. rewrite Hr, Ht in Hrun. cbv zeta in Hrun.
  destruct Hrun as (Hrun & Hstore & Hout).
  destruct (processTransfers_on_nil db env cfg (to_Context ctx) now store)
    as (Hs & Hev & Ho).
  destruct (initTokens_nil env cfg (to_Context ctx) now
              {| owners_h := []; tokens_h := [] |})
    as (_ & _ & Hraise & Hret & Hdiv).
  assert (Hlast : ctx_blocks ctx <> [] -> is_Some (last (blocks (to_Context ctx)))).
  { intros Hb. unfold to_Context. cbn. rewrite fmap_last.
    by apply fmap_is_Some, last_is_Some. }
  rewrite Hc, Hd, Ht, Hstore, Hout, Hs, Ho.
  split_and!; [done|done|done|by eexists|..].
  - by intros f ->.
  - intros -> Hb. destruct Hraise as [msg ->]; [|by eexists].
    unfold to_Context. cbn. by rewrite Hb.
  - intros -> Hb HR. by rewrite Hdiv by auto.
  - intros -> Hb HR. by rewrite Hret by auto.
Qed.

Lemma batch_without_transfers_witness :
  let hc := batch_handler_on fulfilled Cases.abi Scenario.gateway_down main_config
              Cases.ctx_quiet 0 Scenario.store in
  let hc' := batch_handler_on Cases.read_only Cases.abi Scenario.gateway_down main_config
               Cases.ctx_quiet 0 Scenario.store in
  transfer_logs Cases.abi Cases.ctx_quiet = []
  /\ hc_store hc = Scenario.store
  /\ hc_outcome hc = Returned tt
  /\ hc_store hc' = Scenario.store
  /\ hc_outcome hc' = Raised (Exn "QueryFailedError" "read-only transaction").
Proof.
  intros hc hc'.
  assert (Hnone : transfer_logs Cases.abi Cases.ctx_quiet = []) by by vm_compute.
  destruct (batch_without_transfers fulfilled Cases.abi Scenario.gateway_down main_config
              Cases.ctx_quiet 0 Scenario.store Hnone)
    as (Hstore & _ & _ & _ & _ & _ & _ & Hret).
  destruct (batch_without_transfers Cases.read_only Cases.abi Scenario.gateway_down
              main_config Cases.ctx_quiet 0 Scenario.store Hnone)
    as (Hstore' & _ & _ & _ & _ & _ & _ & Hret').
  split_and!; [done|done| |done|].
  - by apply Hret.
  - by apply Hret'.
Defined.

(** ** Addresses in lower case *)

Lemma lower_unit_idemp (c : ascii) : lower_unit (lower_unit c) = lower_unit c.
Proof. by destruct c as [[] [] [] [] [] [] [] []]. Qed.

Lemma toLowerCase_idemp (s : string) : toLowerCase (toLowerCase s) = toLowerCase s.
Proof.
  induction s as [|c s IH]; [done|]. cbn [toLowerCase].
  by rewrite lower_unit_idemp, IH.
Qed.

Lemma collected_lower_case abi env cfg ctx now store td :
  td ∈ c_transfersData (hr_collected (batch_handler abi env cfg ctx now store)) ->
  toLowerCase (ev_from td) = ev_from td /\ toLowerCase (ev_to td) = ev_to td.
Proof.
  destruct (batch_handler_spec abi env cfg ctx now store)
    as (xs & _ & -> & Hcases).
  assert (Hall : exists logs, Forall2 (fun log x => getTransfer abi log = inr x) logs xs).
  { destruct Hcases as [(Hall & _)|(pre & log & post & e & _ & Hall & _)];
      by eexists. }
  destruct Hall as [logs Hall].
  intros ([line td'] & -> & [i Hi]%list_elem_of_lookup)%list_elem_of_fmap.
  destruct (Forall2_lookup_r _ _ _ _ _ Hall Hi) as (log & _ & Hget).
  apply getTransfer_inr in Hget as [(_ & _ & _ & event & _ & Hfrom & Hto & _) _].
  cbn. by rewrite Hfrom, Hto, !toLowerCase_idemp.
Qed.

(** X14: the addresses that the handler brings into the store are in lower
    case.  Every event it hands to [processTransfers] has its two addresses
    in lower case, every owner row of the store after the call was there
    before or has an id in lower case, and every transfer row was there
    before or names two owners in lower case. *)
Theorem stored_addresses_are_lower_case (abi : Erc721) (env : Env) (cfg : Config)
    (ctx : DataHandlerContext) (now : Z) (store : Store) :
  let hr := batch_handler abi env cfg ctx now store in
  (forall td, td ∈ c_transfersData (hr_collected hr) ->
     toLowerCase (ev_from td) = ev_from td /\ toLowerCase (ev_to td) = ev_to td)
  /\ (forall o, o ∈ owner_table (hr_store hr) ->
        o ∈ owner_table store \/ toLowerCase (owner_id o) = owner_id o)
  /\ (forall r, r ∈ transfer_table (hr_store hr) ->
        r ∈ transfer_table store
        \/ exists from to,
             trow_from r = Some from /\ trow_to r = Some to
             /\ toLowerCase from = from /\ toLowerCase to = to).
Proof.
  intros hr.
  pose proof (collected_lower_case abi env cfg ctx now store) as Hlow.
  fold hr in Hlow. split; [done|].
  destruct (batch_handler_spec abi env cfg ctx now store)
    as (xs & _ & Hxs & [(_ & _ & Hstore & Hout)|Hstop]); last first.
  { destruct Hstop as (pre & log & post & e & _ & _ & _ & _ & Hstore & _).
    fold hr in Hstore. rewrite Hstore. split; intros; by left. }
  fold hr in Hxs, Hstore, Hout. rewrite <- Hxs in Hstore, Hout. rewrite Hstore.
  set (tds := c_transfersData (hr_collected hr)) in *.
  destruct (run_outcome (processTransfers env cfg (to_Context ctx) now store tds))
    as [[]|e|] eqn:Hret;
    [|cbn [processTransfers run_store run_outcome] in *; rewrite Hret;
      split; intros; by left..].
  destruct (run_store_returned env cfg (to_Context ctx) now store tds Hret)
    as (Hown & _ & Htr).
  rewrite Hown, Htr. split.
  - intros o [Ho|Ho]%elem_of_upsert_inv; [|by left]. right.
    apply list_elem_of_fmap in Ho as (a & -> & Ha).
    apply (resolve_spec store tds) in Ha as (td & Htd & [->| ->]);
      by apply Hlow.
  - intros r [Hr|Hr]%elem_of_upsert_inv; [|by left]. right.
    apply list_elem_of_fmap in Hr as (td & -> & Htd).
    exists (ev_from td), (ev_to td). destruct (Hlow td Htd). by split_and!.
Qed.

(** ** Whose document a token is enriched from *)

Lemma merge_fields_ok tokenURIs metadatas i tok :
  merge_error metadatas i = None ->
  optional_image (mjoin (metadatas !! i))
    = inr (tok_image (merge_fields tokenURIs metadatas i tok))
  /\ optional_attributes (mjoin (metadatas !! i))
     = inr (tok_attributes (merge_fields tokenURIs metadatas i tok)).
Proof.
  unfold merge_error, merge_fields. cbv zeta.
  destruct (optional_image (mjoin (metadatas !! i))) as [e|img]; [done|].
  by destruct (optional_attributes (mjoin (metadatas !! i))) as [e|attrs].
Qed.

(** X15: results do not get out of step.  After a run that has returned, the
    token at place [i] of the new tokens has the URI at place [i] of the
    answers of the contract, and its image and its attributes are those of
    the document that was fetched from that very URI; its row in the token
    table says the same. *)
Theorem token_is_enriched_from_its_own_document (env : Env) (cfg : Config)
    (ctx : Context) (now : Z) (store : Store) (transfersData : list TransferEvent)
    (i : nat) (token : loc) :
  let run := processTransfers env cfg ctx now store transfersData in
  run_outcome run = Returned tt ->
  r_newTokens (run_resolved run) !! i = Some token ->
  exists tok uri document,
    tokens_h (ir_heap (run_init run)) !! token = Some tok
    /\ ir_tokenURIs (run_init run) !! i = Some uri
    /\ tok_uri tok = Some uri
    /\ fetched_as env cfg uri document
    /\ optional_image document = inr (tok_image tok)
    /\ optional_attributes document = inr (tok_attributes tok)
    /\ exists row,
         row ∈ token_table (run_store run)
         /\ row_id row = tok_id tok /\ row_uri row = Some uri
         /\ row_image row = tok_image tok
         /\ row_attributes row = tok_attributes tok.
Proof.
  intros run Hret Hi.
  destruct (run_store_returned env cfg ctx now store transfersData Hret)
    as (_ & Hstore & _).
  fold run in Hstore. rewrite Hstore. clear Hstore. subst run.
  cbn [processTransfers run_resolved run_init run_outcome] in *.
  destruct (resolve_spec store transfersData) as (Hwf & _).
  destruct (flush_token_rows env cfg ctx now store transfersData) as (Hids & _).
  destruct (new_token_objects store transfersData) as [Hnd Hobj].
  destruct (Hobj i token Hi) as (tok0 & Htok0 & Hun & Hget).
  destruct (initTokens_spec env cfg ctx now (r_heap (resolve store transfersData))
              (r_newTokens (resolve store transfersData)))
    as ([[_ Hne]|(block & metadatas & err & Hblock & Huris & Hall & Hmerge & Hout)] & _);
    [done|].
  rewrite Hout in Hret. destruct err as [e|]; [done|].
  destruct (merge_from_spec _ _ _ _ _ _ _ Hmerge Hnd) as (_ & _ & _ & _ & Hok & _).
  destruct (Hok eq_refl i token Hi) as [Herr Hm]. cbn in Herr, Hm.
  rewrite Htok0 in Hm. cbn in Hm.
  set (ir := initTokens env cfg ctx now (r_heap (resolve store transfersData))
               (r_newTokens (resolve store transfersData))) in *.
  destruct (merge_fields_frame (ir_tokenURIs ir) metadatas i tok0)
    as (Hid & _ & _ & Huri).
  destruct (merge_fields_ok (ir_tokenURIs ir) metadatas i tok0 Herr) as [Himg Hattr].
  destruct (lookup_lt_is_Some_2 (ir_tokenURIs ir) i) as [uri Hith].
  { rewrite Huris, !length_fmap. by eapply lookup_lt_Some. }
  destruct (Forall2_lookup_l _ _ _ _ _ Hall Hith) as (v & Hv & Hfetched).
  rewrite Hv in Himg, Hattr. cbn in Himg, Hattr.
  eexists _, uri, v. split; [done|].
  split_and!; [done|by rewrite Huri|done..|].
  exists (row_of_token (ir_heap ir) (merge_fields (ir_tokenURIs ir) metadatas i tok0)).
  split_and!; [|reflexivity|cbn; by rewrite Huri|reflexivity..].
  apply elem_of_upsert; [rewrite Hids; apply (wf_token_keys _ _ Hwf)|].
  apply list_elem_of_fmap_2. unfold deref. apply list_elem_of_omap.
  exists token. split; [|done].
  apply JSMap_get_Some in Hget. unfold JSMap.values.
  apply list_elem_of_fmap. by eexists (_, token).
Qed.

Lemma token_is_enriched_from_its_own_document_witness :
  let run := processTransfers Scenario.gateway_up main_config Scenario.ctx 0
               Scenario.store Scenario.batch in
  run_outcome run = Returned tt
  /\ r_newTokens (run_resolved run) !! 0%nat = Some 0%nat
  /\ exists tok uri document,
       tokens_h (ir_heap (run_init run)) !! 0%nat = Some tok
       /\ ir_tokenURIs (run_init run) !! 0%nat = Some uri
       /\ tok_uri tok = Some uri
       /\ fetched_as Scenario.gateway_up main_config uri document
       /\ optional_image document = inr (tok_image tok)
       /\ optional_attributes document = inr (tok_attributes tok)
       /\ exists row,
            row ∈ token_table (run_store run)
            /\ row_id row = tok_id tok /\ row_uri row = Some uri
            /\ row_image row = tok_image tok
            /\ row_attributes row = tok_attributes tok.
Proof.
  intros run. split; [by vm_compute|]. split; [by vm_compute|].
  apply (token_is_enriched_from_its_own_document Scenario.gateway_up main_config
           Scenario.ctx 0 Scenario.store Scenario.batch 0 0); by vm_compute.
Defined.

(** ** Slashes in the gateway URL *)

Section slashes.
Implicit Types (a b s : string).

Lemma head_slash_app a b :
  head_slash (a +:+ b) = if decide (a = "") then head_slash b else head_slash a.
Proof. by destruct a. Qed.

Lemma ends_slash_app a b :
  ends_slash (a +:+ b) = if decide (b = "") then ends_slash a else ends_slash b.
Proof.
  induction a as [|c a IH].
  - cbn. by destruct b.
  - change (String c a +:+ b) with (String c (a +:+ b)).
    cbn [ends_slash]. rewrite IH.
    destruct a as [|c' a]; destruct b as [|c'' b]; try done.
Qed.

Lemma double_slash_app a b :
  double_slash (a +:+ b)
    = double_slash a || double_slash b || ends_slash a && head_slash b.
Proof.
  induction a as [|c a IH].
  - cbn. by rewrite orb_false_r.
  - change (String c a +:+ b) with (String c (a +:+ b)).
    cbn [double_slash]. rewrite IH, head_slash_app.
    destruct (decide (a = "")) as [->|Hne].
    + cbn. by destruct (is_slash c), (head_slash b), (double_slash b).
    + replace (ends_slash (String c a)) with (ends_slash a) by by destruct a.
      by destruct (is_slash c), (head_slash a), (double_slash a), (double_slash b),
        (ends_slash a), (head_slash b).
Qed.

Lemma no_slash_facts s :
  no_slash s = true ->
  double_slash s = false /\ head_slash s = false /\ ends_slash s = false.
Proof.
  induction s as [|c s IH]; [done|]. cbn [no_slash].
  intros [Hc Hs]%andb_prop. apply negb_true_iff in Hc.
  destruct (IH Hs) as (Hd & Hh & He). cbn. rewrite Hc, Hd. cbn.
  split_and!; try done. by destruct s.
Qed.

Lemma no_slash_app a b : no_slash (a +:+ b) = no_slash a && no_slash b.
Proof.
  induction a as [|c a IH]; [done|].
  change (String c a +:+ b) with (String c (a +:+ b)).
  cbn [no_slash]. by rewrite IH, andb_assoc.
Qed.

Lemma no_slash_rev_app s a :
  no_slash (String.rev_app s a) = no_slash s && no_slash a.
Proof.
  revert a. induction s as [|c s IH]; intros a; [done|].
  cbn [String.rev_app no_slash]. rewrite IH. cbn [no_slash].
  by destruct (is_slash c), (no_slash s), (no_slash a).
Qed.

Lemma no_slash_rev s : no_slash (String.rev s) = no_slash s.
Proof. unfold String.rev. rewrite no_slash_rev_app. apply andb_true_r. Qed.

Lemma split_go_no_slash cur s :
  no_slash cur = true ->
  Forall (fun seg => no_slash seg = true) (Path.split_go cur s).
Proof.
  revert cur. induction s as [|c s IH]; intros cur Hcur; cbn.
  - constructor; [by rewrite no_slash_rev | constructor].
  - destruct (Ascii.eqb c "/") eqn:Hc.
    + constructor; [by rewrite no_slash_rev | by apply IH].
    + apply IH. cbn. unfold is_slash. by rewrite Hc.
Qed.

Lemma normalize_segment_kept allowAboveRoot (acc : list string) seg :
  no_slash seg = true -> Forall kept_segment acc ->
  Forall kept_segment (Path.normalize_segment allowAboveRoot acc seg).
Proof.
  intros Hseg Hacc. unfold Path.normalize_segment.
  assert (Hup : kept_segment "..") by done.
  repeat case_decide; try done.
  - destruct Hacc as [|top below Htop Hbelow]; [by destruct allowAboveRoot; repeat constructor|].
    case_decide; [|done].
    destruct allowAboveRoot; [constructor; [done|]|]; by constructor.
  - constructor; [|done]. split; [|done]. naive_solver.
Qed.

Lemma unsplit_kept (segs : list string) :
  Forall kept_segment segs ->
  double_slash (Path.unsplit segs) = false
  /\ head_slash (Path.unsplit segs) = false
  /\ ends_slash (Path.unsplit segs) = false
  /\ (segs <> [] -> Path.unsplit segs <> "").
Proof.
  induction 1 as [|seg segs [Hne Hseg] Hsegs IH]; [done|].
  destruct (no_slash_facts seg Hseg) as (Hd & Hh & He).
  destruct segs as [|seg' segs]; [by cbn|].
  destruct IH as (IHd & IHh & IHe & IHne).
  specialize (IHne ltac:(done)).
  change (Path.unsplit (seg :: seg' :: segs))
    with (seg +:+ "/" +:+ Path.unsplit (seg' :: segs)).
  set (u := Path.unsplit (seg' :: segs)) in *.
  rewrite !double_slash_app, !head_slash_app, !ends_slash_app.
  rewrite Hd, Hh, He, IHd, IHh, IHe.
  rewrite (decide_False (P := seg = "")) by done.
  rewrite (decide_False (P := "/" +:+ u = "")) by done.
  rewrite (decide_False (P := u = "")) by done.
  split_and!; try done. by destruct seg.
Qed.

Lemma normalizeString_slashes path allowAboveRoot :
  let p := Path.normalizeString path allowAboveRoot in
  double_slash p = false /\ head_slash p = false /\ ends_slash p = false.
Proof.
  unfold Path.normalizeString.
  assert (Hall : Forall kept_segment
            (fold_left (Path.normalize_segment allowAboveRoot) (Path.split path) [])).
  { pose proof (split_go_no_slash "" path eq_refl) as Hsplit.
    fold (Path.split path) in Hsplit.
    assert (Hacc : Forall kept_segment []) by constructor. revert Hacc.
    generalize (@nil string) as acc.
    induction Hsplit as [|seg segs Hseg _ IH]; intros acc Hacc; [done|].
    cbn [fold_left]. by apply IH, normalize_segment_kept. }
  apply Forall_rev in Hall.
  by destruct (unsplit_kept _ Hall) as (? & ? & ? & _).
Qed.

Lemma normalize_double_slash path : double_slash (Path.normalize path) = false.
Proof.
  unfold Path.normalize. case_decide; [done|]. cbv zeta.
  destruct (normalizeString_slashes path (negb (startsWith path "/")))
    as (Hd & Hh & He).
  set (p := Path.normalizeString path (negb (startsWith path "/"))) in *.
  case_decide as Hp.
  { by destruct (startsWith path "/"), (Path.ends_with_slash path). }
  assert (Hp' : double_slash (if Path.ends_with_slash path then p +:+ "/" else p) = false
                /\ head_slash (if Path.ends_with_slash path then p +:+ "/" else p) = false).
  { destruct (Path.ends_with_slash path); [|done].
    rewrite double_slash_app, head_slash_app, Hd, He, Hh.
    by rewrite (decide_False (P := p = "")). }
  destruct Hp' as [Hd' Hh'].
  destruct (startsWith path "/"); [|done].
  rewrite double_slash_app, Hd', Hh'. done.
Qed.

Lemma join_double_slash (args : list string) : double_slash (Path.join args) = false.
Proof.
  unfold Path.join. destruct (filter _ args); [done|].
  apply normalize_double_slash.
Qed.

Lemma string_app_assoc a b s : (a +:+ b) +:+ s = a +:+ (b +:+ s).
Proof.
  induction a as [|c a IH]; [done|].
  change (String c a +:+ b) with (String c (a +:+ b)).
  change (String c (a +:+ b) +:+ s) with (String c ((a +:+ b) +:+ s)).
  by rewrite IH.
Qed.

Lemma contains_double_slash s : contains s "//" -> double_slash s = true.
Proof.
  intros (pre & post & ->). rewrite double_slash_app.
  replace (double_slash ("//" +:+ post)) with true; [by rewrite orb_true_r|].
  by destruct post.
Qed.

End slashes.



(** ** A multicall that fails *)

(** X17: [initTokens] waits for the answers of the contract before it asks
    for any document.  When the aggregated call is rejected, the batch is
    rejected with the same error, no document has been requested, no token
    has been written to and nothing is stored. *)
Theorem failed_multicall_rejects_the_batch (env : Env) (cfg : Config)
    (ctx : Context) (now : Z) (store : Store) (transfersData : list TransferEvent)
    (block : BlockHeader) (e : exn) :
  let run := processTransfers env cfg ctx now store transfersData in
  let st := run_resolved run in
  last (blocks ctx) = Some block ->
  settled (aggregate env now block (index_at (r_heap st) <$> r_newTokens st)
             (MUTLTICALL_BATCH_SIZE cfg)) = inl e ->
  run_outcome run = Raised e
  /\ fetched (ir_events (run_init run)) = []
  /\ ir_groups (run_init run) = []
  /\ ir_heap (run_init run) = r_heap st
  /\ run_store run = store.
Proof.
  cbv zeta. cbn [processTransfers run_outcome run_store run_init run_resolved].
  intros Hblock Hagg. unfold initTokens. rewrite Hblock, Hagg. ir_simpl.
  split_and!; try done.
  apply aggregate_spec.
Qed.

Lemma failed_multicall_rejects_the_batch_witness :
  let run := processTransfers Cases.node_down main_config Scenario.ctx 0
               Scenario.store Scenario.batch in
  last (blocks Scenario.ctx) = Some Scenario.block
  /\ run_outcome run = Raised (Exn "RpcError" "execution reverted")
  /\ fetched (ir_events (run_init run)) = []
  /\ ir_groups (run_init run) = []
  /\ ir_heap (run_init run) = r_heap (run_resolved run)
  /\ run_store run = Scenario.store.
Proof.
  intros run. split; [done|].
  apply (failed_multicall_rejects_the_batch Cases.node_down main_config Scenario.ctx 0
           Scenario.store Scenario.batch Scenario.block); [done | by vm_compute].
Defined.

(** ** The ways a run can fail *)

Lemma elem_of_slice {T} (l : list T) a b x : x ∈ JS.slice l a b -> x ∈ l.
Proof.
  unfold JS.slice. cbv zeta. intros Hx.
  by apply subseteq_take, subseteq_drop in Hx.
Qed.

Lemma splitIntoBatches_loop_elem {T} (fuel : nat) (l : list T) m off chunk x :
  chunk ∈ (splitIntoBatches_loop fuel l m off).1 -> x ∈ chunk -> x ∈ l.
Proof.
  revert off. induction fuel as [|fuel IH]; intros off; [by intros ?%elem_of_nil|].
  rewrite splitIntoBatches_loop_step.
  destruct (Z.of_nat (length l) - off >? m).
  - specialize (IH (off + m)).
    destruct (splitIntoBatches_loop fuel l m (off + m)) as [chunks returned].
    cbn. intros [->|Hin]%elem_of_cons; [apply elem_of_slice | by apply IH].
  - cbn. intros ->%list_elem_of_singleton. apply elem_of_slice.
Qed.

Lemma splitIntoBatches_elem {T} (fuel : nat) (l : list T) m chunk x :
  chunk ∈ (splitIntoBatches fuel l m).1 -> x ∈ chunk -> x ∈ l.
Proof.
  unfold splitIntoBatches. destruct (Z.of_nat (length l) <=? m).
  - cbn. by intros ->%list_elem_of_singleton.
  - apply splitIntoBatches_loop_elem.
Qed.

Lemma merge_error_cause metadatas i e (document : jsval) :
  metadatas !! i = Some document -> merge_error metadatas i = Some e ->
  optional_image document = inl e \/ optional_attributes document = inl e.
Proof.
  unfold merge_error. intros ->. cbn.
  destruct (optional_image document) as [e'|img]; [intros [= ->]; by left|].
  destruct (optional_attributes document) as [e'|attrs]; [|done].
  intros [= ->]. by right.
Qed.

Lemma initTokens_causes env cfg ctx now h (tokens : list loc) :
  NoDup tokens ->
  let ir := initTokens env cfg ctx now h tokens in
  (ir_outcome ir = Diverged -> MAX_IPFS_REQ_SEC cfg <= 0)
  /\ forall e, ir_outcome ir = Raised e ->
       (blocks ctx = [] /\ exn_name e = "TypeError")
       \/ (exists block,
             last (blocks ctx) = Some block
             /\ settled (aggregate env now block (index_at h <$> tokens)
                          (MUTLTICALL_BATCH_SIZE cfg)) = inl e)
       \/ (exists uri cause, uri ∈ ir_tokenURIs ir /\ e = fetch_failure uri cause)
       \/ (exists i uri document,
             ir_tokenURIs ir !! i = Some uri
             /\ fetched_as env cfg uri document
             /\ (optional_image document = inl e
                 \/ optional_attributes document = inl e)).
Proof.
  intros Hnd. unfold initTokens.
  destruct (last (blocks ctx)) as [block|] eqn:Hblock; last first.
  { ir_simpl. split; [done|]. intros e [= <-]. left.
    by apply last_None in Hblock. }
  destruct (settled (aggregate env now block (index_at h <$> tokens)
                       (MUTLTICALL_BATCH_SIZE cfg))) as [e0|tokenURIs] eqn:Hagg.
  { ir_simpl. split; [done|]. intros e [= <-]. right. left. by exists block. }
  unfold fetch_all.
  destruct (splitIntoBatches (length tokenURIs) tokenURIs (MAX_IPFS_REQ_SEC cfg))
    as [batches returned] eqn:Hsplit.
  destruct (fetch_groups env cfg
              (settled_at (aggregate env now block (index_at h <$> tokens)
                             (MUTLTICALL_BATCH_SIZE cfg))) batches)
    as [groups p] eqn:Hfg.
  apply fetch_groups_spec in Hfg as (Hmade & _ & _ & Hok & Hrej & _).
  assert (Hret : returned = false -> MAX_IPFS_REQ_SEC cfg <= 0).
  { intros ->. destruct (Z.le_gt_cases 1 (MAX_IPFS_REQ_SEC cfg)) as [HR|]; [|lia].
    destruct (splitIntoBatches_ok tokenURIs (MAX_IPFS_REQ_SEC cfg) HR)
      as (chunks & Hrun & _).
    rewrite (Hrun (length tokenURIs)) in Hsplit by done. done. }
  destruct (settled p) as [e0|metadatas] eqn:Hp.
  - ir_simpl. split; [done|]. intros e [= <-]. right. right. left.
    destruct (Hrej e0 eq_refl) as (g & Hlast & Hjoin).
    rewrite last_lookup in Hlast.
    destruct (Hmade _ _ Hlast) as (batch & Hbatch & Hg).
    rewrite Hg in Hjoin.
    destruct (run_group_spec env cfg (g_start g) batch) as (_ & _ & _ & Hitem & _).
    destruct (Hitem e0 Hjoin) as (item & [K HK]%list_elem_of_lookup & He0 & _).
    apply run_group_items in HK as (uri & Huri & ->).
    cbn [make_item it_promise] in He0.
    destruct (fetchTokenMetadata_spec env cfg
                (g_start g + setTimeout_delay (stagger cfg K)) uri)
      as (_ & _ & _ & Hwrap).
    destruct (Hwrap e0 He0) as [cause ->].
    exists uri, cause. split; [|done].
    apply (splitIntoBatches_elem (length tokenURIs) tokenURIs
             (MAX_IPFS_REQ_SEC cfg) batch).
    + rewrite Hsplit. by eapply list_elem_of_lookup_2.
    + by eapply list_elem_of_lookup_2.
  - destruct returned; [|ir_simpl; split; [by auto | done]].
    destruct (merge_from tokenURIs metadatas h 0 tokens) as [h' err] eqn:Hmerge.
    destruct err as [e0|]; ir_simpl; (split; [done|]); [|done].
    intros e [= <-]. right. right. right.
    destruct (merge_from_spec _ _ _ _ _ _ _ Hmerge Hnd)
      as (_ & _ & _ & _ & _ & Herr).
    destruct (Herr e0 eq_refl) as (j & Hj & He0). cbn in He0.
    destruct (Hok metadatas eq_refl) as (_ & Hall & _).
    rewrite (splitIntoBatches_concat _ _ _ _ Hsplit) in Hall.
    destruct (lookup_lt_is_Some_2 metadatas j) as [document Hdoc].
    { apply Forall2_length in Hall. rewrite <- Hall.
      destruct (aggregate_spec env now block (index_at h <$> tokens)
                  (MUTLTICALL_BATCH_SIZE cfg)) as (Hres & _).
      rewrite (Hres tokenURIs Hagg), !length_fmap. done. }
    destruct (Forall2_lookup_r _ _ _ _ _ Hall Hdoc) as (uri & Huri & Hfetched).
    exists j, uri, document. split_and!; [done..|].
    by apply (merge_error_cause metadatas j).
Qed.

(** X18: what [processTransfers] can throw.  An error thrown by it is the
    rejection of one of its two queries, before anything else has happened
    and with the store as it was; or it is thrown by [initTokens], with the
    store as it was, and is then a [TypeError] on a batch without blocks,
    the error of the rejected aggregated call, the wrapped failure of the
    fetch of one of the token URIs, or the error of reading [image] or
    [attributes] off the document that was fetched for one of them; or it is
    the rejection of one of the three [upsert]s, after [initTokens] has
    returned.  Nothing is said here of the runs that never end. *)
Theorem failures_of_a_run (db : StoreCalls) (env : Env) (cfg : Config)
    (ctx : Context) (now : Z) (store : Store) (transfersData : list TransferEvent)
    (e : exn) :
  let run := processTransfers_on db env cfg ctx now store transfersData in
  let st := resolve store transfersData in
  let ir := initTokens env cfg ctx now (r_heap st) (r_newTokens st) in
  sr_outcome run = Raised e ->
  ((findBy_Token db = Some (Rejects e)
    \/ (findBy_Token db = None /\ findBy_Owner db = Some (Rejects e)))
   /\ sr_init run = None /\ sr_store run = store)
  \/ (findBy_Token db = None /\ findBy_Owner db = None
      /\ sr_init run = Some ir /\ ir_outcome ir = Raised e /\ sr_store run = store
      /\ ((blocks ctx = [] /\ exn_name e = "TypeError")
          \/ (exists block,
                last (blocks ctx) = Some block
                /\ settled (aggregate env now block
                              (index_at (r_heap st) <$> r_newTokens st)
                              (MUTLTICALL_BATCH_SIZE cfg)) = inl e)
          \/ (exists uri cause,
                uri ∈ ir_tokenURIs ir /\ e = fetch_failure uri cause)
          \/ (exists i uri document,
                ir_tokenURIs ir !! i = Some uri
                /\ fetched_as env cfg uri document
                /\ (optional_image document = inl e
                    \/ optional_attributes document = inl e))))
  \/ (findBy_Token db = None /\ findBy_Owner db = None
      /\ sr_init run = Some ir /\ ir_outcome ir = Returned tt
      /\ exists written,
           upsert_Owner db = Some (Rejects e, written)
           \/ (upsert_Owner db = None /\ upsert_Token db = Some (Rejects e, written))
           \/ (upsert_Owner db = None /\ upsert_Token db = None
               /\ upsert_Transfer db = Some (Rejects e, written))).
Proof.
  cbv zeta. unfold processTransfers_on.
  destruct (findBy_Token db) as [[e0|]|]; cbn [sr_outcome sr_init sr_store failure_outcome].
  { intros [= ->]. left. split_and!; try done. by left. }
  { done. }
  destruct (findBy_Owner db) as [[e0|]|]; cbn [sr_outcome sr_init sr_store failure_outcome].
  { intros [= ->]. left. split_and!; try done. by right. }
  { done. }
  destruct (resolve_spec store transfersData) as (Hwf & _).
  destruct (initTokens_causes env cfg ctx now (r_heap (resolve store transfersData))
              _ (wf_new_NoDup _ _ Hwf)) as [_ Hraise].
  cbv zeta in Hraise.
  destruct (ir_outcome _) as [[]|e0|] eqn:Hout;
    cbn [sr_outcome sr_init sr_store]; [| |done].
  - intros He. right. right.
    destruct (upsert_Owner db) as [[[e1|] w]|];
      cbn [sr_outcome sr_init failure_outcome] in He |- *; [|done|].
    { injection He as ->. split_and!; try done. exists w. by left. }
    destruct (upsert_Token db) as [[[e1|] w]|];
      cbn [sr_outcome sr_init failure_outcome] in He |- *; [|done|].
    { injection He as ->. split_and!; try done. exists w. right. by left. }
    destruct (upsert_Transfer db) as [[[e1|] w]|];
      cbn [sr_outcome sr_init failure_outcome] in He |- *; [|done|done].
    injection He as ->. split_and!; try done. exists w. right. by right.
  - intros [= ->]. right. left. split_and!; try done. by apply Hraise.
Qed.

Lemma failures_of_a_run_witness :
  let e := fetch_failure "ipfs://Qm7" (Exn "HttpError" "Got 503") in
  let run := processTransfers_on fulfilled Scenario.gateway_down main_config Scenario.ctx 0
               Scenario.store Scenario.batch in
  let ir := initTokens Scenario.gateway_down main_config Scenario.ctx 0
              (r_heap (resolve Scenario.store Scenario.batch))
              (r_newTokens (resolve Scenario.store Scenario.batch)) in
  sr_outcome run = Raised e
  /\ sr_init run = Some ir /\ sr_store run = Scenario.store
  /\ exists uri cause, uri ∈ ir_tokenURIs ir /\ e = fetch_failure uri cause.
Proof.
  intros e run ir.
  assert (Hout : sr_outcome run = Raised e) by reflexivity.
  split; [exact Hout|].
  destruct (failures_of_a_run fulfilled Scenario.gateway_down main_config Scenario.ctx 0
              Scenario.store Scenario.batch e Hout)
    as [[[Hq|[_ Hq]] _]|[(_ & _ & Hinit & _ & Hstore & _)|(_ & _ & _ & Hret & _)]];
    [discriminate Hq|discriminate Hq| |discriminate Hret].
  split; [exact Hinit|]. split; [exact Hstore|].
  exists "ipfs://Qm7", (Exn "HttpError" "Got 503"). split; [|reflexivity].
  apply (bool_decide_unpack _). vm_compute. exact I.
Defined.

(** ** The requests of a run *)

Lemma fetchTokenMetadata_fetched env cfg t uri :
  fetched (p_events (fetchTokenMetadata env cfg t uri))
    = option_list (request_url cfg uri).
Proof.
  unfold fetchTokenMetadata, request_url.
  destruct (startsWith uri "ipfs://").
  - destruct (ipfsRegExp_exec uri) as [m|]; [|done]. cbn.
    by destruct (get_and_log_spec env t uri (Path.join [IPFS_GATEWAY cfg; m]))
      as (_ & _ & -> & _).
  - destruct (startsWith uri "http://" || startsWith uri "https://"); [|done].
    by destruct (get_and_log_spec env t uri uri) as (_ & _ & -> & _).
Qed.

Lemma fetched_bind {A} (ps : list (Promise A)) :
  fetched (ps ≫= p_events) = ps ≫= (fun p => fetched (p_events p)).
Proof.
  induction ps as [|p ps IH]; [done|].
  by rewrite !bind_cons, fetched_app, IH.
Qed.

Lemma items_fetched env cfg (f : nat -> string -> Item) (batch : list string) :
  (forall K uri, exists t,
     it_promise (f K uri) = fetchTokenMetadata env cfg t uri) ->
  (it_promise <$> imap f batch) ≫= (fun p => fetched (p_events p))
    = omap (request_url cfg) batch.
Proof.
  revert f. induction batch as [|uri batch IH]; intros f Hf; [done|].
  rewrite imap_cons, fmap_cons, bind_cons. cbn beta.
  destruct (Hf 0%nat uri) as [t ->]. rewrite fetchTokenMetadata_fetched.
  rewrite (IH (f ∘ S)) by (intros K uri'; apply Hf).
  cbn. by destruct (request_url cfg uri).
Qed.

Lemma run_group_fetched env cfg t0 (batch : list string) m :
  settled (g_join (run_group env cfg t0 batch)) = inr m ->
  fetched (p_events (g_join (run_group env cfg t0 batch)))
    = omap (request_url cfg) batch.
Proof.
  cbn [run_group g_join]. intros Hm.
  destruct (promise_all_spec t0 (it_promise <$> imap (make_item env cfg t0) batch))
    as (Hok & _).
  destruct (Hok m Hm) as (_ & _ & _ & ->).
  rewrite fetched_bind. apply (items_fetched env).
  intros K uri. by eexists.
Qed.

Lemma fetch_groups_fetched env cfg (batches : list (list string)) :
  forall t groups p metadatas,
  fetch_groups env cfg t batches = (groups, p) ->
  settled p = inr metadatas ->
  fetched (p_events p) = omap (request_url cfg) (concat batches).
Proof.
  induction batches as [|batch batches IH]; intros t groups p metadatas;
    cbn [fetch_groups].
  - by intros [= <- <-] _.
  - destruct (settled (g_join (run_group env cfg t batch))) as [e|m] eqn:Hjoin.
    + intros [= <- <-] Hp.
      change (settled (g_join (run_group env cfg t batch)) = inr metadatas) in Hp.
      congruence.
    + destruct (fetch_groups env cfg (settled_at (g_join (run_group env cfg t batch)))
                  batches) as [gs p'] eqn:Hrest.
      intros [= <- <-]. cbn [settled p_events].
      destruct (settled p') as [e|ms] eqn:Hp'; [done|]. intros _.
      pose proof (run_group_fetched env cfg t batch m Hjoin) as Hg.
      cbn [run_group g_join] in Hg. rewrite fetched_app, Hg.
      rewrite (IH _ _ _ _ Hrest Hp'). cbn [concat]. by rewrite omap_app.
Qed.

(** X19: the requests of a run that has returned are, in the order of the
    token URIs that the contract has answered, one request for every URI
    that begins with [ipfs://], [http://] or [https://], to the URL that
    [fetchTokenMetadata] makes of it, and no other. *)
Theorem requests_of_a_run (env : Env) (cfg : Config) (ctx : Context) (now : Z)
    (store : Store) (transfersData : list TransferEvent) :
  let run := processTransfers env cfg ctx now store transfersData in
  run_outcome run = Returned tt ->
  fetched (ir_events (run_init run))
    = omap (request_url cfg) (ir_tokenURIs (run_init run))
  /\ length (ir_tokenURIs (run_init run)) = length (r_newTokens (run_resolved run)).
Proof.
  cbv zeta. cbn [processTransfers run_outcome run_init run_resolved].
  generalize (r_heap (resolve store transfersData))
             (r_newTokens (resolve store transfersData)).
  intros h tokens. unfold initTokens.
  destruct (last (blocks ctx)) as [block|]; [|done].
  destruct (aggregate_spec env now block (index_at h <$> tokens)
              (MUTLTICALL_BATCH_SIZE cfg)) as (Hres & Hnone & _).
  destruct (settled (aggregate env now block (index_at h <$> tokens)
                       (MUTLTICALL_BATCH_SIZE cfg))) as [e|tokenURIs]; [done|].
  unfold fetch_all.
  destruct (splitIntoBatches (length tokenURIs) tokenURIs (MAX_IPFS_REQ_SEC cfg))
    as [batches returned] eqn:Hsplit.
  destruct (fetch_groups env cfg _ batches) as [groups p] eqn:Hfg.
  destruct (settled p) as [e|metadatas] eqn:Hp; [done|].
  destruct returned; [|done].
  destruct (merge_from tokenURIs metadatas h 0 tokens) as [h' err].
  ir_simpl. intros _.
  rewrite fetched_app, Hnone, (fetch_groups_fetched _ _ _ _ _ _ _ Hfg Hp).
  rewrite (splitIntoBatches_concat _ _ _ _ Hsplit).
  split; [done|]. by rewrite (Hres tokenURIs eq_refl), !length_fmap.
Qed.

Lemma requests_of_a_run_witness :
  let run := processTransfers Scenario.gateway_up main_config Scenario.ctx 0
               Scenario.store Scenario.batch in
  run_outcome run = Returned tt
  /\ ir_tokenURIs (run_init run) = ["ipfs://Qm7"; "ftp://x"]
  /\ fetched (ir_events (run_init run)) = ["https:/ipfs.io/Qm7"]
  /\ fetched (ir_events (run_init run))
     = omap (request_url main_config) (ir_tokenURIs (run_init run)).
Proof.
  intros run. split; [by vm_compute|]. split; [by vm_compute|].
  split; [by vm_compute|].
  apply (requests_of_a_run Scenario.gateway_up main_config Scenario.ctx 0
           Scenario.store Scenario.batch). by vm_compute.
Defined.

(** ** References between the rows *)

(** X20: a run keeps the references of the store whole.  If every token row
    names an owner that has a row, and every transfer row names two owners
    and a token that have rows, then the same holds of the store after
    [processTransfers], however the run has ended. *)
Theorem references_stay_whole (env : Env) (cfg : Config) (ctx : Context) (now : Z)
    (store : Store) (transfersData : list TransferEvent) :
  let run := processTransfers env cfg ctx now store transfersData in
  references_ok store -> references_ok (run_store run).
Proof.
  intros run [Htok Htr].
  assert (Hother : run_outcome run <> Returned tt -> run_store run = store).
  { subst run. cbn [processTransfers run_store run_outcome].
    by destruct (ir_outcome _) as [[]| |]. }
  destruct (run_outcome run) as [[]|e|] eqn:Hret;
    [|by rewrite Hother..].
  destruct (run_store_returned env cfg ctx now store transfersData Hret)
    as (Hown & Htoks & Htrs).
  destruct (flush_token_rows env cfg ctx now store transfersData)
    as (_ & Howner & _).
  fold run in Hown, Htoks, Htrs.
  assert (Hkeep_o : forall a, a ∈ owner_id <$> owner_table store ->
            a ∈ owner_id <$> owner_table (run_store run)).
  { intros a Ha. rewrite Hown. apply elem_of_upsert_keys. by right. }
  assert (Hkeep_t : forall k, k ∈ row_id <$> token_table store ->
            k ∈ row_id <$> token_table (run_store run)).
  { intros k Hk. rewrite Htoks. apply elem_of_upsert_keys. by right. }
  assert (Hnew : forall td, td ∈ transfersData ->
            ev_from td ∈ owner_id <$> owner_table (run_store run)
            /\ ev_to td ∈ owner_id <$> owner_table (run_store run)
            /\ tokenId td ∈ row_id <$> token_table (run_store run)).
  { intros td Htd.
    destruct (stored_owner_row env cfg ctx now store transfersData td Hret Htd)
      as [Hfrom Hto].
    split_and!; [by apply (list_elem_of_fmap_2 owner_id) in Hfrom
                |by apply (list_elem_of_fmap_2 owner_id) in Hto
                |by apply flushed_tokens]. }
  split.
  - intros row a Hrow Ha. rewrite Htoks in Hrow.
    apply elem_of_upsert_inv in Hrow as [Hrow|Hrow]; [|by eapply Hkeep_o, Htok].
    destruct (Howner row Hrow) as (td & Hlast & Hto).
    assert (a = ev_to td) as -> by congruence.
    apply Hnew. unfold last_transfer_of in Hlast.
    apply last_Some_elem_of in Hlast.
    by apply list_elem_of_filter in Hlast as [_ ?].
  - intros r Hr. rewrite Htrs in Hr.
    apply elem_of_upsert_inv in Hr as [Hr|Hr].
    + apply list_elem_of_fmap in Hr as (td & -> & Htd).
      destruct (Hnew td Htd) as (Hfrom & Hto & Htoken).
      cbn. split_and!; by intros ? [= <-].
    + destruct (Htr r Hr) as (Hfrom & Hto & Htoken).
      split_and!; intros x Hx; [apply Hkeep_o|apply Hkeep_o|apply Hkeep_t]; auto.
Qed.

Lemma references_stay_whole_witness :
  let run := processTransfers Scenario.gateway_up main_config Scenario.ctx 0
               Cases.store_with_7 Scenario.batch in
  references_ok Cases.store_with_7
  /\ run_outcome run = Returned tt
  /\ references_ok (run_store run).
Proof.
  intros run.
  assert (Hok : references_ok Cases.store_with_7).
  { split.
    - intros row a ->%list_elem_of_singleton [= <-]. left.
    - by intros r ?%elem_of_nil. }
  split; [done|]. split; [by vm_compute|].
  by apply (references_stay_whole Scenario.gateway_up main_config Scenario.ctx 0
              Cases.store_with_7 Scenario.batch).
Defined.

(** * The URL that is fetched for an IPFS URI *)

(** ** Strings and their segments *)

Section segments.
Implicit Types (a b s t cur : string) (segs : list string).

Lemma string_app_nil_r s : s +:+ "" = s.
Proof.
  induction s as [|c s IH]; [done|].
  change (String c s +:+ "") with (String c (s +:+ "")). by rewrite IH.
Qed.

Lemma rev_app_rev_app s a b :
  String.rev_app (String.rev_app s a) b = String.rev_app a (s +:+ b).
Proof.
  revert a b. induction s as [|c s IH]; intros a b; [done|].
  cbn [String.rev_app]. rewrite IH. done.
Qed.

Lemma string_rev_involutive s : String.rev (String.rev s) = s.
Proof.
  unfold String.rev. rewrite rev_app_rev_app. cbn. apply string_app_nil_r.
Qed.

Lemma split_go_app cur s t :
  no_slash s = true ->
  Path.split_go cur (s +:+ t) = Path.split_go (String.rev_app s cur) t.
Proof.
  revert cur. induction s as [|c s IH]; intros cur; [done|].
  cbn [no_slash]. intros [Hc Hs]%andb_prop. apply negb_true_iff in Hc.
  change (String c s +:+ t) with (String c (s +:+ t)).
  cbn [Path.split_go String.rev_app]. unfold is_slash in Hc. rewrite Hc.
  by apply IH.
Qed.

Lemma split_go_slash cur t :
  Path.split_go cur (String "/" t) = String.rev cur :: Path.split_go "" t.
Proof. done. Qed.

Lemma split_go_end cur : Path.split_go cur "" = [String.rev cur].
Proof. done. Qed.

Lemma split_segment seg t :
  no_slash seg = true ->
  Path.split (seg +:+ "/" +:+ t) = seg :: Path.split t.
Proof.
  intros Hseg. unfold Path.split. rewrite split_go_app by done.
  change ("/" +:+ t) with (String "/" t). rewrite split_go_slash.
  change (String.rev_app seg "") with (String.rev seg).
  by rewrite string_rev_involutive.
Qed.

Lemma split_last_segment seg : no_slash seg = true -> Path.split seg = [seg].
Proof.
  intros Hseg. unfold Path.split.
  rewrite <- (string_app_nil_r seg) at 1. rewrite split_go_app by done.
  rewrite split_go_end. change (String.rev_app seg "") with (String.rev seg).
  by rewrite string_rev_involutive.
Qed.

(** [s.split('/')] undoes [segs.join('/')] on segments without a slash. *)
Lemma split_unsplit segs :
  segs <> [] -> Forall (fun seg => no_slash seg = true) segs ->
  Path.split (Path.unsplit segs) = segs.
Proof.
  intros Hne Hall. induction Hall as [|seg segs Hseg Hsegs IH]; [done|].
  destruct segs as [|seg' segs]; [by apply split_last_segment|].
  change (Path.unsplit (seg :: seg' :: segs))
    with (seg +:+ "/" +:+ Path.unsplit (seg' :: segs)).
  rewrite split_segment by done. by rewrite IH.
Qed.

Lemma unsplit_app segs segs' :
  segs <> [] -> segs' <> [] ->
  Path.unsplit (segs ++ segs') = Path.unsplit segs +:+ "/" +:+ Path.unsplit segs'.
Proof.
  intros Hne Hne'. induction segs as [|seg segs IH]; [done|].
  destruct segs as [|seg0 segs].
  - destruct segs' as [|seg' segs']; done.
  - change (Path.unsplit ((seg :: seg0 :: segs) ++ segs'))
      with (seg +:+ "/" +:+ Path.unsplit ((seg0 :: segs) ++ segs')).
    rewrite IH by done.
    change (Path.unsplit (seg :: seg0 :: segs))
      with (seg +:+ "/" +:+ Path.unsplit (seg0 :: segs)).
    by rewrite !string_app_assoc.
Qed.

(** Normalization keeps the segments that are not empty, when none of them
    is a dot segment. *)
Lemma fold_normalize_segment allowAboveRoot segs (acc : list string) :
  Forall (fun seg => seg <> "." /\ seg <> "..") segs ->
  fold_left (Path.normalize_segment allowAboveRoot) segs acc
    = rev (filter (fun seg => seg <> "") segs) ++ acc.
Proof.
  intros Hall. revert acc.
  induction Hall as [|seg segs [Hdot Hdots] _ IH]; intros acc; [done|].
  cbn [fold_left]. rewrite IH. unfold Path.normalize_segment.
  destruct (decide (seg = "")) as [->|Hne].
  - rewrite filter_cons_False by naive_solver. by rewrite decide_True by by left.
  - rewrite filter_cons_True by done.
    rewrite decide_False by naive_solver. rewrite decide_False by done.
    cbn [rev]. by rewrite <- app_assoc.
Qed.

Lemma ends_with_slash_rev_app s cur :
  match String.rev_app s cur with
  | String c _ => Ascii.eqb c "/"
  | EmptyString => false
  end
  = if decide (s = "") then head_slash cur else ends_slash s.
Proof.
  revert cur. induction s as [|c s IH]; intros cur; [by destruct cur|].
  cbn [String.rev_app]. rewrite IH. rewrite (decide_False (P := String c s = "")) by done.
  by destruct s.
Qed.

Lemma ends_with_slash_ends_slash s : Path.ends_with_slash s = ends_slash s.
Proof.
  unfold Path.ends_with_slash, String.rev. rewrite ends_with_slash_rev_app.
  by destruct s.
Qed.

End segments.

(** ** Plain hosts and plain segments *)

Lemma unreserved_char (c : ascii) :
  URL.unreserved c = true -> is_slash c = false /\ line_terminator c = false.
Proof. destruct c as [[] [] [] [] [] [] [] []]; by vm_compute. Qed.

Lemma lower_alpha_char (c : ascii) : URL.lower_alpha c = true -> is_slash c = false.
Proof. destruct c as [[] [] [] [] [] [] [] []]; by vm_compute. Qed.

Lemma plain_chars (seg : string) :
  forallb URL.unreserved (list_ascii_of_string seg) = true ->
  no_slash seg = true
  /\ forallb (fun c => negb (line_terminator c)) (list_ascii_of_string seg) = true
  /\ URL.plain_path seg = true.
Proof.
  unfold URL.plain_path.
  induction seg as [|c seg IH]; [done|]. cbn.
  intros [Hc Hseg]%andb_prop. destruct (IH Hseg) as (-> & -> & ->).
  destruct (unreserved_char c Hc) as [-> ->]. by rewrite Hc.
Qed.

Lemma plain_segment_kept (seg : string) : plain_segment seg -> kept_segment seg.
Proof. intros (Hne & _ & _ & Hchars). split; [done|]. by apply plain_chars. Qed.

Lemma host_labels_no_slash (label_start : bool) (host : string) :
  URL.host_labels label_start host = true -> no_slash host = true.
Proof.
  revert label_start. induction host as [|c host IH]; intros label_start; [done|].
  cbn. destruct (URL.lower_alpha c) eqn:Hc.
  - intros Hrest. rewrite (lower_alpha_char c Hc). cbn. by eapply IH.
  - intros [[Hdot _]%andb_prop Hrest]%andb_prop.
    apply Ascii.eqb_eq in Hdot as ->. cbn. by eapply IH.
Qed.

(** A plain host has no slash, begins with a letter and is no dot
    segment. *)
Lemma plain_host_facts (host : string) :
  URL.plain_host host = true ->
  no_slash host = true /\ head_slash host = false
  /\ host <> "" /\ host <> "." /\ host <> "..".
Proof.
  intros Hhost. split; [by eapply host_labels_no_slash|].
  split; [|by split_and!; intros ->].
  destruct host as [|c host]; [done|]. cbn in *.
  destruct (URL.lower_alpha c) eqn:Hc; [by apply lower_alpha_char|].
  by rewrite andb_false_r in Hhost.
Qed.

Lemma plain_path_app (a b : string) :
  URL.plain_path (a +:+ b) = URL.plain_path a && URL.plain_path b.
Proof.
  unfold URL.plain_path. induction a as [|c a IH]; [done|].
  change (String c a +:+ b) with (String c (a +:+ b)). cbn.
  by rewrite IH, andb_assoc.
Qed.

Lemma plain_path_unsplit (segs : list string) :
  Forall plain_segment segs -> URL.plain_path (Path.unsplit segs) = true.
Proof.
  induction 1 as [|seg segs (_ & _ & _ & Hseg) _ IH]; [done|].
  apply plain_chars in Hseg as (_ & _ & Hseg).
  destruct segs as [|seg' segs]; [done|].
  change (Path.unsplit (seg :: seg' :: segs))
    with (seg +:+ "/" +:+ Path.unsplit (seg' :: segs)).
  by rewrite !plain_path_app, Hseg, IH.
Qed.

Lemma no_terminator_app (a b : string) :
  forallb (fun c => negb (line_terminator c)) (list_ascii_of_string (a +:+ b))
  = forallb (fun c => negb (line_terminator c)) (list_ascii_of_string a)
    && forallb (fun c => negb (line_terminator c)) (list_ascii_of_string b).
Proof.
  induction a as [|c a IH]; [done|].
  change (String c a +:+ b) with (String c (a +:+ b)). cbn.
  by rewrite IH, andb_assoc.
Qed.

Lemma no_terminator_unsplit (segs : list string) :
  Forall plain_segment segs ->
  forallb (fun c => negb (line_terminator c))
    (list_ascii_of_string (Path.unsplit segs)) = true.
Proof.
  induction 1 as [|seg segs (_ & _ & _ & Hseg) _ IH]; [done|].
  apply plain_chars in Hseg as (_ & Hseg & _).
  destruct segs as [|seg' segs]; [done|].
  change (Path.unsplit (seg :: seg' :: segs))
    with (seg +:+ "/" +:+ Path.unsplit (seg' :: segs)).
  by rewrite !no_terminator_app, Hseg, IH.
Qed.

(** ** The steps of the parser *)

Lemma skip_slashes_host (host rest : string) :
  head_slash host = false -> host <> "" ->
  URL.skip_slashes (String "/" (host +:+ rest)) = host +:+ rest.
Proof.
  destruct host as [|c host]; [done|]. cbn [head_slash]. unfold is_slash.
  intros Hc _. change (String c host +:+ rest) with (String c (host +:+ rest)).
  change (URL.skip_slashes (String "/" (String c (host +:+ rest))))
    with (URL.skip_slashes (String c (host +:+ rest))).
  cbn [URL.skip_slashes]. by rewrite Hc.
Qed.

Lemma authority_host (host rest : string) :
  no_slash host = true ->
  URL.authority (host +:+ String "/" rest) = (host, String "/" rest).
Proof.
  induction host as [|c host IH]; [done|].
  cbn [no_slash]. intros [Hc Hhost]%andb_prop. apply negb_true_iff in Hc.
  change (String c host +:+ String "/" rest) with (String c (host +:+ String "/" rest)).
  cbn [URL.authority]. unfold is_slash in Hc. by rewrite Hc, IH.
Qed.

Lemma path_state_plain (segs path : list string) :
  segs <> [] -> Forall (fun seg => seg <> "." /\ seg <> "..") segs ->
  URL.path_state path segs = rev segs ++ path.
Proof.
  intros Hne Hall. revert path.
  induction Hall as [|seg segs [Hdot Hdots] _ IH]; intros path; [done|].
  assert (Hseg : forall at_end, URL.path_segment at_end path seg = seg :: path).
  { intros at_end. unfold URL.path_segment.
    rewrite decide_False by done. by rewrite decide_False by done. }
  destruct segs as [|seg' segs]; [by cbn; rewrite Hseg|].
  change (URL.path_state path (seg :: seg' :: segs))
    with (URL.path_state (URL.path_segment false path seg) (seg' :: segs)).
  rewrite Hseg, IH by done. cbn [rev]. by rewrite <- !app_assoc.
Qed.

Lemma filter_Forall_id {A} (P : A -> Prop) `{!forall x, Decision (P x)} (l : list A) :
  Forall P l -> filter P l = l.
Proof.
  induction 1 as [|x l Hx _ IH]; [done|]. by rewrite filter_cons_True, IH.
Qed.

(** ** The gateway base and its segments *)

Lemma gateway_dirs_unsplit (dirs segs : list string) :
  segs <> [] ->
  foldr (fun dir rest => "/" +:+ dir +:+ rest) "/" dirs +:+ Path.unsplit segs
  = "/" +:+ Path.unsplit (dirs ++ segs).
Proof.
  intros Hne. induction dirs as [|dir dirs IH]; [done|].
  cbn [foldr app]. rewrite !string_app_assoc, IH.
  destruct (dirs ++ segs) as [|seg' rest] eqn:Heq; [by destruct dirs|].
  done.
Qed.

Lemma gateway_base_segments (sch host : string) (dirs segs : list string) (slash : bool) :
  segs <> [] ->
  gateway_base sch host dirs slash +:+ "/" +:+ Path.unsplit segs
  = Path.unsplit ([sch +:+ ":"; ""; host] ++ dirs
                    ++ (if slash then [""] else []) ++ segs).
Proof.
  intros Hne. unfold gateway_base.
  assert (Hdirs : forall pre : list string, pre <> [] ->
            Path.unsplit pre
              +:+ foldr (fun dir rest => "/" +:+ dir +:+ rest)
                    (if slash then "/" else "") dirs
              +:+ "/" +:+ Path.unsplit segs
            = Path.unsplit (pre ++ dirs ++ (if slash then [""] else []) ++ segs)).
  { induction dirs as [|dir dirs IH]; intros pre Hpre.
    - cbn [foldr app]. destruct slash.
      + rewrite (unsplit_app pre ([""] ++ segs)) by done.
        rewrite (unsplit_app [""] segs) by done. done.
      + cbn [app]. rewrite (unsplit_app pre segs) by done.
        reflexivity.
    - cbn [foldr].
      replace (pre ++ (dir :: dirs) ++ (if slash then [""] else []) ++ segs)
        with ((pre ++ [dir]) ++ dirs ++ (if slash then [""] else []) ++ segs)
        by by rewrite <- app_assoc.
      rewrite <- (IH (pre ++ [dir])) by by destruct pre.
      rewrite (unsplit_app pre [dir]) by done.
      by rewrite !string_app_assoc. }
  rewrite <- (Hdirs [sch +:+ ":"; ""; host]) by done.
  change (Path.unsplit [sch +:+ ":"; ""; host])
    with ((sch +:+ ":") +:+ "/" +:+ "" +:+ "/" +:+ host).
  by rewrite !string_app_assoc.
Qed.

(** ** What [path.posix.join] makes of gateway and content path *)

Lemma startsWith_slash (s : string) : startsWith s "/" = head_slash s.
Proof.
  destruct s as [|c s]; [done|].
  unfold startsWith. cbn [String.prefix head_slash]. unfold is_slash.
  destruct (ascii_dec "/" c) as [<-|Hne]; [by destruct s|].
  by destruct (Ascii.eqb_spec c "/") as [->|_].
Qed.

Section gateway.
Context (sch host : string) (dirs segs : list string) (slash : bool).
Context (Hsch : sch = "http" \/ sch = "https").
Context (Hhost : URL.plain_host host = true).
Context (Hdirs : Forall plain_segment dirs) (Hsegs : Forall plain_segment segs).
Context (Hne : segs <> []).

Lemma join_gateway_base :
  Path.join [gateway_base sch host dirs slash; Path.unsplit segs]
  = sch +:+ ":/" +:+ host +:+ "/" +:+ Path.unsplit (dirs ++ segs).
Proof using All.
  destruct (plain_host_facts host Hhost) as (Hhs & Hhh & Hhne & Hhdot & Hhdots).
  assert (Hkept : Forall kept_segment segs).
  { eapply Forall_impl; [done|]. apply plain_segment_kept. }
  destruct (unsplit_kept segs Hkept) as (_ & _ & Hend & Hpath).
  specialize (Hpath Hne).
  assert (Hgw : gateway_base sch host dirs slash <> "").
  { unfold gateway_base. by destruct Hsch as [-> | ->]. }
  unfold Path.join.
  rewrite filter_cons_True by done. rewrite filter_cons_True by done.
  rewrite filter_nil.
  change (Path.unsplit [gateway_base sch host dirs slash; Path.unsplit segs])
    with (gateway_base sch host dirs slash +:+ "/" +:+ Path.unsplit segs).
  unfold Path.normalize.
  rewrite decide_False by by destruct (gateway_base sch host dirs slash).
  cbv zeta.
  rewrite startsWith_slash, ends_with_slash_ends_slash.
  rewrite head_slash_app, (decide_False (P := gateway_base sch host dirs slash = "")) by done.
  replace (head_slash (gateway_base sch host dirs slash)) with false
    by by (unfold gateway_base; destruct Hsch as [-> | ->]).
  rewrite !ends_slash_app.
  rewrite (decide_False (P := "/" +:+ Path.unsplit segs = "")) by done.
  rewrite (decide_False (P := Path.unsplit segs = "")) by done.
  rewrite Hend. cbn [negb].
  unfold Path.normalizeString.
  rewrite gateway_base_segments by done.
  set (pieces := [sch +:+ ":"; ""; host] ++ dirs
                   ++ (if slash then [""] else []) ++ segs).
  assert (Hsplit : Path.split (Path.unsplit pieces) = pieces).
  { apply split_unsplit; [done|]. subst pieces.
    repeat apply Forall_app_2.
    - repeat constructor; [by destruct Hsch as [-> | ->]|done].
    - eapply Forall_impl; [exact Hdirs|]. by intros seg [_ ?]%plain_segment_kept.
    - destruct slash; by repeat constructor.
    - eapply Forall_impl; [exact Hkept|]. by intros seg [_ ?]. }
  rewrite Hsplit, fold_normalize_segment, app_nil_r, rev_involutive.
  2: { subst pieces. repeat apply Forall_app_2.
       - repeat constructor; try done; destruct Hsch as [-> | ->]; done.
       - eapply Forall_impl; [exact Hdirs|]. by intros seg (_ & ? & ? & _).
       - destruct slash; by repeat constructor.
       - eapply Forall_impl; [exact Hsegs|]. by intros seg (_ & ? & ? & _). }
  assert (Hfilter : filter (fun seg : string => seg <> "") pieces
                    = [sch +:+ ":"; host] ++ dirs ++ segs).
  { subst pieces. rewrite !filter_app.
    rewrite (filter_Forall_id _ dirs)
      by (eapply Forall_impl; [exact Hdirs|]; by intros seg [? _]).
    rewrite (filter_Forall_id _ segs)
      by (eapply Forall_impl; [exact Hsegs|]; by intros seg [? _]).
    replace (filter (fun seg : string => seg <> "") (if slash then [""] else []))
      with (@nil string) by by destruct slash.
    rewrite filter_cons_True by by destruct Hsch as [-> | ->].
    rewrite filter_cons_False by naive_solver.
    rewrite filter_cons_True by done. by rewrite filter_nil. }
  rewrite Hfilter.
  assert (Hrest : dirs ++ segs <> []) by by destruct dirs.
  rewrite (unsplit_app [sch +:+ ":"; host] (dirs ++ segs)) by done.
  change (Path.unsplit [sch +:+ ":"; host]) with ((sch +:+ ":") +:+ "/" +:+ host).
  rewrite decide_False by by destruct Hsch as [-> | ->].
  by rewrite !string_app_assoc.
Qed.

Lemma href_gateway_base :
  URL.href (sch +:+ ":/" +:+ host +:+ "/" +:+ Path.unsplit (dirs ++ segs))
  = Some (gateway_base sch host dirs true +:+ Path.unsplit segs).
Proof using All.
  destruct (plain_host_facts host Hhost) as (Hhs & Hhh & Hhne & Hhdot & Hhdots).
  assert (Hall : Forall plain_segment (dirs ++ segs)) by by apply Forall_app_2.
  assert (Hrest : dirs ++ segs <> []) by by destruct dirs.
  assert (Hscheme : URL.special_scheme
                      (sch +:+ ":/" +:+ host +:+ "/" +:+ Path.unsplit (dirs ++ segs))
                    = Some (sch, String "/" (host +:+ String "/" (Path.unsplit (dirs ++ segs))))).
  { by destruct Hsch as [-> | ->]. }
  unfold URL.href. rewrite Hscheme.
  rewrite skip_slashes_host by done. rewrite authority_host by done.
  rewrite Hhost.
  change (URL.plain_path (String "/" (Path.unsplit (dirs ++ segs))))
    with (URL.plain_path (Path.unsplit (dirs ++ segs))).
  rewrite plain_path_unsplit by done. cbn [andb].
  rewrite split_unsplit; [|done|].
  2: { eapply Forall_impl; [exact Hall|]. by intros seg [_ ?]%plain_segment_kept. }
  rewrite path_state_plain, app_nil_r, rev_involutive; [|done|].
  2: { eapply Forall_impl; [exact Hall|]. by intros seg (_ & ? & ? & _). }
  f_equal. unfold gateway_base.
  by rewrite !string_app_assoc, gateway_dirs_unsplit.
Qed.

End gateway.

(** ** The claim about the gateway URL *)



